(** * geval: the expression engine, embedded in Rocq

    The development follows the Go sources of the repository:
    - [core/TokenKind.go]      token kinds, the lexer, the token optimizer;
    - [core/lexerState.go]     the grammar table and checker, the token
                               stream, the planner, the reordering pass and
                               the constant folder;
    - [core/OperatorSymbol.go] operator symbols, precedences, symbol tables;
    - [core/parameters.go]     parameter environments;
    - the evaluator ([TEvaluate], [evaluateStage]) and the entry point [Eval].

    Go values of static type [interface{}] are the tagged union [value];
    a Go function returning [(x, error)] returns an [outcome]; run-time
    panics (index out of range, failed type assertion, nil dereference) are
    an outcome of their own.  Stages live in a store addressed by pointers,
    because the reordering pass rewires them in place. *)

From Stdlib Require Import ZArith String Ascii List Lia Bool.
From stdpp Require Import base option list strings gmap.

#[global] Set Warnings "-register-all".

Local Open Scope string_scope.

(** ** Token kinds ([core/TokenKind.go]) *)

Inductive tTokenKind : Set :=
| tUNKNOWN
| tPREFIX
| tNUMERIC
| tBOOLEAN
| tSTRING
| tPATTERN
| tTIME
| tVARIABLE
| tFUNCTION
| tSEPARATOR
| tACCESSOR
| tCOMPARATOR
| tLOGICALOP
| tMODIFIER
| tCLAUSE
| tCLAUSE_CLOSE
| tTERNARY.

#[global] Instance tTokenKind_eq_dec : EqDecision tTokenKind.
Proof. solve_decision. Defined.

Definition tString (kind : tTokenKind) : string :=
  match kind with
  | tPREFIX => "tPREFIX"
  | tNUMERIC => "tNUMERIC"
  | tBOOLEAN => "tBOOLEAN"
  | tSTRING => "tSTRING"
  | tPATTERN => "tPATTERN"
  | tTIME => "tTIME"
  | tVARIABLE => "tVARIABLE"
  | tFUNCTION => "tFUNCTION"
  | tSEPARATOR => "tSEPARATOR"
  | tCOMPARATOR => "tCOMPARATOR"
  | tLOGICALOP => "tLOGICALOP"
  | tMODIFIER => "tMODIFIER"
  | tCLAUSE => "tCLAUSE"
  | tCLAUSE_CLOSE => "tCLAUSE_CLOSE"
  | tTERNARY => "tTERNARY"
  | tACCESSOR => "tACCESSOR"
  | tUNKNOWN => "tUNKNOWN"
  end.

(** ** Operator symbols and precedences ([core/OperatorSymbol.go]) *)

Inductive tOperatorSymbol : Set :=
| tVALUE
| tLITERAL
| tNOOP
| tEQ
| tNEQ
| tGT
| tLT
| tGTE
| tLTE
| tREQ
| tNREQ
| tIN
| tAND
| tOR
| tPLUS
| tMINUS
| tBITWISE_AND
| tBITWISE_OR
| tBITWISE_XOR
| tBITWISE_LSHIFT
| tBITWISE_RSHIFT
| tMULTIPLY
| tDIVIDE
| tMODULUS
| tEXPONENT
| tNEGATE
| tINVERT
| tBITWISE_NOT
| tTERNARY_TRUE
| tTERNARY_FALSE
| tCOALESCE
| tFUNCTIONAL
| tACCESS
| tSEPARATE.

#[global] Instance tOperatorSymbol_eq_dec : EqDecision tOperatorSymbol.
Proof. solve_decision. Defined.

Inductive operatorPrecedence : Set :=
| noopPrecedence
| valuePrecedence
| functionalPrecedence
| prefixPrecedence
| exponentialPrecedence
| additivePrecedence
| bitwisePrecedence
| bitwiseShiftPrecedence
| multiplicativePrecedence
| comparatorPrecedence
| ternaryPrecedence
| logicalAndPrecedence
| logicalOrPrecedence
| separatePrecedence.

#[global] Instance operatorPrecedence_eq_dec : EqDecision operatorPrecedence.
Proof. solve_decision. Defined.

Definition findOperatorPrecedenceForSymbol (symbol : tOperatorSymbol)
  : operatorPrecedence :=
  match symbol with
  | tNOOP => noopPrecedence
  | tVALUE => valuePrecedence
  | tEQ | tNEQ | tGT | tLT | tGTE | tLTE | tREQ | tNREQ | tIN =>
      comparatorPrecedence
  | tAND => logicalAndPrecedence
  | tOR => logicalOrPrecedence
  | tBITWISE_AND | tBITWISE_OR | tBITWISE_XOR => bitwisePrecedence
  | tBITWISE_LSHIFT | tBITWISE_RSHIFT => bitwiseShiftPrecedence
  | tPLUS | tMINUS => additivePrecedence
  | tMULTIPLY | tDIVIDE | tMODULUS => multiplicativePrecedence
  | tEXPONENT => exponentialPrecedence
  | tBITWISE_NOT | tNEGATE | tINVERT => prefixPrecedence
  | tCOALESCE | tTERNARY_TRUE | tTERNARY_FALSE => ternaryPrecedence
  | tACCESS | tFUNCTIONAL => functionalPrecedence
  | tSEPARATE => separatePrecedence
  | tLITERAL => valuePrecedence
  end.

(** The symbol tables are Go maps from lexemes to symbols; they are only
    ever looked up, so each is its list of entries. *)
Definition symbolTable := list (string * tOperatorSymbol).

Fixpoint lookupSymbol (table : symbolTable) (lexeme : string)
  : option tOperatorSymbol :=
  match table with
  | [] => None
  | (key, symbol) :: rest =>
      if String.eqb key lexeme then Some symbol else lookupSymbol rest lexeme
  end.

Definition comparatorSymbols : symbolTable :=
  [("==", tEQ); ("!=", tNEQ); (">", tGT); (">=", tGTE); ("<", tLT);
   ("<=", tLTE); ("=~", tREQ); ("!~", tNREQ); ("in", tIN)].

Definition logicalSymbols : symbolTable := [("&&", tAND); ("||", tOR)].

Definition bitwiseSymbols : symbolTable :=
  [("^", tBITWISE_XOR); ("&", tBITWISE_AND); ("|", tBITWISE_OR)].

Definition bitwiseShiftSymbols : symbolTable :=
  [(">>", tBITWISE_RSHIFT); ("<<", tBITWISE_LSHIFT)].

Definition additiveSymbols : symbolTable := [("+", tPLUS); ("-", tMINUS)].

Definition multiplicativeSymbols : symbolTable :=
  [("*", tMULTIPLY); ("/", tDIVIDE); ("%", tMODULUS)].

Definition exponentialSymbolsS : symbolTable := [("**", tEXPONENT)].

Definition prefixSymbols : symbolTable :=
  [("-", tNEGATE); ("!", tINVERT); ("~", tBITWISE_NOT)].

Definition ternarySymbols : symbolTable :=
  [("?", tTERNARY_TRUE); (":", tTERNARY_FALSE); ("??", tCOALESCE)].

Definition modifierSymbols : symbolTable :=
  [("+", tPLUS); ("-", tMINUS); ("*", tMULTIPLY); ("/", tDIVIDE);
   ("%", tMODULUS); ("**", tEXPONENT); ("&", tBITWISE_AND);
   ("|", tBITWISE_OR); ("^", tBITWISE_XOR); (">>", tBITWISE_RSHIFT);
   ("<<", tBITWISE_LSHIFT)].

Definition separatorSymbols : symbolTable := [(",", tSEPARATE)].

Definition symbolString (this : tOperatorSymbol) : string :=
  match this with
  | tNOOP => "tNOOP"
  | tVALUE => "tVALUE"
  | tEQ => "="
  | tNEQ => "!="
  | tGT => ">"
  | tLT => "<"
  | tGTE => ">="
  | tLTE => "<="
  | tREQ => "=~"
  | tNREQ => "!~"
  | tAND => "&&"
  | tOR => "||"
  | tIN => "in"
  | tBITWISE_AND => "&"
  | tBITWISE_OR => "|"
  | tBITWISE_XOR => "^"
  | tBITWISE_LSHIFT => "<<"
  | tBITWISE_RSHIFT => ">>"
  | tPLUS => "+"
  | tMINUS => "-"
  | tMULTIPLY => "*"
  | tDIVIDE => "/"
  | tMODULUS => "%"
  | tEXPONENT => "**"
  | tNEGATE => "-"
  | tINVERT => "!"
  | tBITWISE_NOT => "~"
  | tTERNARY_TRUE => "?"
  | tTERNARY_FALSE => ":"
  | tCOALESCE => "??"
  | tLITERAL | tFUNCTIONAL | tACCESS | tSEPARATE => ""
  end.

(** ** The lexer state table ([core/lexerState.go]) *)

Record lexerState : Set := mkLexerState {
  kind : tTokenKind;
  isEOF : bool;
  isNullable : bool;
  validNextKinds : list tTokenKind
}.

Definition unknownState : lexerState :=
  mkLexerState tUNKNOWN false true
    [tPREFIX; tNUMERIC; tBOOLEAN; tVARIABLE; tPATTERN; tFUNCTION; tACCESSOR;
     tSTRING; tTIME; tCLAUSE].

Definition validLexerStates : list lexerState :=
  [ unknownState;
    mkLexerState tCLAUSE false true
      [tPREFIX; tNUMERIC; tBOOLEAN; tVARIABLE; tPATTERN; tFUNCTION;
       tACCESSOR; tSTRING; tTIME; tCLAUSE; tCLAUSE_CLOSE];
    mkLexerState tCLAUSE_CLOSE true true
      [tCOMPARATOR; tMODIFIER; tNUMERIC; tBOOLEAN; tVARIABLE; tSTRING;
       tPATTERN; tTIME; tCLAUSE; tCLAUSE_CLOSE; tLOGICALOP; tTERNARY;
       tSEPARATOR];
    mkLexerState tNUMERIC true false
      [tMODIFIER; tCOMPARATOR; tLOGICALOP; tCLAUSE_CLOSE; tTERNARY;
       tSEPARATOR];
    mkLexerState tBOOLEAN true false
      [tMODIFIER; tCOMPARATOR; tLOGICALOP; tCLAUSE_CLOSE; tTERNARY;
       tSEPARATOR];
    mkLexerState tSTRING true false
      [tMODIFIER; tCOMPARATOR; tLOGICALOP; tCLAUSE_CLOSE; tTERNARY;
       tSEPARATOR];
    mkLexerState tTIME true false
      [tMODIFIER; tCOMPARATOR; tLOGICALOP; tCLAUSE_CLOSE; tSEPARATOR];
    mkLexerState tPATTERN true false
      [tMODIFIER; tCOMPARATOR; tLOGICALOP; tCLAUSE_CLOSE; tSEPARATOR];
    mkLexerState tVARIABLE true false
      [tMODIFIER; tCOMPARATOR; tLOGICALOP; tCLAUSE_CLOSE; tTERNARY;
       tSEPARATOR];
    mkLexerState tMODIFIER false false
      [tPREFIX; tNUMERIC; tVARIABLE; tFUNCTION; tACCESSOR; tSTRING;
       tBOOLEAN; tCLAUSE; tCLAUSE_CLOSE];
    mkLexerState tCOMPARATOR false false
      [tPREFIX; tNUMERIC; tBOOLEAN; tVARIABLE; tFUNCTION; tACCESSOR;
       tSTRING; tTIME; tCLAUSE; tCLAUSE_CLOSE; tPATTERN];
    mkLexerState tLOGICALOP false false
      [tPREFIX; tNUMERIC; tBOOLEAN; tVARIABLE; tFUNCTION; tACCESSOR;
       tSTRING; tTIME; tCLAUSE; tCLAUSE_CLOSE];
    mkLexerState tPREFIX false false
      [tNUMERIC; tBOOLEAN; tVARIABLE; tFUNCTION; tACCESSOR; tCLAUSE;
       tCLAUSE_CLOSE];
    mkLexerState tTERNARY false false
      [tPREFIX; tNUMERIC; tBOOLEAN; tSTRING; tTIME; tVARIABLE; tFUNCTION;
       tACCESSOR; tCLAUSE; tSEPARATOR];
    mkLexerState tFUNCTION false false [tCLAUSE];
    mkLexerState tACCESSOR true false
      [tCLAUSE; tMODIFIER; tCOMPARATOR; tLOGICALOP; tCLAUSE_CLOSE; tTERNARY;
       tSEPARATOR];
    mkLexerState tSEPARATOR false true
      [tPREFIX; tNUMERIC; tBOOLEAN; tSTRING; tTIME; tVARIABLE; tFUNCTION;
       tACCESSOR; tCLAUSE] ].

Fixpoint canTransitionTo_loop (valid : list tTokenKind) (k : tTokenKind)
  : bool :=
  match valid with
  | [] => false
  | validKind :: rest =>
      if decide (validKind = k) then true else canTransitionTo_loop rest k
  end.

Definition canTransitionTo (this : lexerState) (k : tTokenKind) : bool :=
  canTransitionTo_loop this.(validNextKinds) k.

(** ** Outcomes of Go calls *)

Inductive panic : Set :=
| IndexOutOfRange
| TypeAssertion
| NilDereference.

Inductive outcome (A : Type) : Type :=
| Done (a : A)
| Fail (err : string)
| Panic (p : panic)
| OutOfFuel.

Arguments Done {A} a.
Arguments Fail {A} err.
Arguments Panic {A} p.
Arguments OutOfFuel {A}.

#[global] Instance outcome_ret : MRet outcome := @Done.
#[global] Instance outcome_bind : MBind outcome := fun A B f m =>
  match m with
  | Done a => f a
  | Fail err => Fail err
  | Panic p => Panic p
  | OutOfFuel => OutOfFuel
  end.

(** A [for i := range ...] loop whose body may return early: the body is
    run at each index in turn, threading the loop state. *)
Fixpoint rangeLoop {S : Type} (body : nat -> S -> outcome S)
  (indices : list nat) (s : S) : outcome S :=
  match indices with
  | [] => Done s
  | i :: rest => s' ← body i s; rangeLoop body rest s'
  end.

Fixpoint getLexerStateForToken_loop (states : list lexerState)
  (k : tTokenKind) : outcome lexerState :=
  match states with
  | [] =>
      Fail ("No lexer state found for token kind '" +:+ tString k +:+ "'
")
  | possibleState :: rest =>
      if decide (possibleState.(kind) = k) then Done possibleState
      else getLexerStateForToken_loop rest k
  end.

Definition getLexerStateForToken (k : tTokenKind) : outcome lexerState :=
  getLexerStateForToken_loop validLexerStates k.

(** ** Values

    The carriers the Go runtime and its libraries provide: doubles,
    compiled regular expressions, time stamps, and the callables a caller
    registers as expression functions. *)
Class Carriers : Type := {
  float64 : Type;
  Regexp : Type;
  Time : Type;
  ExpressionFunction : Type
}.

Section Engine.

Context {carriers : Carriers}.

(** [value] is Go's [interface{}] restricted to the dynamic types the
    engine produces: nil, bool, float64, string, *Regexp, time.Time,
    []string (accessor paths), tExpressionFunction, []interface{}
    (argument lists), rune (the value of clause tokens) and int (the
    short-circuit marker). *)
Inductive value : Type :=
| VNil
| VBool (b : bool)
| VFloat (f : float64)
| VString (s : string)
| VPattern (re : Regexp)
| VTime (t : Time)
| VPath (segments : list string)
| VFunc (f : ExpressionFunction)
| VArray (elements : list value)
| VRune (c : ascii)
| VInt (n : Z).

Definition isNil (v : value) : bool :=
  match v with VNil => true | _ => false end.

(** What the engine needs from the Go runtime and its standard library. *)
Class Runtime : Type := {
  (* fmt's %v verb *)
  fmtV : value -> string;
  (* regexp.Compile *)
  regexpCompile : string -> Regexp + string;
  (* Regexp.Match on the bytes of a string *)
  regexpMatch : Regexp -> string -> bool;
  (* strconv.ParseFloat(s, 64) *)
  parseFloat : string -> option float64;
  (* float64(n) for an unsigned 64-bit n *)
  floatOfUint64 : N -> float64;
  (* the literal-time formats tried by tryParseTime *)
  tryParseTime : string -> option Time;
  (* float64(t.Unix()) *)
  timeUnix : Time -> float64;
  (* arithmetic on doubles *)
  fadd : float64 -> float64 -> float64;
  fsub : float64 -> float64 -> float64;
  fmul : float64 -> float64 -> float64;
  fdiv : float64 -> float64 -> float64;
  fmod : float64 -> float64 -> float64;
  fpow : float64 -> float64 -> float64;
  fneg : float64 -> float64;
  feqb : float64 -> float64 -> bool;
  fltb : float64 -> float64 -> bool;
  fleb : float64 -> float64 -> bool;
  (* the bitwise operators, through the integer conversions *)
  fand : float64 -> float64 -> float64;
  for_ : float64 -> float64 -> float64;
  fxor : float64 -> float64 -> float64;
  fshl : float64 -> float64 -> float64;
  fshr : float64 -> float64 -> float64;
  fnot : float64 -> float64;
  (* reflect.DeepEqual on the carriers *)
  regexpEqb : Regexp -> Regexp -> bool;
  timeEqb : Time -> Time -> bool;
  (* calling a registered function on its arguments *)
  callFunction : ExpressionFunction -> list value -> outcome value;
  (* walking an accessor path by reflection: the value of the first
     segment's parameter, the remaining segments, the call arguments *)
  accessPath : value -> list string -> value -> outcome value;
  (* castToFloat64 on a fetched parameter *)
  castToFloat64 : value -> value;
  (* fmt.Sprintf of a type-error template with a value and a symbol *)
  sprintfTypeError : string -> value -> string -> string;
  (* the type-error templates of the stage file *)
  logicalErrorFormat : string;
  modifierErrorFormat : string;
  comparatorErrorFormat : string;
  ternaryErrorFormat : string;
  prefixErrorFormat : string
}.

Context {runtime : Runtime}.

(** ** Tokens *)

Record tExpressionToken : Type := mkToken {
  Kind : tTokenKind;
  Value : value
}.

Definition zeroToken : tExpressionToken := mkToken tUNKNOWN VNil.

(** ** The grammar checker ([checkExpressionSyntax]) *)

Definition stateName (k : tTokenKind) (v : value) : string :=
  tString k +:+ " [" +:+ fmtV v +:+ "]".

Fixpoint checkExpressionSyntax_loop (state : lexerState)
  (lastToken : tExpressionToken) (tokens : list tExpressionToken)
  : outcome lexerState :=
  match tokens with
  | [] => Done state
  | token :: rest =>
      if negb (canTransitionTo state token.(Kind)) then
        if bool_decide (lastToken.(Kind) = tVARIABLE)
           && bool_decide (token.(Kind) = tCLAUSE)
        then
          match lastToken.(Value) with
          | VString name => Fail ("Undefined function " +:+ name)
          | _ => Panic TypeAssertion
          end
        else
          let firstStateName := stateName state.(kind) lastToken.(Value) in
          let nextStateName := stateName token.(Kind) token.(Value) in
          Fail ("Cannot transition token types from " +:+ firstStateName
                +:+ " to " +:+ nextStateName)
      else
        state' ← getLexerStateForToken token.(Kind);
        if negb state'.(isNullable) && isNil token.(Value) then
          Fail ("Token kind '" +:+ tString token.(Kind)
                +:+ "' cannot have a nil value")
        else checkExpressionSyntax_loop state' token rest
  end.

Definition checkExpressionSyntax (tokens : list tExpressionToken)
  : outcome unit :=
  state ← checkExpressionSyntax_loop unknownState zeroToken tokens;
  if negb state.(isEOF) then Fail "Unexpected end of expression"
  else Done ().

(** ** Parenthesis balance ([checkBalance]) *)

Fixpoint checkBalance_loop (parens : Z) (tokens : list tExpressionToken)
  : Z :=
  match tokens with
  | [] => parens
  | token :: rest =>
      if decide (token.(Kind) = tCLAUSE) then
        checkBalance_loop (parens + 1) rest
      else if decide (token.(Kind) = tCLAUSE_CLOSE) then
        checkBalance_loop (parens - 1) rest
      else checkBalance_loop parens rest
  end.

Definition checkBalance (tokens : list tExpressionToken) : outcome unit :=
  if decide (checkBalance_loop 0 tokens = 0%Z) then Done ()
  else Fail "Unbalanced parenthesis".

(** ** The token optimizer ([optimizeTokens])

    The loop ranges over the indices of the slice and rewrites the slice
    in place; the element read at [index + 1] is outside the slice when
    the comparator is the last token. *)

Definition optimizeTokens_body (index : nat)
  (tokens : list tExpressionToken) : outcome (list tExpressionToken) :=
  match tokens !! index with
  | None => Panic IndexOutOfRange
  | Some token =>
      if negb (bool_decide (token.(Kind) = tCOMPARATOR)) then Done tokens
      else
        match token.(Value) with
        | VString lexeme =>
            let symbol :=
              default tVALUE (lookupSymbol comparatorSymbols lexeme) in
            if negb (bool_decide (symbol = tREQ))
               && negb (bool_decide (symbol = tNREQ))
            then Done tokens
            else
              let index := S index in
              match tokens !! index with
              | None => Panic IndexOutOfRange
              | Some token =>
                  if bool_decide (token.(Kind) = tSTRING) then
                    match token.(Value) with
                    | VString source =>
                        match regexpCompile source with
                        | inl re =>
                            Done (<[index := mkToken tPATTERN (VPattern re)]>
                                    tokens)
                        | inr err => Fail err
                        end
                    | _ => Panic TypeAssertion
                    end
                  else Done tokens
              end
        | _ => Panic TypeAssertion
        end
  end.

Definition optimizeTokens (tokens : list tExpressionToken)
  : outcome (list tExpressionToken) :=
  rangeLoop optimizeTokens_body (seq 0 (length tokens)) tokens.

(** ** The lexer ([parseTokens], [readToken])

    Source text is a sequence of characters; the classification functions
    of Go's [unicode] package are given on the ASCII range, which is the
    range the expression language is written in. *)

Definition charBetween (lo hi c : ascii) : bool :=
  (nat_of_ascii lo <=? nat_of_ascii c)%nat
  && (nat_of_ascii c <=? nat_of_ascii hi)%nat.

Definition unicodeIsSpace (c : ascii) : bool :=
  charBetween "009" "013" c || Ascii.eqb c " ".

Definition unicodeIsDigit (c : ascii) : bool := charBetween "0" "9" c.

Definition unicodeIsLetter (c : ascii) : bool :=
  charBetween "A" "Z" c || charBetween "a" "z" c.

Definition unicodeToUpper (c : ascii) : ascii :=
  if charBetween "a" "z" c then ascii_of_nat (nat_of_ascii c - 32) else c.

Definition unicodeToLower (c : ascii) : ascii :=
  if charBetween "A" "Z" c then ascii_of_nat (nat_of_ascii c + 32) else c.

Definition isHexDigit (character : ascii) : bool :=
  let character := unicodeToLower character in
  unicodeIsDigit character || charBetween "a" "f" character.

Definition isNumeric (character : ascii) : bool :=
  unicodeIsDigit character || Ascii.eqb character ".".

Definition isNotQuote (character : ascii) : bool :=
  negb (Ascii.eqb character "'") && negb (Ascii.eqb character "034").

Definition isNotAlphanumeric (character : ascii) : bool :=
  negb (unicodeIsDigit character
        || unicodeIsLetter character
        || Ascii.eqb character "("
        || Ascii.eqb character ")"
        || Ascii.eqb character "["
        || Ascii.eqb character "]"
        || negb (isNotQuote character)).

Definition isVariableName (character : ascii) : bool :=
  unicodeIsLetter character
  || unicodeIsDigit character
  || Ascii.eqb character "_"
  || Ascii.eqb character ".".

Definition isNotClosingBracket (character : ascii) : bool :=
  negb (Ascii.eqb character "]").

Definition getFirstRune (candidate : string) : ascii :=
  match candidate with
  | String character _ => character
  | EmptyString => zero
  end.

(** Modelled from the spec: the character cursor over the source text
    (the repository's [lexerStream], whose file is not among the sources):
    a position into the characters, read one at a time, with [rewind]
    moving the position back by an amount that may be negative. *)
Record lexerStream : Set := mkLexerStream {
  source : list ascii;
  position : Z
}.

Definition newLexerStream (expression : string) : lexerStream :=
  mkLexerStream (list_ascii_of_string expression) 0.

Definition canRead (stream : lexerStream) : bool :=
  (stream.(position) <? Z.of_nat (length stream.(source)))%Z.

Definition readCharacter (stream : lexerStream)
  : outcome (ascii * lexerStream) :=
  if (stream.(position) <? 0)%Z then Panic IndexOutOfRange
  else
    match stream.(source) !! Z.to_nat stream.(position) with
    | Some character =>
        Done (character,
              mkLexerStream stream.(source) (stream.(position) + 1))
    | None => Panic IndexOutOfRange
    end.

Definition rewindLexer (amount : Z) (stream : lexerStream) : lexerStream :=
  mkLexerStream stream.(source) (stream.(position) - amount).

Definition appendChar (buffer : string) (character : ascii) : string :=
  buffer +:+ String character EmptyString.

Fixpoint readUntilFalse_loop (fuel : nat) (stream : lexerStream)
  (includeWhitespace breakWhitespace allowEscaping : bool)
  (condition : ascii -> bool) (tokenBuffer : string)
  : outcome (string * bool * lexerStream) :=
  if negb (canRead stream) then Done (tokenBuffer, false, stream)
  else
    match fuel with
    | O => OutOfFuel
    | S fuel =>
        '(character, stream) ← readCharacter stream;
        if allowEscaping && Ascii.eqb character "\" then
          '(character, stream) ← readCharacter stream;
          readUntilFalse_loop fuel stream includeWhitespace breakWhitespace
            allowEscaping condition (appendChar tokenBuffer character)
        else if unicodeIsSpace character && breakWhitespace
                && (0 <? String.length tokenBuffer)%nat
        then Done (tokenBuffer, true, stream)
        else if unicodeIsSpace character && negb includeWhitespace then
          readUntilFalse_loop fuel stream includeWhitespace breakWhitespace
            allowEscaping condition tokenBuffer
        else if condition character then
          readUntilFalse_loop fuel stream includeWhitespace breakWhitespace
            allowEscaping condition (appendChar tokenBuffer character)
        else Done (tokenBuffer, true, rewindLexer 1 stream)
    end.

(** Every iteration reads a character, so the length of the source bounds
    the number of iterations. *)
Definition readUntilFalse (stream : lexerStream)
  (includeWhitespace breakWhitespace allowEscaping : bool)
  (condition : ascii -> bool) : outcome (string * bool * lexerStream) :=
  readUntilFalse_loop (length stream.(source)) stream includeWhitespace
    breakWhitespace allowEscaping condition EmptyString.

Definition readTokenUntilFalse (stream : lexerStream)
  (condition : ascii -> bool) : outcome (string * lexerStream) :=
  '(ret, _, stream) ← readUntilFalse (rewindLexer 1 stream) false true true
                        condition;
  Done (ret, stream).

(** [strconv.ParseUint(s, 16, 64)]: a non-empty run of hexadecimal digits
    whose value fits 64 bits. *)
Definition hexDigitValue (c : ascii) : option N :=
  if charBetween "0" "9" c then Some (N_of_ascii c - 48)%N
  else if charBetween "a" "f" c then Some (N_of_ascii c - 87)%N
  else if charBetween "A" "F" c then Some (N_of_ascii c - 55)%N
  else None.

Fixpoint parseUint16_loop (acc : N) (s : string) : option N :=
  match s with
  | EmptyString => Some acc
  | String c rest =>
      match hexDigitValue c with
      | Some d =>
          let acc := (acc * 16 + d)%N in
          if (acc <? 2 ^ 64)%N then parseUint16_loop acc rest else None
      | None => None
      end
  end.

Definition parseUint16 (s : string) : option N :=
  match s with
  | EmptyString => None
  | _ => parseUint16_loop 0 s
  end.

(** [strings.Split(s, ".")] *)
Fixpoint splitDots_loop (current : string) (s : string) : list string :=
  match s with
  | EmptyString => [current]
  | String c rest =>
      if Ascii.eqb c "." then current :: splitDots_loop EmptyString rest
      else splitDots_loop (appendChar current c) rest
  end.

Definition splitDots (s : string) : list string :=
  splitDots_loop EmptyString s.

(** [strings.Index(s, ".")], with -1 for no occurrence *)
Fixpoint indexDot_loop (i : Z) (s : string) : Z :=
  match s with
  | EmptyString => (-1)%Z
  | String c rest =>
      if Ascii.eqb c "." then i else indexDot_loop (i + 1)%Z rest
  end.

Definition indexDot (s : string) : Z := indexDot_loop 0 s.

Fixpoint lastChar (s : string) : option ascii :=
  match s with
  | EmptyString => None
  | String c EmptyString => Some c
  | String _ rest => lastChar rest
  end.

(** The identifier branch of [readToken], after the lexeme is read. *)
Definition classifyIdentifier
  (functions : gmap string ExpressionFunction) (tokenString : string)
  : outcome tExpressionToken :=
  let tokenValue := VString tokenString in
  let kind := tVARIABLE in
  (* boolean? *)
  let '(kind, tokenValue) :=
    if String.eqb tokenString "true" then (tBOOLEAN, VBool true)
    else if String.eqb tokenString "false" then (tBOOLEAN, VBool false)
    else (kind, tokenValue) in
  (* textual operator? *)
  let '(kind, tokenValue) :=
    match tokenValue with
    | VString s =>
        if String.eqb s "in" || String.eqb s "tIN"
        then (tCOMPARATOR, VString "in")
        else (kind, tokenValue)
    | _ => (kind, tokenValue)
    end in
  (* function? *)
  let '(kind, tokenValue) :=
    match functions !! tokenString with
    | Some function => (tFUNCTION, VFunc function)
    | None => (kind, tokenValue)
    end in
  (* accessor? *)
  let accessorIndex := indexDot tokenString in
  if (0 <? accessorIndex)%Z then
    (* check that it doesn't end with a hanging period *)
    if bool_decide (lastChar tokenString = Some "."%char) then
      Fail ("Hanging accessor on token '" +:+ tokenString +:+ "'")
    else
      let splits := splitDots tokenString in
      (* check that none of them are unexported *)
      match
        List.find
          (fun split =>
             let firstCharacter := getFirstRune split in
             negb (Ascii.eqb (unicodeToUpper firstCharacter) firstCharacter))
          (tail splits)
      with
      | Some split =>
          Fail ("Unable to access unexported field '" +:+ split
                +:+ "' in token '" +:+ tokenString +:+ "'")
      | None => Done (mkToken tACCESSOR (VPath splits))
      end
  else Done (mkToken kind tokenValue).

(** The symbol branch of [readToken], after the lexeme is read. *)
Definition classifySymbol (state : lexerState) (tokenString : string)
  : outcome tExpressionToken :=
  let tokenValue := VString tokenString in
  if canTransitionTo state tPREFIX
     && bool_decide (is_Some (lookupSymbol prefixSymbols tokenString))
  then Done (mkToken tPREFIX tokenValue)
  else if bool_decide (is_Some (lookupSymbol modifierSymbols tokenString))
  then Done (mkToken tMODIFIER tokenValue)
  else if bool_decide (is_Some (lookupSymbol logicalSymbols tokenString))
  then Done (mkToken tLOGICALOP tokenValue)
  else if bool_decide (is_Some (lookupSymbol comparatorSymbols tokenString))
  then Done (mkToken tCOMPARATOR tokenValue)
  else if bool_decide (is_Some (lookupSymbol ternarySymbols tokenString))
  then Done (mkToken tTERNARY tokenValue)
  else Fail ("Invalid token: '" +:+ tokenString +:+ "'").

(** [readToken] returns the token, whether one was found, and the cursor
    after it; the loop of the source only iterates to skip white space. *)
Fixpoint readToken_loop (fuel : nat) (stream : lexerStream)
  (state : lexerState) (functions : gmap string ExpressionFunction)
  : outcome (tExpressionToken * bool * lexerStream) :=
  if negb (canRead stream) then Done (zeroToken, false, stream)
  else
    match fuel with
    | O => OutOfFuel
    | S fuel =>
        '(character, stream) ← readCharacter stream;
        if unicodeIsSpace character then
          readToken_loop fuel stream state functions
        else if isNumeric character then
          (* numeric constant *)
          let decimal (stream : lexerStream) :=
            '(tokenString, stream) ← readTokenUntilFalse stream isNumeric;
            match parseFloat tokenString with
            | Some f => Done (mkToken tNUMERIC (VFloat f), true, stream)
            | None =>
                Fail ("Unable to parse numeric value '" +:+ tokenString
                      +:+ "' to float64
")
            end in
          if canRead stream && Ascii.eqb character "0" then
            '(character, stream) ← readCharacter stream;
            if canRead stream && Ascii.eqb character "x" then
              '(tokenString, _, stream) ←
                readUntilFalse stream false true true isHexDigit;
              match parseUint16 tokenString with
              | Some n =>
                  Done (mkToken tNUMERIC (VFloat (floatOfUint64 n)), true,
                        stream)
              | None =>
                  Fail ("Unable to parse hex value '" +:+ tokenString
                        +:+ "' to uint64
")
              end
            else decimal (rewindLexer 1 stream)
          else decimal stream
        else if Ascii.eqb character "," then
          (* comma, separator *)
          Done (mkToken tSEPARATOR (VString ","), true, stream)
        else if Ascii.eqb character "[" then
          (* escaped variable *)
          '(tokenValue, completed, stream) ←
            readUntilFalse stream true false true isNotClosingBracket;
          if negb completed then Fail "Unclosed parameter bracket"
          else
            Done (mkToken tVARIABLE (VString tokenValue), true,
                  rewindLexer (-1) stream)
        else if unicodeIsLetter character then
          (* regular variable - or function? *)
          '(tokenString, stream) ← readTokenUntilFalse stream isVariableName;
          token ← classifyIdentifier functions tokenString;
          Done (token, true, stream)
        else if negb (isNotQuote character) then
          '(tokenValue, completed, stream) ←
            readUntilFalse stream true false true isNotQuote;
          if negb completed then Fail "Unclosed string literal"
          else
            let stream := rewindLexer (-1) stream in
            match tryParseTime tokenValue with
            | Some tokenTime =>
                Done (mkToken tTIME (VTime tokenTime), true, stream)
            | None => Done (mkToken tSTRING (VString tokenValue), true, stream)
            end
        else if Ascii.eqb character "(" then
          Done (mkToken tCLAUSE (VRune character), true, stream)
        else if Ascii.eqb character ")" then
          Done (mkToken tCLAUSE_CLOSE (VRune character), true, stream)
        else
          (* must be a known symbol *)
          '(tokenString, stream) ←
            readTokenUntilFalse stream isNotAlphanumeric;
          token ← classifySymbol state tokenString;
          Done (token, true, stream)
    end.

Definition readToken (stream : lexerStream) (state : lexerState)
  (functions : gmap string ExpressionFunction)
  : outcome (tExpressionToken * bool * lexerStream) :=
  readToken_loop (length stream.(source)) stream state functions.

Fixpoint parseTokens_loop (fuel : nat) (stream : lexerStream)
  (state : lexerState) (functions : gmap string ExpressionFunction)
  (ret : list tExpressionToken) : outcome (list tExpressionToken) :=
  if negb (canRead stream) then Done ret
  else
    match fuel with
    | O => OutOfFuel
    | S fuel =>
        '(token, found, stream) ← readToken stream state functions;
        if negb found then Done ret
        else
          state ← getLexerStateForToken token.(Kind);
          (* append this valid token *)
          parseTokens_loop fuel stream state functions (ret ++ [token])
    end.

Definition parseTokens (expression : string)
  (functions : gmap string ExpressionFunction)
  : outcome (list tExpressionToken) :=
  let stream := newLexerStream expression in
  ret ← parseTokens_loop (length stream.(source)) stream unknownState
          functions [];
  _ ← checkBalance ret;
  Done ret.

(** ** Parameters ([core/parameters.go]) *)

(** The [tParameters] interface: its one method [tGet]. *)
Definition tParameters : Type := string -> outcome value.

Definition tMapParameters (p : gmap string value) : tParameters :=
  fun name =>
    match p !! name with
    | Some v => Done v
    | None => Fail ("No parameter '" +:+ name +:+ "' found.")
    end.

Definition tDUMMY_PARAMETERS : tParameters := tMapParameters ∅.

(** Modelled from the spec: the sanitizing adapter ([sanitizedParameters],
    whose file is not among the sources) fetches from the wrapped
    environment and normalizes numeric values to double. *)
Definition sanitizedParameters (orig : tParameters) : tParameters :=
  fun name => v ← orig name; Done (castToFloat64 v).

(** ** Stages

    An operator receives the parameter environment as an interface value
    that may be nil (the constant folder passes nil). *)
Definition evaluationOperator : Type :=
  value -> value -> option tParameters -> outcome value.
Definition stageTypeCheck : Type := value -> bool.
Definition stageCombinedTypeCheck : Type := value -> value -> bool.

(** A pointer to a stage is its address in the store. *)
Abbreviation ptr := nat (only parsing).

Record evaluationStage : Type := mkStage {
  symbol : tOperatorSymbol;
  leftStage : option ptr;
  rightStage : option ptr;
  operator : option evaluationOperator;
  leftTypeCheck : option stageTypeCheck;
  rightTypeCheck : option stageTypeCheck;
  typeCheck : option stageCombinedTypeCheck;
  typeErrorFormat : string
}.

(** The store of allocated stages; [&evaluationStage{...}] allocates at
    the next free address. *)
Abbreviation heap := (list evaluationStage) (only parsing).

Definition alloc (stage : evaluationStage) (h : heap) : ptr * heap :=
  (length h, (h ++ [stage])%list).

Definition load (h : heap) (p : ptr) : outcome evaluationStage :=
  match h !! p with
  | Some stage => Done stage
  | None => Panic NilDereference
  end.

Definition setLeftStage (p : ptr) (child : option ptr) (h : heap)
  : outcome heap :=
  stage ← load h p;
  Done (<[p := mkStage stage.(symbol) child stage.(rightStage)
                  stage.(operator) stage.(leftTypeCheck)
                  stage.(rightTypeCheck) stage.(typeCheck)
                  stage.(typeErrorFormat)]> h).

Definition setRightStage (p : ptr) (child : option ptr) (h : heap)
  : outcome heap :=
  stage ← load h p;
  Done (<[p := mkStage stage.(symbol) stage.(leftStage) child
                  stage.(operator) stage.(leftTypeCheck)
                  stage.(rightTypeCheck) stage.(typeCheck)
                  stage.(typeErrorFormat)]> h).

(** Modelled from the spec: [setToNonStage] and [swapWith] (the stage file
    is not among the sources) exchange symbol, operator, type checks and
    error template between two stages and leave the child pointers. *)
Definition setToNonStage (p : ptr) (other : evaluationStage) (h : heap)
  : outcome heap :=
  this ← load h p;
  Done (<[p := mkStage other.(symbol) this.(leftStage) this.(rightStage)
                  other.(operator) other.(leftTypeCheck)
                  other.(rightTypeCheck) other.(typeCheck)
                  other.(typeErrorFormat)]> h).

Definition swapWith (this other : ptr) (h : heap) : outcome heap :=
  temp ← load h other;
  thisStage ← load h this;
  h ← setToNonStage other thisStage h;
  setToNonStage this temp h.

(** Modelled from the spec: the stages the evaluator may cut short
    (section 4.5 of the spec; [isShortCircuitable] is in the stage file). *)
Definition isShortCircuitable (this : evaluationStage) : bool :=
  match this.(symbol) with
  | tAND | tOR | tTERNARY_TRUE | tTERNARY_FALSE | tCOALESCE => true
  | _ => false
  end.

(** *** Type checks *)

Definition isString (v : value) : bool :=
  match v with VString _ => true | _ => false end.
Definition isRegexOrString (v : value) : bool :=
  match v with VString _ | VPattern _ => true | _ => false end.
Definition isBool (v : value) : bool :=
  match v with VBool _ => true | _ => false end.
Definition isFloat64 (v : value) : bool :=
  match v with VFloat _ => true | _ => false end.
Definition isArray (v : value) : bool :=
  match v with VArray _ => true | _ => false end.

(** Modelled from the spec: [PLUS] admits number+number or string+string,
    the ordering comparators admit two numbers or two strings. *)
Definition additionTypeCheck (left right : value) : bool :=
  (isFloat64 left && isFloat64 right) || (isString left && isString right).
Definition comparatorTypeCheck (left right : value) : bool :=
  (isFloat64 left && isFloat64 right) || (isString left && isString right).

Record typeChecks : Type := mkTypeChecks {
  checkLeft : option stageTypeCheck;
  checkRight : option stageTypeCheck;
  checkCombined : option stageCombinedTypeCheck
}.

Definition findTypeChecks (symbol : tOperatorSymbol) : typeChecks :=
  match symbol with
  | tGT | tLT | tGTE | tLTE => mkTypeChecks None None (Some comparatorTypeCheck)
  | tREQ | tNREQ => mkTypeChecks (Some isString) (Some isRegexOrString) None
  | tAND | tOR => mkTypeChecks (Some isBool) (Some isBool) None
  | tIN => mkTypeChecks None (Some isArray) None
  | tBITWISE_LSHIFT | tBITWISE_RSHIFT | tBITWISE_OR | tBITWISE_AND
  | tBITWISE_XOR => mkTypeChecks (Some isFloat64) (Some isFloat64) None
  | tPLUS => mkTypeChecks None None (Some additionTypeCheck)
  | tMINUS | tMULTIPLY | tDIVIDE | tMODULUS | tEXPONENT =>
      mkTypeChecks (Some isFloat64) (Some isFloat64) None
  | tNEGATE => mkTypeChecks None (Some isFloat64) None
  | tINVERT => mkTypeChecks None (Some isBool) None
  | tBITWISE_NOT => mkTypeChecks None (Some isFloat64) None
  | tTERNARY_TRUE => mkTypeChecks (Some isBool) None None
  | _ => mkTypeChecks None None None
  end.

(** *** Operators

    Modelled from the spec: the operator callables of section 4.4 (the
    stage file that defines them is not among the sources).  Each returns
    either a value or an error; a type assertion on an operand of another
    type panics. *)

Fixpoint valueEqb (a b : value) : bool :=
  match a, b with
  | VNil, VNil => true
  | VBool x, VBool y => Bool.eqb x y
  | VFloat x, VFloat y => feqb x y
  | VString x, VString y => String.eqb x y
  | VPattern x, VPattern y => regexpEqb x y
  | VTime x, VTime y => timeEqb x y
  | VPath x, VPath y => bool_decide (x = y)
  | VArray x, VArray y =>
      (fix all2 (x y : list value) : bool :=
         match x, y with
         | [], [] => true
         | a :: x, b :: y => valueEqb a b && all2 x y
         | _, _ => false
         end) x y
  | VRune x, VRune y => Ascii.eqb x y
  | VInt x, VInt y => Z.eqb x y
  | _, _ => false
  end.

Definition floatOp (f : float64 -> float64 -> float64)
  : evaluationOperator :=
  fun left right _ =>
    match left, right with
    | VFloat a, VFloat b => Done (VFloat (f a b))
    | _, _ => Panic TypeAssertion
    end.

Definition addStage : evaluationOperator :=
  fun left right parameters =>
    match left, right with
    | VString a, VString b => Done (VString (a +:+ b))
    | _, _ => floatOp fadd left right parameters
    end.

Definition compareStage (onStrings : string -> string -> bool)
  (onFloats : float64 -> float64 -> bool) : evaluationOperator :=
  fun left right _ =>
    match left, right with
    | VString a, VString b => Done (VBool (onStrings a b))
    | VFloat a, VFloat b => Done (VBool (onFloats a b))
    | _, _ => Panic TypeAssertion
    end.

Definition gtStage : evaluationOperator :=
  compareStage (fun a b => String.ltb b a) (fun a b => fltb b a).
Definition ltStage : evaluationOperator := compareStage String.ltb fltb.
Definition gteStage : evaluationOperator :=
  compareStage (fun a b => String.leb b a) (fun a b => fleb b a).
Definition lteStage : evaluationOperator := compareStage String.leb fleb.

Definition equalStage : evaluationOperator :=
  fun left right _ => Done (VBool (valueEqb left right)).
Definition notEqualStage : evaluationOperator :=
  fun left right _ => Done (VBool (negb (valueEqb left right))).

Definition regexStage : evaluationOperator :=
  fun left right _ =>
    match left with
    | VString subject =>
        match right with
        | VPattern re => Done (VBool (regexpMatch re subject))
        | VString source =>
            match regexpCompile source with
            | inl re => Done (VBool (regexpMatch re subject))
            | inr err =>
                Fail ("Unable to compile regexp pattern '" +:+ source
                      +:+ "': " +:+ err)
            end
        | _ => Panic TypeAssertion
        end
    | _ => Panic TypeAssertion
    end.

Definition notRegexStage : evaluationOperator :=
  fun left right parameters =>
    ret ← regexStage left right parameters;
    match ret with
    | VBool b => Done (VBool (negb b))
    | _ => Panic TypeAssertion
    end.

Definition inStage : evaluationOperator :=
  fun left right _ =>
    match right with
    | VArray elements => Done (VBool (existsb (valueEqb left) elements))
    | _ => Panic TypeAssertion
    end.

Definition andStage : evaluationOperator :=
  fun left right _ =>
    match left with
    | VBool false => Done (VBool false)
    | VBool true =>
        match right with
        | VBool b => Done (VBool b)
        | _ => Panic TypeAssertion
        end
    | _ => Panic TypeAssertion
    end.

Definition orStage : evaluationOperator :=
  fun left right _ =>
    match left with
    | VBool true => Done (VBool true)
    | VBool false =>
        match right with
        | VBool b => Done (VBool b)
        | _ => Panic TypeAssertion
        end
    | _ => Panic TypeAssertion
    end.

Definition negateStage : evaluationOperator :=
  fun _ right _ =>
    match right with
    | VFloat a => Done (VFloat (fneg a))
    | _ => Panic TypeAssertion
    end.

Definition invertStage : evaluationOperator :=
  fun _ right _ =>
    match right with
    | VBool b => Done (VBool (negb b))
    | _ => Panic TypeAssertion
    end.

Definition bitwiseNotStage : evaluationOperator :=
  fun _ right _ =>
    match right with
    | VFloat a => Done (VFloat (fnot a))
    | _ => Panic TypeAssertion
    end.

Definition ternaryIfStage : evaluationOperator :=
  fun left right _ =>
    match left with
    | VBool true => Done right
    | VBool false => Done VNil
    | _ => Panic TypeAssertion
    end.

Definition ternaryElseStage : evaluationOperator :=
  fun left right _ => if isNil left then Done right else Done left.

Definition separatorStage : evaluationOperator :=
  fun left right _ =>
    match left with
    | VArray elements => Done (VArray (elements ++ [right])%list)
    | _ => Done (VArray [left; right])
    end.

Definition noopStageRight : evaluationOperator :=
  fun _ right _ => Done right.

Definition makeLiteralStage (literal : value) : evaluationOperator :=
  fun _ _ _ => Done literal.

Definition makeParameterStage (parameterName : string)
  : evaluationOperator :=
  fun _ _ parameters =>
    match parameters with
    | Some p => p parameterName
    | None => Panic NilDereference
    end.

Definition makeFunctionStage (function : ExpressionFunction)
  : evaluationOperator :=
  fun _ right _ =>
    match right with
    | VNil => callFunction function []
    | VArray arguments => callFunction function arguments
    | _ => callFunction function [right]
    end.

Definition makeAccessorStage (pair : list string) : evaluationOperator :=
  fun _ right parameters =>
    match parameters with
    | None => Panic NilDereference
    | Some p =>
        match pair with
        | [] => Panic IndexOutOfRange
        | first :: rest => v ← p first; accessPath v rest right
        end
    end.

Definition stageSymbolMap (symbol : tOperatorSymbol)
  : option evaluationOperator :=
  match symbol with
  | tEQ => Some equalStage
  | tNEQ => Some notEqualStage
  | tGT => Some gtStage
  | tLT => Some ltStage
  | tGTE => Some gteStage
  | tLTE => Some lteStage
  | tREQ => Some regexStage
  | tNREQ => Some notRegexStage
  | tAND => Some andStage
  | tOR => Some orStage
  | tIN => Some inStage
  | tBITWISE_OR => Some (floatOp for_)
  | tBITWISE_AND => Some (floatOp fand)
  | tBITWISE_XOR => Some (floatOp fxor)
  | tBITWISE_LSHIFT => Some (floatOp fshl)
  | tBITWISE_RSHIFT => Some (floatOp fshr)
  | tPLUS => Some addStage
  | tMINUS => Some (floatOp fsub)
  | tMULTIPLY => Some (floatOp fmul)
  | tDIVIDE => Some (floatOp fdiv)
  | tMODULUS => Some (floatOp fmod)
  | tEXPONENT => Some (floatOp fpow)
  | tNEGATE => Some negateStage
  | tINVERT => Some invertStage
  | tBITWISE_NOT => Some bitwiseNotStage
  | tTERNARY_TRUE => Some ternaryIfStage
  | tTERNARY_FALSE => Some ternaryElseStage
  | tCOALESCE => Some ternaryElseStage
  | tSEPARATE => Some separatorStage
  | _ => None
  end.

(** ** The token stream of the planner ([tokenStream]) *)

Record tokenStream : Type := mkTokenStream {
  tokens : list tExpressionToken;
  index : Z;
  tokenLength : Z
}.

Definition newTokenStream (tokens : list tExpressionToken) : tokenStream :=
  mkTokenStream tokens 0 (Z.of_nat (length tokens)).

Definition rewind (t : tokenStream) : tokenStream :=
  mkTokenStream t.(tokens) (t.(index) - 1) t.(tokenLength).

Definition next (t : tokenStream) : outcome (tExpressionToken * tokenStream) :=
  if (t.(index) <? 0)%Z then Panic IndexOutOfRange
  else
    match t.(tokens) !! Z.to_nat t.(index) with
    | Some token =>
        Done (token, mkTokenStream t.(tokens) (t.(index) + 1) t.(tokenLength))
    | None => Panic IndexOutOfRange
    end.

Definition hasNext (t : tokenStream) : bool :=
  (t.(index) <? t.(tokenLength))%Z.

(** ** The planner

    A [precedent] parses stages from the stream; it advances the stream
    and allocates the stages it builds. *)
Definition precedent : Type :=
  tokenStream -> heap -> outcome (option ptr * tokenStream * heap).

Definition callPrecedent (p : option precedent) : precedent :=
  match p with
  | Some f => f
  | None => fun stream h => Done (None, stream, h)
  end.

(** The body of the loop of [planPrecedenceLevel] returns or breaks in its
    first iteration. *)
Definition planPrecedenceLevel (typeErrorFormat : string)
  (validSymbols : option symbolTable) (validKinds : list tTokenKind)
  (rightPrecedent leftPrecedent : option precedent) : precedent :=
  fun stream h =>
    '(leftStage, stream, h) ← callPrecedent leftPrecedent stream h;
    if hasNext stream then
      '(token, stream) ← next stream;
      let break := Done (leftStage, rewind stream, h) in
      if (0 <? length validKinds)%nat
         && negb (existsb (fun k => bool_decide (k = token.(Kind))) validKinds)
      then break
      else
        let found :=
          match validSymbols with
          | Some table =>
              match token.(Value) with
              | VString lexeme => lookupSymbol table lexeme
              | _ => None
              end
          | None => Some tVALUE
          end in
        match found with
        | None => break
        | Some symbol =>
            '(rightStage, stream, h) ← callPrecedent rightPrecedent stream h;
            let checks := findTypeChecks symbol in
            let '(stage, h) :=
              alloc (mkStage symbol leftStage rightStage
                       (stageSymbolMap symbol) checks.(checkLeft)
                       checks.(checkRight) checks.(checkCombined)
                       typeErrorFormat) h in
            Done (Some stage, stream, h)
        end
    else Done (leftStage, rewind stream, h).

Definition planFunction (planAccessor : precedent) : precedent :=
  fun stream h =>
    '(token, stream) ← next stream;
    if negb (bool_decide (token.(Kind) = tFUNCTION)) then
      planAccessor (rewind stream) h
    else
      '(rightStage, stream, h) ← planAccessor stream h;
      match token.(Value) with
      | VFunc function =>
          let '(stage, h) :=
            alloc (mkStage tFUNCTIONAL None rightStage
                     (Some (makeFunctionStage function)) None None None
                     "Unable to run function '%v': %v") h in
          Done (Some stage, stream, h)
      | _ => Panic TypeAssertion
      end.

Definition planAccessor (planValue planTokens : precedent) : precedent :=
  fun stream h =>
    if negb (hasNext stream) then Done (None, stream, h)
    else
      '(token, stream) ← next stream;
      if negb (bool_decide (token.(Kind) = tACCESSOR)) then
        planValue (rewind stream) h
      else
        (* check if this is meant to be a function or a field. *)
        '(rightStage, stream, h) ←
          (if hasNext stream then
             '(otherToken, stream) ← next stream;
             if bool_decide (otherToken.(Kind) = tCLAUSE) then
               planTokens (rewind stream) h
             else Done (None, rewind stream, h)
           else Done (None, stream, h));
        match token.(Value) with
        | VPath path =>
            let '(stage, h) :=
              alloc (mkStage tACCESS None rightStage
                       (Some (makeAccessorStage path)) None None None
                       "Unable to access parameter field or method '%v': %v")
                h in
            Done (Some stage, stream, h)
        | _ => Panic TypeAssertion
        end.

Definition planValue (planTokens planPrefix : precedent) : precedent :=
  fun stream h =>
    if negb (hasNext stream) then Done (None, stream, h)
    else
      '(token, stream) ← next stream;
      let leaf (symbol : tOperatorSymbol) (operator : evaluationOperator) :=
        let '(stage, h) :=
          alloc (mkStage symbol None None (Some operator) None None None "")
            h in
        Done (Some stage, stream, h) in
      match token.(Kind) with
      | tCLAUSE =>
          '(ret, stream, h) ← planTokens stream h;
          '(_, stream) ← next stream;
          let '(stage, h) :=
            alloc (mkStage tNOOP None ret (Some noopStageRight) None None
                     None "") h in
          Done (Some stage, stream, h)
      | tCLAUSE_CLOSE => Done (None, rewind stream, h)
      | tVARIABLE =>
          match token.(Value) with
          | VString name => leaf tVALUE (makeParameterStage name)
          | _ => Panic TypeAssertion
          end
      | tNUMERIC | tSTRING | tPATTERN | tBOOLEAN =>
          leaf tLITERAL (makeLiteralStage token.(Value))
      | tTIME =>
          match token.(Value) with
          | VTime t => leaf tLITERAL (makeLiteralStage (VFloat (timeUnix t)))
          | _ => Panic TypeAssertion
          end
      | tPREFIX => planPrefix (rewind stream) h
      | _ =>
          Fail ("Unable to plan token kind: '" +:+ tString token.(Kind)
                +:+ "', value: '" +:+ fmtV token.(Value) +:+ "'")
      end.

Definition planTokens (planSeparator : precedent) : precedent :=
  fun stream h =>
    if negb (hasNext stream) then Done (None, stream, h)
    else planSeparator stream h.

(** The planning functions call one another through function values set
    up in [init]; [precedentOf] ties that knot, with a bound on the depth
    of the calls. *)
Inductive planner : Set :=
| PlanSeparator
| PlanTernary
| PlanLogicalOr
| PlanLogicalAnd
| PlanComparator
| PlanBitwise
| PlanShift
| PlanAdditive
| PlanMultiplicative
| PlanExponential
| PlanPrefix
| PlanFunction
| PlanAccessor
| PlanValue
| PlanTokens.

Fixpoint precedentOf (fuel : nat) (which : planner) (stream : tokenStream)
  (h : heap) {struct fuel} : outcome (option ptr * tokenStream * heap) :=
  match fuel with
  | O => OutOfFuel
  | S fuel =>
      let call := precedentOf fuel in
      match which with
      | PlanPrefix =>
          planPrecedenceLevel prefixErrorFormat (Some prefixSymbols)
            [tPREFIX] (Some (call PlanFunction)) None stream h
      | PlanExponential =>
          planPrecedenceLevel modifierErrorFormat (Some exponentialSymbolsS)
            [tMODIFIER] (Some (call PlanExponential))
            (Some (call PlanFunction)) stream h
      | PlanMultiplicative =>
          planPrecedenceLevel modifierErrorFormat
            (Some multiplicativeSymbols) [tMODIFIER]
            (Some (call PlanMultiplicative)) (Some (call PlanExponential))
            stream h
      | PlanAdditive =>
          planPrecedenceLevel modifierErrorFormat (Some additiveSymbols)
            [tMODIFIER] (Some (call PlanAdditive))
            (Some (call PlanMultiplicative)) stream h
      | PlanShift =>
          planPrecedenceLevel modifierErrorFormat (Some bitwiseShiftSymbols)
            [tMODIFIER] (Some (call PlanShift)) (Some (call PlanAdditive))
            stream h
      | PlanBitwise =>
          planPrecedenceLevel modifierErrorFormat (Some bitwiseSymbols)
            [tMODIFIER] (Some (call PlanBitwise)) (Some (call PlanShift))
            stream h
      | PlanComparator =>
          planPrecedenceLevel comparatorErrorFormat (Some comparatorSymbols)
            [tCOMPARATOR] (Some (call PlanComparator))
            (Some (call PlanBitwise)) stream h
      | PlanLogicalAnd =>
          planPrecedenceLevel logicalErrorFormat (Some [("&&", tAND)])
            [tLOGICALOP] (Some (call PlanLogicalAnd))
            (Some (call PlanComparator)) stream h
      | PlanLogicalOr =>
          planPrecedenceLevel logicalErrorFormat (Some [("||", tOR)])
            [tLOGICALOP] (Some (call PlanLogicalOr))
            (Some (call PlanLogicalAnd)) stream h
      | PlanTernary =>
          planPrecedenceLevel ternaryErrorFormat (Some ternarySymbols)
            [tTERNARY] (Some (call PlanTernary)) (Some (call PlanLogicalOr))
            stream h
      | PlanSeparator =>
          planPrecedenceLevel EmptyString (Some separatorSymbols)
            [tSEPARATOR] (Some (call PlanSeparator))
            (Some (call PlanTernary)) stream h
      | PlanFunction => planFunction (call PlanAccessor) stream h
      | PlanAccessor =>
          planAccessor (call PlanValue) (call PlanTokens) stream h
      | PlanValue => planValue (call PlanTokens) (call PlanPrefix) stream h
      | PlanTokens => planTokens (call PlanSeparator) stream h
      end
  end.

(** ** Stage reordering ([reorderStages], [mirrorStageSubtree]) *)

Definition stageAt (stages : list ptr) (i : Z) : outcome ptr :=
  if (i <? 0)%Z then Panic IndexOutOfRange
  else
    match stages !! Z.to_nat i with
    | Some p => Done p
    | None => Panic IndexOutOfRange
    end.

Definition mirrorStageSubtree (stages : list ptr) (h : heap)
  : outcome heap :=
  let stagesLength := Z.of_nat (length stages) in
  (* reverse all right/left *)
  h ← rangeLoop
        (fun i h =>
           frontStage ← stageAt stages (Z.of_nat i);
           front ← load h frontStage;
           let carryStage := front.(rightStage) in
           h ← setRightStage frontStage front.(leftStage) h;
           setLeftStage frontStage carryStage h)
        (seq 0 (length stages)) h;
  (* end left swaps with root right *)
  rootStage ← stageAt stages 0;
  frontStage ← stageAt stages (stagesLength - 1);
  front ← load h frontStage;
  let carryStage := front.(leftStage) in
  root ← load h rootStage;
  h ← setLeftStage frontStage root.(rightStage) h;
  h ← setRightStage rootStage carryStage h;
  (* for all non-root non-end stages, right is swapped with inverse stage
     right in list *)
  h ← rangeLoop
        (fun i h =>
           let i := Z.of_nat i in
           frontStage ← stageAt stages (i + 1);
           inverseStage ← stageAt stages (stagesLength - i - 1);
           front ← load h frontStage;
           let carryStage := front.(rightStage) in
           inverse ← load h inverseStage;
           h ← setRightStage frontStage inverse.(rightStage) h;
           setRightStage inverseStage carryStage h)
        (seq 0 (Z.to_nat (Z.quot (stagesLength - 2) 2 + 1))) h;
  (* swap all other information with inverse stages *)
  rangeLoop
    (fun i h =>
       let i := Z.of_nat i in
       frontStage ← stageAt stages i;
       inverseStage ← stageAt stages (stagesLength - i - 1);
       swapWith frontStage inverseStage h)
    (seq 0 (Z.to_nat (Z.quot stagesLength 2))) h.

Definition mirrorIfRun (identicalPrecedences : list ptr) (h : heap)
  : outcome heap :=
  if (1 <? length identicalPrecedences)%nat
  then mirrorStageSubtree identicalPrecedences h
  else Done h.

(** [reorderStages] and the loop in it; [fuel] bounds the recursion into
    left subtrees together with the walk down the right spine. *)
Fixpoint reorderStages (fuel : nat) (rootStage : option ptr) (h : heap)
  {struct fuel} : outcome heap :=
  match fuel with
  | O => OutOfFuel
  | S fuel =>
      match rootStage with
      | None => Panic NilDereference
      | Some rootPtr =>
          root ← load h rootPtr;
          reorderStages_loop fuel [] rootStage
            (findOperatorPrecedenceForSymbol root.(symbol)) h
      end
  end
with reorderStages_loop (fuel : nat) (identicalPrecedences : list ptr)
  (nextStage : option ptr) (precedence : operatorPrecedence) (h : heap)
  {struct fuel} : outcome heap :=
  match fuel with
  | O => OutOfFuel
  | S fuel =>
      match nextStage with
      | None => mirrorIfRun identicalPrecedences h
      | Some currentStage =>
          current ← load h currentStage;
          let nextStage := current.(rightStage) in
          (* left depth first *)
          h ← match current.(leftStage) with
              | Some leftPtr => reorderStages fuel (Some leftPtr) h
              | None => Done h
              end;
          current ← load h currentStage;
          let currentPrecedence :=
            findOperatorPrecedenceForSymbol current.(symbol) in
          if decide (currentPrecedence = precedence) then
            reorderStages_loop fuel
              (identicalPrecedences ++ [currentStage])%list nextStage
              precedence h
          else
            (* precedence break *)
            h ← mirrorIfRun identicalPrecedences h;
            reorderStages_loop fuel [currentStage] nextStage
              currentPrecedence h
      end
  end.

(** ** Type checking at a stage ([typeCheck]) *)

Definition typeCheckValue (check : option stageTypeCheck) (v : value)
  (symbol : tOperatorSymbol) (format : string) : outcome unit :=
  match check with
  | None => Done ()
  | Some check =>
      if check v then Done ()
      else Fail (sprintfTypeError format v (symbolString symbol))
  end.

(** Calling a function value; a nil function panics. *)
Definition callOperator (op : option evaluationOperator)
  (left right : value) (parameters : option tParameters) : outcome value :=
  match op with
  | Some f => f left right parameters
  | None => Panic NilDereference
  end.

(** ** Constant folding ([elideLiterals], [elideStage]) *)

(** [orKeep m root k]: continue with the result of [m], and on an error
    give up the fold and keep [root]. *)
Definition orKeep {A B : Type} (m : outcome A) (root : B)
  (k : A -> outcome B) : outcome B :=
  match m with
  | Done a => k a
  | Fail _ => Done root
  | Panic p => Panic p
  | OutOfFuel => OutOfFuel
  end.

Definition elideStage (root : ptr) (h : heap) : outcome (ptr * heap) :=
  rootStage ← load h root;
  (* right side must be a non-nil value. Left side must be nil or a
     value. *)
  match rootStage.(rightStage) with
  | None => Done (root, h)
  | Some rightPtr =>
      rightSt ← load h rightPtr;
      if negb (bool_decide (rightSt.(symbol) = tLITERAL)) then Done (root, h)
      else
        match rootStage.(leftStage) with
        | None => Done (root, h)
        | Some leftPtr =>
            leftSt ← load h leftPtr;
            if negb (bool_decide (leftSt.(symbol) = tLITERAL))
            then Done (root, h)
            else
              (* don't elide some operators *)
              match rootStage.(symbol) with
              | tSEPARATE | tIN => Done (root, h)
              | _ =>
                  orKeep (callOperator leftSt.(operator) VNil VNil None)
                    (root, h) (fun leftValue =>
                  orKeep (callOperator rightSt.(operator) VNil VNil None)
                    (root, h) (fun rightValue =>
                  orKeep (typeCheckValue rootStage.(leftTypeCheck) leftValue
                            rootStage.(symbol) rootStage.(typeErrorFormat))
                    (root, h) (fun _ =>
                  orKeep (typeCheckValue rootStage.(rightTypeCheck)
                            rightValue rootStage.(symbol)
                            rootStage.(typeErrorFormat))
                    (root, h) (fun _ =>
                  if match rootStage.(typeCheck) with
                     | Some check => negb (check leftValue rightValue)
                     | None => false
                     end
                  then Done (root, h)
                  else
                    (* pre-calculate, and return a new stage representing
                       the result. *)
                    orKeep (callOperator rootStage.(operator) leftValue
                              rightValue None)
                      (root, h) (fun result =>
                    Done (alloc (mkStage tLITERAL None None
                                   (Some (makeLiteralStage result)) None
                                   None None EmptyString) h))))))
              end
        end
  end.

Fixpoint elideLiterals (fuel : nat) (root : ptr) (h : heap)
  : outcome (ptr * heap) :=
  match fuel with
  | O => OutOfFuel
  | S fuel =>
      rootStage ← load h root;
      h ← match rootStage.(leftStage) with
          | Some leftPtr =>
              '(folded, h) ← elideLiterals fuel leftPtr h;
              setLeftStage root (Some folded) h
          | None => Done h
          end;
      rootStage ← load h root;
      h ← match rootStage.(rightStage) with
          | Some rightPtr =>
              '(folded, h) ← elideLiterals fuel rightPtr h;
              setRightStage root (Some folded) h
          | None => Done h
          end;
      elideStage root h
  end.

(** ** Planning a token list ([planStages]) *)

(** Bounds on the depth of the recursions: fourteen planning functions
    are nested between two tokens, and a walk of the stage tree enters
    each stage at most twice. *)
Definition planFuel (tokens : list tExpressionToken) : nat :=
  16 * (length tokens + 1).
Definition walkFuel (h : heap) : nat := 2 * length h + 2.

Definition planStages (tokens : list tExpressionToken)
  : outcome (option ptr * heap) :=
  let stream := newTokenStream tokens in
  '(stage, _, h) ← precedentOf (planFuel tokens) PlanTokens stream [];
  (* while we're now fully-planned, we now need to re-order
     same-precedence operators. *)
  h ← reorderStages (walkFuel h) stage h;
  match stage with
  | None => Panic NilDereference
  | Some root =>
      '(stage, h) ← elideLiterals (walkFuel h) root h;
      Done (Some stage, h)
  end.

(** ** The evaluator ([evaluateStage]) *)

Definition shortCircuitHolder : value := VInt (-1).

Definition isShortCircuitHolder (v : value) : bool :=
  match v with
  | VInt n => (n =? -1)%Z
  | _ => false
  end.

(** What the short-circuit switch decides once the left value is known:
    return a value at once, or go on with an initial right value. *)
Inductive shortCircuit : Type :=
| ReturnNow (v : value)
| GoOn (right : value).

Definition shortCircuitRule (stage : evaluationStage) (left : value)
  : shortCircuit :=
  if isShortCircuitable stage then
    match stage.(symbol) with
    | tAND =>
        match left with
        | VBool false => ReturnNow (VBool false)
        | _ => GoOn VNil
        end
    | tOR =>
        match left with
        | VBool true => ReturnNow (VBool true)
        | _ => GoOn VNil
        end
    | tCOALESCE => if negb (isNil left) then ReturnNow left else GoOn VNil
    | tTERNARY_TRUE =>
        match left with
        | VBool false => GoOn shortCircuitHolder
        | _ => GoOn VNil
        end
    | tTERNARY_FALSE =>
        if negb (isNil left) then GoOn shortCircuitHolder else GoOn VNil
    | _ => GoOn VNil
    end
  else GoOn VNil.

(** The type checks and the operator call that end [evaluateStage]. *)
Definition checkAndApply (checksTypes : bool) (stage : evaluationStage)
  (left right : value) (parameters : tParameters) : outcome value :=
  _ ← (if checksTypes then
         match stage.(typeCheck) with
         | None =>
             _ ← typeCheckValue stage.(leftTypeCheck) left stage.(symbol)
                   stage.(typeErrorFormat);
             typeCheckValue stage.(rightTypeCheck) right stage.(symbol)
               stage.(typeErrorFormat)
         | Some check =>
             (* special case where the type check needs to know both
                sides *)
             if negb (check left right) then
               Fail (sprintfTypeError stage.(typeErrorFormat) left
                       (symbolString stage.(symbol)))
             else Done ()
         end
       else Done ());
  callOperator stage.(operator) left right (Some parameters).

Fixpoint evaluateStage (fuel : nat) (checksTypes : bool) (h : heap)
  (stage : ptr) (parameters : tParameters) : outcome value :=
  match fuel with
  | O => OutOfFuel
  | S fuel =>
      st ← load h stage;
      left ← match st.(leftStage) with
             | Some leftPtr =>
                 evaluateStage fuel checksTypes h leftPtr parameters
             | None => Done VNil
             end;
      match shortCircuitRule st left with
      | ReturnNow v => Done v
      | GoOn right0 =>
          right ← match st.(rightStage) with
                  | Some rightPtr =>
                      if negb (isShortCircuitHolder right0) then
                        evaluateStage fuel checksTypes h rightPtr parameters
                      else Done right0
                  | None => Done right0
                  end;
          checkAndApply checksTypes st left right parameters
      end
  end.

(** The same evaluator, recording the stages it enters, in order. *)
Fixpoint evaluateStageLog (fuel : nat) (checksTypes : bool) (h : heap)
  (stage : ptr) (parameters : tParameters) : list ptr * outcome value :=
  match fuel with
  | O => ([], OutOfFuel)
  | S fuel =>
      match load h stage with
      | Done st =>
          let '(logLeft, leftOutcome) :=
            match st.(leftStage) with
            | Some leftPtr =>
                evaluateStageLog fuel checksTypes h leftPtr parameters
            | None => ([], Done VNil)
            end in
          match leftOutcome with
          | Done left0 =>
              let left := left0 in
              match shortCircuitRule st left with
              | ReturnNow v => (stage :: logLeft, Done v)
              | GoOn right0 =>
                  let '(logRight, rightOutcome) :=
                    match st.(rightStage) with
                    | Some rightPtr =>
                        if negb (isShortCircuitHolder right0) then
                          evaluateStageLog fuel checksTypes h rightPtr
                            parameters
                        else ([], Done right0)
                    | None => ([], Done right0)
                    end in
                  ((stage :: logLeft ++ logRight)%list,
                   right ← rightOutcome;
                   checkAndApply checksTypes st left right parameters)
              end
          | Fail err => (stage :: logLeft, Fail err)
          | Panic p => (stage :: logLeft, Panic p)
          | OutOfFuel => (stage :: logLeft, OutOfFuel)
          end
      | Fail err => ([stage], Fail err)
      | Panic p => ([stage], Panic p)
      | OutOfFuel => ([stage], OutOfFuel)
      end
  end.

(** ** Expressions ([tEvaluableExpression]) *)

Record tEvaluableExpression : Type := mkExpression {
  QueryDateFormat : string;
  ChecksTypes : bool;
  expressionTokens : list tExpressionToken;
  evaluationStages : option ptr;
  stages : heap;
  inputExpression : string
}.

Definition isoDateFormat : string := "2006-01-02T15:04:05.999999999Z0700".

(** The steps of [tNewEvaluableExpressionWithFunctions] that follow the
    lexer. *)
Definition expressionOfTokens (expression : string)
  (tokens : list tExpressionToken) : outcome tEvaluableExpression :=
  _ ← checkBalance tokens;
  _ ← checkExpressionSyntax tokens;
  tokens ← optimizeTokens tokens;
  '(stage, h) ← planStages tokens;
  Done (mkExpression isoDateFormat true tokens stage h expression).

Definition tNewEvaluableExpressionWithFunctions (expression : string)
  (functions : gmap string ExpressionFunction)
  : outcome tEvaluableExpression :=
  tokens ← parseTokens expression functions;
  expressionOfTokens expression tokens.

Definition TNewEvaluableExpression (expression : string)
  : outcome tEvaluableExpression :=
  tNewEvaluableExpressionWithFunctions expression ∅.

Definition tEval (t : tEvaluableExpression) (parameters : option tParameters)
  : outcome value :=
  match t.(evaluationStages) with
  | None => Done VNil
  | Some root =>
      let parameters :=
        match parameters with
        | Some p => sanitizedParameters p
        | None => tDUMMY_PARAMETERS
        end in
      evaluateStage (walkFuel t.(stages)) t.(ChecksTypes) t.(stages) root
        parameters
  end.

Definition TEvaluate (t : tEvaluableExpression)
  (parameters : option (gmap string value)) : outcome value :=
  match parameters with
  | None => tEval t None
  | Some p => tEval t (Some (tMapParameters p))
  end.

(** ** The entry point ([Eval])

    [Eval] discards the error of [TEvaluate] and looks at the value only;
    a failed evaluation carries the nil value. *)
Definition Eval (expression : string) : outcome value :=
  match TNewEvaluableExpression expression with
  | Done evalExpression =>
      match TEvaluate evalExpression None with
      | Done evaluate =>
          if isNil evaluate then Done (VBool false) else Done evaluate
      | Fail _ => Done (VBool false)
      | Panic p => Panic p
      | OutOfFuel => OutOfFuel
      end
  | Fail _ => Done (VBool false)
  | Panic p => Panic p
  | OutOfFuel => OutOfFuel
  end.

End Engine.

Abbreviation ptr := nat (only parsing).
Abbreviation heap := (list evaluationStage) (only parsing).

(** * A runtime on whole numbers

    An instance of the runtime interface in which the doubles are the
    whole numbers, a regular expression matches the strings equal to its
    source, and no string is a time stamp; the examples run on it. *)

Fixpoint parseDigits (acc : Z) (s : string) : option Z :=
  match s with
  | EmptyString => Some acc
  | String c rest =>
      if unicodeIsDigit c
      then parseDigits (acc * 10 + Z.of_nat (nat_of_ascii c) - 48)%Z rest
      else None
  end.

Definition wholeCarriers : Carriers :=
  {| float64 := Z; Regexp := string; Time := Z; ExpressionFunction := nat |}.

Definition wholeRegexpCompile (source : string) : string + string :=
  if String.eqb source "(" then inr "missing closing )" else inl source.

Section WholeNumbers.

#[local] Existing Instance wholeCarriers.

Definition wholeRuntime : Runtime :=
  {| fmtV := fun v =>
       match v with
       | VString s => s
       | VBool true => "true"
       | VBool false => "false"
       | _ => "?"
       end;
     regexpCompile := wholeRegexpCompile;
     regexpMatch := fun re subject => String.eqb re subject;
     parseFloat := fun s =>
       match s with
       | EmptyString => None
       | _ => parseDigits 0 s
       end;
     floatOfUint64 := Z.of_N;
     tryParseTime := fun _ => None;
     timeUnix := fun t => t;
     fadd := Z.add;
     fsub := Z.sub;
     fmul := Z.mul;
     fdiv := Z.quot;
     fmod := Z.rem;
     fpow := Z.pow;
     fneg := Z.opp;
     feqb := Z.eqb;
     fltb := Z.ltb;
     fleb := Z.leb;
     fand := Z.land;
     for_ := Z.lor;
     fxor := Z.lxor;
     fshl := Z.shiftl;
     fshr := Z.shiftr;
     fnot := Z.lnot;
     regexpEqb := String.eqb;
     timeEqb := Z.eqb;
     callFunction := fun _ _ => Done VNil;
     accessPath := fun _ _ _ => Fail "no such field";
     castToFloat64 := fun v =>
       match v with
       | VInt n => VFloat n
       | _ => v
       end;
     sprintfTypeError := fun format v symbol =>
       format +:+ " " +:+ symbol;
     logicalErrorFormat := "not a bool";
     modifierErrorFormat := "not a number";
     comparatorErrorFormat := "not comparable";
     ternaryErrorFormat := "not a condition";
     prefixErrorFormat := "not an operand" |}.

End WholeNumbers.

(** * The vocabulary of the statements *)

(** ** Stage trees in the store *)

(** The shape of a tree of stages: the address of each stage, and the
    shapes under its left and right child. *)
Inductive stageTree : Set :=
| StageTree (p : nat) (l r : option stageTree).

Definition rootOf (t : stageTree) : nat :=
  match t with StageTree p _ _ => p end.

Fixpoint addressesOf (t : stageTree) : list nat :=
  match t with
  | StageTree p l r =>
      p :: match l with Some l => addressesOf l | None => [] end
        ++ match r with Some r => addressesOf r | None => [] end
  end.

Fixpoint depthOf (t : stageTree) : nat :=
  match t with
  | StageTree _ l r =>
      S (Nat.max match l with Some l => depthOf l | None => 0 end
                 match r with Some r => depthOf r | None => 0 end)
  end.

(** ** The grammar table *)

(** The table has one row per token kind; [stateFor] is that row. *)
Definition stateFor (k : tTokenKind) : lexerState :=
  match getLexerStateForToken k with
  | Done st => st
  | _ => unknownState
  end.

(** A transition is legal when the row of the first kind lists the
    second. *)
Definition legalTransition (from to : tTokenKind) : Prop :=
  exists st, In st validLexerStates /\ st.(kind) = from
             /\ In to st.(validNextKinds).

Definition nonNullableKind (k : tTokenKind) : Prop :=
  exists st, In st validLexerStates /\ st.(kind) = k
             /\ st.(isNullable) = false.

Definition eofKind (k : tTokenKind) : Prop :=
  exists st, In st validLexerStates /\ st.(kind) = k /\ st.(isEOF) = true.

(** Every adjacent pair of [prev :: kinds] is a legal transition. *)
Fixpoint adjacentLegal (prev : tTokenKind) (kinds : list tTokenKind) : Prop :=
  match kinds with
  | [] => True
  | k :: rest => legalTransition prev k /\ adjacentLegal k rest
  end.

Section Vocabulary.

Context {carriers : Carriers} {runtime : Runtime}.

(** A token of a non-nullable kind carries a value. *)
Definition hasValue (token : tExpressionToken) : Prop :=
  nonNullableKind token.(Kind) -> token.(Value) <> VNil.

(** ** The token optimizer, in the words of the spec *)

(** A comparator token whose value is [=~] or [!~]. *)
Definition isRegexComparator (token : tExpressionToken) : bool :=
  bool_decide (token.(Kind) = tCOMPARATOR)
  && match token.(Value) with
     | VString lexeme => String.eqb lexeme "=~" || String.eqb lexeme "!~"
     | _ => false
     end.

(** What becomes of the token that follows a regex comparator: a string
    is compiled into a pattern, anything else stays. *)
Definition compileFollower (token : tExpressionToken)
  : outcome tExpressionToken :=
  if bool_decide (token.(Kind) = tSTRING) then
    match token.(Value) with
    | VString source =>
        match regexpCompile source with
        | inl re => Done (mkToken tPATTERN (VPattern re))
        | inr err => Fail err
        end
    | _ => Done token
    end
  else Done token.

(** The single pass of section 4.3 of the spec: [afterRegex] tells
    whether the previous token was a regex comparator. *)
Fixpoint rewriteFollowers (afterRegex : bool)
  (tokens : list tExpressionToken) : outcome (list tExpressionToken) :=
  match tokens with
  | [] => Done []
  | token :: rest =>
      token' ← (if afterRegex then compileFollower token else Done token);
      rest' ← rewriteFollowers (isRegexComparator token) rest;
      Done (token' :: rest')
  end.

(** The token at index [i] comes right after a regex comparator. *)
Definition followsRegexComparator (tokens : list tExpressionToken)
  (i : nat) : bool :=
  match i with
  | O => false
  | S j =>
      match tokens !! j with
      | Some comparator => isRegexComparator comparator
      | None => false
      end
  end.

(** Comparator and string tokens carry strings, as the lexer emits
    them. *)
Definition stringValued (token : tExpressionToken) : Prop :=
  token.(Kind) = tCOMPARATOR \/ token.(Kind) = tSTRING ->
  exists s, token.(Value) = VString s.

(** ** Compiling and evaluating a token list *)

Definition evaluateTokens (tokens : list tExpressionToken)
  (parameters : option (gmap string value)) : outcome value :=
  e ← expressionOfTokens EmptyString tokens;
  TEvaluate e parameters.

(** The tokens the lexer emits for literals. *)
Definition literalToken (token : tExpressionToken) : Prop :=
  (exists f, token = mkToken tNUMERIC (VFloat f))
  \/ (exists s, token = mkToken tSTRING (VString s))
  \/ (exists b, token = mkToken tBOOLEAN (VBool b))
  \/ (exists t, token = mkToken tTIME (VTime t)).

(** The arithmetic behind the order-sensitive modifiers. *)
Definition floatOperation (symbol : tOperatorSymbol)
  : option (float64 -> float64 -> float64) :=
  match symbol with
  | tMINUS => Some fsub
  | tDIVIDE => Some fdiv
  | tMODULUS => Some fmod
  | tEXPONENT => Some fpow
  | tBITWISE_LSHIFT => Some fshl
  | tBITWISE_RSHIFT => Some fshr
  | _ => None
  end.

(** ** Constant folding *)

(** The store holds the tree [t]: each address holds a stage whose child
    pointers are the roots of the subtrees. *)
Fixpoint represents (h : heap) (t : stageTree) : Prop :=
  match t with
  | StageTree p l r =>
      (exists st, h !! p = Some st
                  /\ st.(leftStage) = option_map rootOf l
                  /\ st.(rightStage) = option_map rootOf r)
      /\ match l with Some l => represents h l | None => True end
      /\ match r with Some r => represents h r | None => True end
  end.

(** The stage the planner and the folder build for a literal. *)
Definition literalStage (v : value) : evaluationStage :=
  mkStage tLITERAL None None (Some (makeLiteralStage v)) None None None
    EmptyString.

(** The stages of an expression without variables, functions or
    accessors: literals, parentheses, and the operators of the symbol
    table with the type checks of their symbol. *)
Definition plannedStage (st : evaluationStage) : Prop :=
  (exists v, st = literalStage v)
  \/ (st.(symbol) = tNOOP /\ st.(operator) = Some noopStageRight
      /\ st.(leftTypeCheck) = None /\ st.(rightTypeCheck) = None
      /\ st.(typeCheck) = None)
  \/ (is_Some (stageSymbolMap st.(symbol))
      /\ st.(operator) = stageSymbolMap st.(symbol)
      /\ st.(leftTypeCheck) = (findTypeChecks st.(symbol)).(checkLeft)
      /\ st.(rightTypeCheck) = (findTypeChecks st.(symbol)).(checkRight)
      /\ st.(typeCheck) = (findTypeChecks st.(symbol)).(checkCombined)).

Definition plannedTree (h : heap) (t : stageTree) : Prop :=
  forall q st, q ∈ addressesOf t -> h !! q = Some st -> plannedStage st.

(** The conditions under which the folder replaces the stage [st] by a
    literal of value [v]: both children exist and are LITERAL stages, the
    symbol is neither SEPARATE nor IN, and the type checks and the
    operator succeed on the values of the children. *)
Definition foldsTo (h : heap) (st : evaluationStage) (v : value) : Prop :=
  exists leftPtr rightPtr leftSt rightSt leftValue rightValue,
    st.(leftStage) = Some leftPtr /\ st.(rightStage) = Some rightPtr
    /\ h !! leftPtr = Some leftSt /\ h !! rightPtr = Some rightSt
    /\ leftSt.(symbol) = tLITERAL /\ rightSt.(symbol) = tLITERAL
    /\ st.(symbol) <> tSEPARATE /\ st.(symbol) <> tIN
    /\ callOperator leftSt.(operator) VNil VNil None = Done leftValue
    /\ callOperator rightSt.(operator) VNil VNil None = Done rightValue
    /\ typeCheckValue st.(leftTypeCheck) leftValue st.(symbol)
         st.(typeErrorFormat) = Done ()
    /\ typeCheckValue st.(rightTypeCheck) rightValue st.(symbol)
         st.(typeErrorFormat) = Done ()
    /\ (forall check, st.(typeCheck) = Some check ->
                      check leftValue rightValue = true)
    /\ callOperator st.(operator) leftValue rightValue None = Done v.

(** The body of [evaluateStage] once the stage is loaded, over the
    outcomes of evaluating its children (none for an absent child). *)
Definition treeStep (checksTypes : bool) (parameters : tParameters)
  (st : evaluationStage) (leftRun rightRun : option (outcome value))
  : outcome value :=
  left ← default (Done VNil) leftRun;
  match shortCircuitRule st left with
  | ReturnNow v => Done v
  | GoOn right0 =>
      right ← match rightRun with
              | Some run =>
                  if negb (isShortCircuitHolder right0) then run
                  else Done right0
              | None => Done right0
              end;
      checkAndApply checksTypes st left right parameters
  end.

(** The value of a tree held by the store. *)
Definition valueOf (checksTypes : bool) (parameters : tParameters)
  (h : heap) (t : stageTree) : outcome value :=
  evaluateStage (S (depthOf t)) checksTypes h (rootOf t) parameters.

(** A stage with its child pointers replaced. *)
Definition withChildren (st : evaluationStage) (l r : option nat)
  : evaluationStage :=
  mkStage st.(symbol) l r st.(operator) st.(leftTypeCheck)
    st.(rightTypeCheck) st.(typeCheck) st.(typeErrorFormat).

(** The addresses, depth and value under an optional child. *)
Definition addressesUnder (o : option stageTree) : list nat :=
  match o with Some t => addressesOf t | None => [] end.

Definition depthUnder (o : option stageTree) : nat :=
  match o with Some t => depthOf t | None => 0 end.

(** The store [h'] holds the tree [t'] in place of the tree [t] of the
    store [h]: a planned tree with the same value, no deeper, built from
    the addresses of [t] and fresh ones, every other address of [h] being
    left alone. *)
Definition foldedInto (h : heap) (t : stageTree) (h' : heap)
  (t' : stageTree) : Prop :=
  represents h' t'
  /\ NoDup (addressesOf t')
  /\ plannedTree h' t'
  /\ depthOf t' <= depthOf t
  /\ (forall q, q ∈ addressesOf t' -> q ∈ addressesOf t \/ length h <= q)
  /\ length h <= length h'
  /\ (forall q, q < length h -> q ∉ addressesOf t -> h' !! q = h !! q)
  /\ (forall checksTypes parameters,
        valueOf checksTypes parameters h' t'
        = valueOf checksTypes parameters h t).

(** ** The planner *)

(** No stage of symbol NOOP in the store has a left child. *)
Definition noopsHaveNoLeft (h : heap) : Prop :=
  forall (p : ptr) (st : evaluationStage),
    h !! p = Some st -> st.(symbol) = tNOOP -> st.(leftStage) = None.

(** A precedent keeps the planner invariant. *)
Definition keepsNoops (f : precedent) : Prop :=
  forall stream h r stream' h',
    noopsHaveNoLeft h -> f stream h = Done (r, stream', h') ->
    noopsHaveNoLeft h'.

(** ** The optimizer, continued *)

(** The last token is not a comparator. *)
Definition endsWithoutComparator (tokens : list tExpressionToken) : Prop :=
  forall token, last tokens = Some token -> token.(Kind) <> tCOMPARATOR.

(** Whether the token at index [i] follows a regex comparator, [flag]
    standing for the state of the pass at index 0. *)
Definition afterRegexAt (flag : bool) (tokens : list tExpressionToken)
  (i : nat) : bool :=
  match i with
  | O => flag
  | S j => followsRegexComparator tokens (S j)
  end.

(** ** Constant folding, continued *)

(** Folding the tree [t], wherever it is held, returns a tree that stands
    for it. *)
Definition foldsSoundly (t : stageTree) : Prop :=
  forall (h : heap) (fuel : nat),
    depthOf t < fuel -> represents h t -> NoDup (addressesOf t) ->
    plannedTree h t ->
    exists t' h',
      elideLiterals fuel (rootOf t) h = Done (rootOf t', h')
      /\ foldedInto h t h' t'.

(** ** From the tokens to a planned tree *)

(** The kinds of the tokens of an expression without variables, functions
    or accessors. *)
Definition constantKind (k : tTokenKind) : Prop :=
  k <> tVARIABLE /\ k <> tFUNCTION /\ k <> tACCESSOR.

Definition constantTokens (tokens : list tExpressionToken) : Prop :=
  Forall (fun token => constantKind token.(Kind)) tokens.

(** The store holds the planned tree [o], if there is one, at addresses
    from [from] on. *)
Definition holdsPlanned (h : heap) (from : nat) (o : option stageTree)
  : Prop :=
  forall t, o = Some t ->
    represents h t /\ NoDup (addressesOf t)
    /\ (forall q, q ∈ addressesOf t -> from <= q)
    /\ plannedTree h t.

(** On constant tokens a precedent leaves the tokens of the stream alone,
    extends the store, and returns the root of a planned tree held by the
    new part of the store. *)
Definition buildsTree (f : precedent) : Prop :=
  forall stream h r stream' h',
    constantTokens stream.(tokens) -> f stream h = Done (r, stream', h') ->
    stream'.(tokens) = stream.(tokens)
    /\ (exists ext, h' = (h ++ ext)%list)
    /\ exists o, r = option_map rootOf o /\ holdsPlanned h' (length h) o.

(** ** Reordering, on trees *)

(** The child pointers and the rest of the stage at an address. *)
Definition leftAt (h : heap) (p : nat) : option nat := h !! p ≫= leftStage.
Definition rightAt (h : heap) (p : nat) : option nat := h !! p ≫= rightStage.

Definition infoOf (st : evaluationStage) : evaluationStage :=
  withChildren st None None.

Definition infoAt (h : heap) (p : nat) : option evaluationStage :=
  infoOf <$> h !! p.

Definition precedenceAt (h : heap) (p : nat) : option operatorPrecedence :=
  (fun st => findOperatorPrecedenceForSymbol st.(symbol)) <$> h !! p.

(** A run of stages down the right spine, each with its left subtree,
    above the tree [rest]. *)
Fixpoint chainTree (run : list (nat * option stageTree))
  (rest : option stageTree) : option stageTree :=
  match run with
  | [] => rest
  | (p, l) :: run => Some (StageTree p l (chainTree run rest))
  end.

(** A run of stages down the left spine, each with its right subtree,
    above the tree [bottom]. *)
Fixpoint leftChain (run : list (nat * option stageTree))
  (bottom : option stageTree) : option stageTree :=
  match run with
  | [] => bottom
  | (p, r) :: run => Some (StageTree p (leftChain run bottom) r)
  end.

(** What [mirrorStageSubtree] does to the stages of [run], as far as the
    shape of the tree goes: the stages point left to what they pointed
    right to, the last one points left to the first one's left child, the
    first one points right to the last one's right child, the other right
    pointers are the other left children in some order, and the symbols,
    operators and type checks are those of the run in some order. *)
Definition mirrored (run : list nat) (h h' : heap) : Prop :=
  length h' = length h
  /\ (forall q, q ∉ run -> h' !! q = h !! q)
  /\ (forall i p, run !! i = Some p -> S i < length run ->
                  leftAt h' p = rightAt h p)
  /\ (forall first final, head run = Some first -> last run = Some final ->
                          leftAt h' final = leftAt h first
                          /\ rightAt h' first = rightAt h final)
  /\ map (rightAt h') (tail run) ≡ₚ map (leftAt h) (tail run)
  /\ map (infoAt h') run ≡ₚ map (infoAt h) run.

(** The store [h'] holds the planned tree [o'] in place of the tree [o]
    of the store [h]: same root, same addresses, and every other address
    left alone. *)
Definition reorderedInto (h : heap) (o : option stageTree) (h' : heap)
  (o' : option stageTree) : Prop :=
  option_map rootOf o' = option_map rootOf o
  /\ (forall t', o' = Some t' -> represents h' t' /\ plannedTree h' t')
  /\ addressesUnder o' ≡ₚ addressesUnder o
  /\ (forall q, q ∉ addressesUnder o -> h' !! q = h !! q)
  /\ length h' = length h.

End Vocabulary.

(** * Example data on the whole-number runtime *)

Section ExampleData.

#[local] Existing Instance wholeCarriers.
#[local] Existing Instance wholeRuntime.

(** The tokens of [x =~ 'a']. *)
Definition regexTokens : list tExpressionToken :=
  [mkToken tVARIABLE (VString "x"); mkToken tCOMPARATOR (VString "=~");
   mkToken tSTRING (VString "a")].

(** A store holding [false && <a stage that is never entered>]: the right
    child of the AND stage is an address outside the store. *)
Definition andStore : heap :=
  [mkStage tLITERAL None None (Some (makeLiteralStage (VBool false))) None
     None None EmptyString;
   mkStage tAND (Some 0) (Some 7) (Some andStage) (Some isBool) (Some isBool)
     None "not a bool"].

(** The tokens of [((1))]. *)
Definition nestedTokens : list tExpressionToken :=
  [mkToken tCLAUSE (VRune "("); mkToken tCLAUSE (VRune "(");
   mkToken tNUMERIC (VFloat 1%Z); mkToken tCLAUSE_CLOSE (VRune ")");
   mkToken tCLAUSE_CLOSE (VRune ")")].

(** The tokens of [(2 + 3) * 4], the store the planner builds for them,
    and the tree that store holds at address 5. *)
Definition productTokens : list tExpressionToken :=
  [mkToken tCLAUSE (VRune "("); mkToken tNUMERIC (VFloat 2%Z);
   mkToken tMODIFIER (VString "+"); mkToken tNUMERIC (VFloat 3%Z);
   mkToken tCLAUSE_CLOSE (VRune ")"); mkToken tMODIFIER (VString "*");
   mkToken tNUMERIC (VFloat 4%Z)].

Definition modifierStage (sym : tOperatorSymbol) (l r : option nat)
  : evaluationStage :=
  mkStage sym l r (stageSymbolMap sym) (findTypeChecks sym).(checkLeft)
    (findTypeChecks sym).(checkRight) (findTypeChecks sym).(checkCombined)
    modifierErrorFormat.

Definition productStore : heap :=
  [literalStage (VFloat 2%Z); literalStage (VFloat 3%Z);
   modifierStage tPLUS (Some 0) (Some 1);
   mkStage tNOOP None (Some 2) (Some noopStageRight) None None None
     EmptyString;
   literalStage (VFloat 4%Z);
   modifierStage tMULTIPLY (Some 3) (Some 4)].

Definition productTree : stageTree :=
  StageTree 5
    (Some (StageTree 3 None
             (Some (StageTree 2 (Some (StageTree 0 None None))
                      (Some (StageTree 1 None None))))))
    (Some (StageTree 4 None None)).

End ExampleData.

(** * Facts *)

(** ** The grammar checker *)

Lemma getLexerStateForToken_total (k : tTokenKind) :
  getLexerStateForToken k = Done (stateFor k) /\ (stateFor k).(kind) = k
  /\ In (stateFor k) validLexerStates.
Proof. destruct k; vm_compute; intuition. Qed.

Lemma stateFor_unique (st : lexerState) :
  In st validLexerStates -> stateFor st.(kind) = st.
Proof.
  unfold validLexerStates. simpl.
  intros Hin. repeat (destruct Hin as [<- | Hin]; [reflexivity |]).
  destruct Hin.
Qed.

Lemma canTransitionTo_loop_In (valid : list tTokenKind) (k : tTokenKind) :
  canTransitionTo_loop valid k = true <-> In k valid.
Proof.
  induction valid as [| v valid IH]; simpl.
  - split; [discriminate | tauto].
  - destruct (decide (v = k)) as [-> | Hne].
    + tauto.
    + rewrite IH. split; [tauto | intros [? | ?]; [congruence | assumption]].
Qed.

Lemma canTransitionTo_legal (from to : tTokenKind) :
  canTransitionTo (stateFor from) to = true <-> legalTransition from to.
Proof.
  unfold canTransitionTo. rewrite canTransitionTo_loop_In.
  destruct (getLexerStateForToken_total from) as (_ & Hk & Hin).
  split.
  - intros H. exists (stateFor from). auto.
  - intros (st & Hst & <- & H). now rewrite (stateFor_unique st Hst).
Qed.

Lemma isNullable_stateFor (k : tTokenKind) :
  (stateFor k).(isNullable) = false <-> nonNullableKind k.
Proof.
  destruct (getLexerStateForToken_total k) as (_ & Hk & Hin).
  split.
  - intros H. exists (stateFor k). auto.
  - intros (st & Hst & <- & H). now rewrite (stateFor_unique st Hst).
Qed.

Lemma isEOF_stateFor (k : tTokenKind) :
  (stateFor k).(isEOF) = true <-> eofKind k.
Proof.
  destruct (getLexerStateForToken_total k) as (_ & Hk & Hin).
  split.
  - intros H. exists (stateFor k). auto.
  - intros (st & Hst & <- & H). now rewrite (stateFor_unique st Hst).
Qed.

Section SyntaxFacts.

Context {carriers : Carriers} {runtime : Runtime}.

Lemma isNil_true (v : value) : isNil v = true <-> v = VNil.
Proof. destruct v; simpl; split; congruence. Qed.

(** One accepted token moves the checker to the row of its kind. *)
Lemma checkExpressionSyntax_loop_cons (prev : tTokenKind)
  (lastToken token : tExpressionToken) (rest : list tExpressionToken) :
  legalTransition prev token.(Kind) -> hasValue token ->
  checkExpressionSyntax_loop (stateFor prev) lastToken (token :: rest)
  = checkExpressionSyntax_loop (stateFor token.(Kind)) token rest.
Proof.
  intros Hlegal Hval. simpl.
  apply canTransitionTo_legal in Hlegal. rewrite Hlegal. simpl.
  destruct (getLexerStateForToken_total token.(Kind)) as (-> & _ & _).
  simpl.
  destruct (isNullable (stateFor (Kind token))) eqn:Hnull; simpl; [reflexivity|].
  destruct (isNil (Value token)) eqn:Hnil; [| reflexivity].
  apply isNil_true in Hnil. apply isNullable_stateFor in Hnull.
  now destruct (Hval Hnull).
Qed.

Lemma last_cons_default {A} (x d : A) (l : list A) :
  List.last (x :: l) d = List.last l x.
Proof.
  revert x d. induction l as [| y l IH]; intros x d; [reflexivity|].
  change (List.last (x :: y :: l) d) with (List.last (y :: l) d).
  now rewrite (IH y d), (IH y x).
Qed.

(** An accepted prefix leaves the checker in the row of its last token. *)
Lemma checkExpressionSyntax_loop_app (pre suffix : list tExpressionToken)
  (lastToken : tExpressionToken) :
  adjacentLegal lastToken.(Kind) (map Kind pre) -> Forall hasValue pre ->
  checkExpressionSyntax_loop (stateFor lastToken.(Kind)) lastToken
    (pre ++ suffix)%list
  = checkExpressionSyntax_loop
      (stateFor (List.last pre lastToken).(Kind)) (List.last pre lastToken)
      suffix.
Proof.
  revert lastToken.
  induction pre as [| token pre IH]; intros lastToken Hadj Hval.
  - reflexivity.
  - destruct Hadj as [Hlegal Hadj]. inversion Hval as [| ? ? Hv Hvs]; subst.
    change ((token :: pre) ++ suffix)%list with (token :: (pre ++ suffix))%list.
    rewrite checkExpressionSyntax_loop_cons by assumption.
    rewrite IH by assumption.
    now rewrite last_cons_default.
Qed.

Lemma loop_rejects (st : lexerState) (lastToken : tExpressionToken)
  (tokens : list tExpressionToken) (st' : lexerState) :
  st = stateFor lastToken.(Kind) ->
  checkExpressionSyntax_loop st lastToken tokens = Done st' ->
  adjacentLegal lastToken.(Kind) (map Kind tokens) /\ Forall hasValue tokens.
Proof.
  revert st lastToken.
  induction tokens as [| token tokens IH]; intros st lastToken -> Hrun.
  - simpl. auto.
  - simpl in Hrun.
    destruct (canTransitionTo (stateFor (Kind lastToken)) (Kind token)) eqn:Hcan;
      simpl in Hrun.
    2:{ destruct (bool_decide (Kind lastToken = tVARIABLE)
                  && bool_decide (Kind token = tCLAUSE)); [| discriminate].
        destruct (Value lastToken); discriminate. }
    destruct (getLexerStateForToken_total token.(Kind)) as (Hget & _ & _).
    rewrite Hget in Hrun. simpl in Hrun.
    destruct (negb (isNullable (stateFor (Kind token))) && isNil (Value token))
      eqn:Hnil; [discriminate|].
    apply IH in Hrun; [| reflexivity]. destruct Hrun as [Hadj Hval].
    split.
    + simpl. split; [now apply canTransitionTo_legal | assumption].
    + constructor; [| assumption].
      intros Hnn Hv. apply isNullable_stateFor in Hnn.
      rewrite Hnn, Hv in Hnil. discriminate.
Qed.

Lemma kind_last (tokens : list tExpressionToken) (d : tExpressionToken) :
  (List.last tokens d).(Kind) = List.last (map Kind tokens) d.(Kind).
Proof.
  revert d. induction tokens as [| t tokens IH]; intros d; [reflexivity|].
  rewrite last_cons_default. simpl map. rewrite last_cons_default. apply IH.
Qed.

(** The run over a whole accepted list. *)
Lemma checkExpressionSyntax_loop_accepted (tokens : list tExpressionToken) :
  adjacentLegal tUNKNOWN (map Kind tokens) -> Forall hasValue tokens ->
  checkExpressionSyntax_loop unknownState zeroToken tokens
  = Done (stateFor (List.last (map Kind tokens) tUNKNOWN)).
Proof.
  intros Hadj Hval.
  pose proof (checkExpressionSyntax_loop_app tokens [] zeroToken Hadj Hval)
    as Happ.
  rewrite app_nil_r in Happ.
  change (stateFor (Kind zeroToken)) with unknownState in Happ.
  rewrite Happ. simpl. now rewrite kind_last.
Qed.

Lemma checkExpressionSyntax_accepts (tokens : list tExpressionToken) :
  checkExpressionSyntax tokens = Done ()
  <-> adjacentLegal tUNKNOWN (map Kind tokens)
      /\ Forall hasValue tokens
      /\ eofKind (List.last (map Kind tokens) tUNKNOWN).
Proof.
  split.
  - unfold checkExpressionSyntax. intros Hok.
    destruct (checkExpressionSyntax_loop unknownState zeroToken tokens)
      as [st | | |] eqn:Hloop; try discriminate.
    simpl in Hok.
    destruct (loop_rejects _ zeroToken tokens st eq_refl Hloop)
      as [Hadj Hval].
    pose proof (checkExpressionSyntax_loop_accepted tokens Hadj Hval) as Hst.
    rewrite Hloop in Hst. injection Hst as ->.
    repeat split; try assumption.
    apply isEOF_stateFor.
    destruct (isEOF (stateFor _)); [reflexivity | discriminate].
  - intros (Hadj & Hval & Heof). unfold checkExpressionSyntax.
    rewrite (checkExpressionSyntax_loop_accepted tokens Hadj Hval). simpl.
    apply isEOF_stateFor in Heof. now rewrite Heof.
Qed.

(** The first illegal transition decides the error. *)
Lemma checkExpressionSyntax_illegal
  (pre rest : list tExpressionToken) (token : tExpressionToken) :
  adjacentLegal tUNKNOWN (map Kind pre) -> Forall hasValue pre ->
  ~ legalTransition (List.last (map Kind pre) tUNKNOWN) token.(Kind) ->
  let lastToken := List.last pre zeroToken in
  checkExpressionSyntax (pre ++ token :: rest)%list
  = if bool_decide (lastToken.(Kind) = tVARIABLE)
       && bool_decide (token.(Kind) = tCLAUSE)
    then
      match lastToken.(Value) with
      | VString name => Fail ("Undefined function " +:+ name)
      | _ => Panic TypeAssertion
      end
    else
      Fail ("Cannot transition token types from "
            +:+ stateName lastToken.(Kind) lastToken.(Value)
            +:+ " to " +:+ stateName token.(Kind) token.(Value)).
Proof.
  intros Hadj Hval Hillegal lastToken.
  unfold checkExpressionSyntax.
  pose proof (checkExpressionSyntax_loop_app pre (token :: rest) zeroToken
                Hadj Hval) as Happ.
  change (stateFor (Kind zeroToken)) with unknownState in Happ.
  rewrite Happ. fold lastToken.
  assert (Hcan : canTransitionTo (stateFor (Kind lastToken)) (Kind token)
                 = false).
  { destruct (canTransitionTo _ _) eqn:Hcan; [| reflexivity].
    apply canTransitionTo_legal in Hcan. exfalso. apply Hillegal.
    unfold lastToken in Hcan. now rewrite kind_last in Hcan. }
  simpl. rewrite Hcan. simpl.
  destruct (bool_decide (Kind lastToken = tVARIABLE)
            && bool_decide (Kind token = tCLAUSE)).
  - now destruct (Value lastToken).
  - destruct (getLexerStateForToken_total lastToken.(Kind)) as (_ & -> & _).
    reflexivity.
Qed.

(** C4. For every token list the grammar checker accepts iff every
    adjacent pair of kinds (from the start state on) is a legal transition
    of the table, every token of a non-nullable kind carries a value, and
    the row of the last token is an end-of-expression row.  At the first
    illegal transition it returns "Cannot transition token types from
    <state> to <kind>", or "Undefined function <name>" when a variable
    token named <name> is followed by a clause token; when only the end
    row is wrong it returns "Unexpected end of expression". *)
Theorem C4_checkExpressionSyntax_accepts_and_rejects
  (tokens : list tExpressionToken) :
  (checkExpressionSyntax tokens = Done ()
   <-> adjacentLegal tUNKNOWN (map Kind tokens)
       /\ Forall hasValue tokens
       /\ eofKind (List.last (map Kind tokens) tUNKNOWN))
  /\ (forall pre token rest,
        tokens = (pre ++ token :: rest)%list ->
        adjacentLegal tUNKNOWN (map Kind pre) -> Forall hasValue pre ->
        ~ legalTransition (List.last (map Kind pre) tUNKNOWN) token.(Kind) ->
        let lastToken := List.last pre zeroToken in
        (forall name,
            lastToken.(Kind) = tVARIABLE -> token.(Kind) = tCLAUSE ->
            lastToken.(Value) = VString name ->
            checkExpressionSyntax tokens
            = Fail ("Undefined function " +:+ name))
        /\ (~ (lastToken.(Kind) = tVARIABLE /\ token.(Kind) = tCLAUSE) ->
            checkExpressionSyntax tokens
            = Fail ("Cannot transition token types from "
                    +:+ (tString lastToken.(Kind) +:+ " ["
                         +:+ fmtV lastToken.(Value) +:+ "]")
                    +:+ " to "
                    +:+ (tString token.(Kind) +:+ " ["
                         +:+ fmtV token.(Value) +:+ "]"))))
  /\ (adjacentLegal tUNKNOWN (map Kind tokens) -> Forall hasValue tokens ->
      ~ eofKind (List.last (map Kind tokens) tUNKNOWN) ->
      checkExpressionSyntax tokens = Fail "Unexpected end of expression").
Proof.
  split; [apply checkExpressionSyntax_accepts | split].
  - intros pre token rest -> Hadj Hval Hillegal lastToken.
    rewrite (checkExpressionSyntax_illegal pre rest token Hadj Hval Hillegal).
    fold lastToken. split.
    + intros name -> -> ->. reflexivity.
    + intros Hnot.
      destruct (bool_decide (Kind lastToken = tVARIABLE)
                && bool_decide (Kind token = tCLAUSE)) eqn:Hb;
        [| reflexivity].
      apply andb_true_iff in Hb. destruct Hb as [H1 H2].
      apply bool_decide_eq_true in H1, H2. tauto.
  - intros Hadj Hval Hneof. unfold checkExpressionSyntax.
    rewrite (checkExpressionSyntax_loop_accepted tokens Hadj Hval). simpl.
    destruct (isEOF (stateFor _)) eqn:Heof; [| reflexivity].
    apply isEOF_stateFor in Heof. contradiction.
Qed.

End SyntaxFacts.

(** ** The token optimizer *)

Section OptimizerFacts.

Context {carriers : Carriers} {runtime : Runtime}.

#[local] Arguments lookupSymbol : simpl never.

Lemma regex_symbol (lexeme : string) :
  negb (bool_decide (default tVALUE (lookupSymbol comparatorSymbols lexeme)
                     = tREQ))
  && negb (bool_decide (default tVALUE (lookupSymbol comparatorSymbols lexeme)
                        = tNREQ))
  = negb (String.eqb lexeme "=~" || String.eqb lexeme "!~").
Proof.
  rewrite (String.eqb_sym lexeme "=~"), (String.eqb_sym lexeme "!~").
  unfold comparatorSymbols, lookupSymbol.
  repeat match goal with
         | |- context [String.eqb ?k lexeme] =>
             destruct (String.eqb_spec k lexeme) as [<- | ?];
             [reflexivity |]
         end.
  reflexivity.
Qed.

Lemma body_at (out rest : list tExpressionToken) (token : tExpressionToken) :
  (out ++ token :: rest)%list !! length out = Some token.
Proof. now rewrite list_lookup_middle. Qed.

Lemma body_next (out rest : list tExpressionToken)
  (token : tExpressionToken) :
  (out ++ token :: rest)%list !! S (length out) = rest !! 0.
Proof.
  rewrite lookup_app_r by lia.
  replace (S (length out) - length out) with 1 by lia. reflexivity.
Qed.

Lemma insert_next (out rest : list tExpressionToken)
  (token next new : tExpressionToken) :
  <[S (length out) := new]> (out ++ token :: next :: rest)%list
  = ((out ++ [token]) ++ new :: rest)%list.
Proof.
  rewrite insert_app_r_alt by lia.
  replace (S (length out) - length out) with 1 by lia.
  now rewrite <- app_assoc.
Qed.

(** One iteration on a token that is not a regex comparator. *)
Lemma body_skip (out rest : list tExpressionToken)
  (token : tExpressionToken) :
  stringValued token -> isRegexComparator token = false ->
  optimizeTokens_body (length out) (out ++ token :: rest)%list
  = Done (out ++ token :: rest)%list.
Proof.
  intros Htyped Hnot. unfold optimizeTokens_body. rewrite body_at.
  unfold isRegexComparator in Hnot.
  destruct (bool_decide (Kind token = tCOMPARATOR)) eqn:Hk; [| reflexivity].
  apply bool_decide_eq_true in Hk.
  destruct Htyped as [lexeme Hv]; [now left |].
  rewrite Hv in *. simpl in *. rewrite regex_symbol, Hnot. reflexivity.
Qed.

(** One iteration on a regex comparator, with the next token in range. *)
Lemma body_regex (out rest : list tExpressionToken)
  (token next : tExpressionToken) :
  stringValued next -> isRegexComparator token = true ->
  optimizeTokens_body (length out) (out ++ token :: next :: rest)%list
  = (next' ← compileFollower next;
     Done ((out ++ [token]) ++ next' :: rest)%list).
Proof.
  intros Htyped Hregex. unfold optimizeTokens_body. rewrite body_at.
  unfold isRegexComparator in Hregex.
  apply andb_true_iff in Hregex. destruct Hregex as [Hk Hv]. rewrite Hk.
  destruct (Value token) as [| | | lexeme | | | | | | |]; try discriminate.
  simpl. rewrite regex_symbol, Hv. simpl.
  rewrite body_next. simpl. unfold compileFollower.
  destruct (bool_decide (Kind next = tSTRING)) eqn:Hs.
  - apply bool_decide_eq_true in Hs.
    destruct Htyped as [source Hsrc]; [now right |]. rewrite Hsrc.
    destruct (regexpCompile source); simpl; [| reflexivity].
    now rewrite insert_next.
  - simpl. now rewrite <- app_assoc.
Qed.

Lemma isRegexComparator_kind (token : tExpressionToken) :
  isRegexComparator token = true -> token.(Kind) = tCOMPARATOR.
Proof.
  unfold isRegexComparator. intros H. apply andb_true_iff in H.
  destruct H as [H _]. now apply bool_decide_eq_true in H.
Qed.

Lemma compileFollower_done (token token' : tExpressionToken) :
  compileFollower token = Done token' ->
  token' = token \/ (token.(Kind) = tSTRING /\ token'.(Kind) = tPATTERN).
Proof.
  unfold compileFollower.
  destruct (bool_decide (Kind token = tSTRING)) eqn:Hs.
  - apply bool_decide_eq_true in Hs.
    destruct (Value token); try (intros [= <-]; now left).
    destruct (regexpCompile s); [| discriminate].
    intros [= <-]. now right.
  - intros [= <-]. now left.
Qed.

(** The index loop over the slice computes the pass of the spec. *)
Lemma optimizeTokens_loop (n : nat) :
  forall rest out : list tExpressionToken,
    length rest = n -> Forall stringValued rest ->
    endsWithoutComparator rest ->
    rangeLoop optimizeTokens_body (seq (length out) n) (out ++ rest)%list
    = (rest' ← rewriteFollowers false rest; Done (out ++ rest')%list).
Proof.
  induction n as [| n IH]; intros rest out Hlen Htyped Hend.
  - destruct rest; [reflexivity | discriminate].
  - destruct rest as [| token rest]; [discriminate |].
    injection Hlen as Hlen.
    inversion Htyped as [| ? ? Htok Hrest]; subst.
    cbn [seq rangeLoop rewriteFollowers].
    assert (Hnext : forall rest',
               length rest' = length rest -> Forall stringValued rest' ->
               endsWithoutComparator rest' ->
               rangeLoop optimizeTokens_body (seq (S (length out)) (length rest))
                 ((out ++ [token]) ++ rest')%list
               = (r ← rewriteFollowers false rest';
                  Done (out ++ token :: r)%list)).
    { intros rest' Hl Ht He.
      replace (S (length out)) with (length (out ++ [token])%list)
        by (rewrite length_app; simpl; lia).
      rewrite (IH rest' (out ++ [token])%list) by assumption.
      destruct (rewriteFollowers false rest'); simpl; try reflexivity.
      now rewrite <- app_assoc. }
    destruct (isRegexComparator token) eqn:Hregex.
    + destruct rest as [| next rest].
      { exfalso. apply (Hend token); [reflexivity |].
        now apply isRegexComparator_kind. }
      inversion Hrest as [| ? ? Hnxt Hrest']; subst.
      rewrite body_regex by assumption.
      cbn [rewriteFollowers].
      destruct (compileFollower next) as [next' | err | p |] eqn:Hc;
        cbn [mbind outcome_bind]; try reflexivity.
      assert (Hnk : isRegexComparator next' = isRegexComparator next
                    /\ stringValued next'
                    /\ (next'.(Kind) = tCOMPARATOR -> next.(Kind) = tCOMPARATOR)).
      { destruct (compileFollower_done _ _ Hc) as [-> | [Hs Hp]].
        - auto.
        - repeat split.
          + unfold isRegexComparator. rewrite Hs, Hp. reflexivity.
          + intros [Hk | Hk]; rewrite Hp in Hk; discriminate.
          + rewrite Hp. discriminate. }
      destruct Hnk as (Hsame & Htyped' & Hkind).
      rewrite (Hnext (next' :: rest)).
      * cbn [rewriteFollowers mbind outcome_bind]. rewrite Hsame.
        destruct (rewriteFollowers (isRegexComparator next) rest);
          reflexivity.
      * reflexivity.
      * now constructor.
      * intros t Hlast. destruct rest as [| r rest].
        -- injection Hlast as <-. intros Hk. apply Hkind in Hk.
           apply (Hend next); [reflexivity | assumption].
        -- apply (Hend t). exact Hlast.
    + rewrite body_skip by assumption. simpl.
      replace (out ++ token :: rest)%list with ((out ++ [token]) ++ rest)%list
        by now rewrite <- app_assoc.
      rewrite Hnext; try assumption; try reflexivity.
      * destruct (rewriteFollowers false rest); reflexivity.
      * intros t Hlast. apply (Hend t).
        destruct rest; [discriminate | exact Hlast].
Qed.

(** A token list accepted by the grammar checker does not end with a
    comparator. *)
Lemma accepted_endsWithoutComparator (tokens : list tExpressionToken) :
  checkExpressionSyntax tokens = Done () -> endsWithoutComparator tokens.
Proof.
  intros Hok token Hlast Hk.
  apply checkExpressionSyntax_accepts in Hok.
  destruct Hok as (_ & _ & Heof).
  assert (Hl : List.last (map Kind tokens) tUNKNOWN = tCOMPARATOR).
  { rewrite <- Hk. clear -Hlast. revert Hlast.
    induction tokens as [| t tokens IH]; [discriminate |].
    intros Hlast. simpl map. rewrite last_cons_default.
    destruct tokens as [| t' tokens].
    - now injection Hlast as ->.
    - simpl map in *. rewrite last_cons_default in IH.
      rewrite last_cons_default. apply IH. exact Hlast. }
  rewrite Hl in Heof. apply isEOF_stateFor in Heof. discriminate.
Qed.

Lemma rewriteFollowers_done (tokens : list tExpressionToken) :
  forall (flag : bool) (tokens' : list tExpressionToken),
    rewriteFollowers flag tokens = Done tokens' ->
    Forall stringValued tokens ->
    length tokens' = length tokens
    /\ forall i token, tokens !! i = Some token ->
         if afterRegexAt flag tokens i
            && bool_decide (token.(Kind) = tSTRING)
         then exists source re,
             token.(Value) = VString source
             /\ regexpCompile source = inl re
             /\ tokens' !! i = Some (mkToken tPATTERN (VPattern re))
         else tokens' !! i = Some token.
Proof.
  induction tokens as [| t tokens IH]; intros flag tokens' Hrun Htyped.
  - injection Hrun as <-. split; [reflexivity | intros i token [=]].
  - inversion Htyped as [| ? ? Ht Hts]; subst.
    cbn [rewriteFollowers] in Hrun.
    destruct (if flag then compileFollower t else Done t)
      as [t' | | |] eqn:Hhead; try discriminate.
    cbn [mbind outcome_bind] in Hrun.
    destruct (rewriteFollowers (isRegexComparator t) tokens)
      as [rest' | | |] eqn:Hrest; try discriminate.
    injection Hrun as <-.
    destruct (IH _ _ Hrest Hts) as [Hlen Hat].
    split; [simpl; now rewrite Hlen |].
    intros [| i] token Hi.
    + injection Hi as ->. cbn [afterRegexAt lookup list_lookup].
      destruct flag; cbn [andb].
      * unfold compileFollower in Hhead.
        destruct (bool_decide (Kind token = tSTRING)) eqn:Hs.
        -- apply bool_decide_eq_true in Hs.
           destruct Ht as [source Hsrc]; [now right |].
           rewrite Hsrc in Hhead.
           destruct (regexpCompile source) as [re |] eqn:Hc; [| discriminate].
           injection Hhead as <-. now exists source, re.
        -- now injection Hhead as <-.
      * now injection Hhead as <-.
    + specialize (Hat i token Hi).
      cbn [afterRegexAt followsRegexComparator] in *.
      change ((t :: tokens) !! S i) with (tokens !! i).
      change ((t' :: rest') !! S i) with (rest' !! i).
      destruct i as [| i]; exact Hat.
Qed.

Lemma rewriteFollowers_fail (tokens : list tExpressionToken) :
  forall (flag : bool) (err : string),
    rewriteFollowers flag tokens = Fail err ->
    exists i source,
      afterRegexAt flag tokens i = true
      /\ tokens !! i = Some (mkToken tSTRING (VString source))
      /\ regexpCompile source = inr err.
Proof.
  induction tokens as [| t tokens IH]; intros flag err Hrun; [discriminate |].
  cbn [rewriteFollowers] in Hrun.
  destruct (if flag then compileFollower t else Done t)
    as [t' | err' | |] eqn:Hhead; try discriminate.
  - cbn [mbind outcome_bind] in Hrun.
    destruct (rewriteFollowers (isRegexComparator t) tokens)
      as [rest' | err' | |] eqn:Hrest; try discriminate.
    injection Hrun as ->.
    destruct (IH _ _ Hrest) as (i & source & Hflag & Hi & Hc).
    exists (S i), source. repeat split; try assumption.
    destruct i; exact Hflag.
  - injection Hrun as ->. destruct flag; [| discriminate].
    unfold compileFollower in Hhead.
    destruct (bool_decide (Kind t = tSTRING)) eqn:Hs; [| discriminate].
    apply bool_decide_eq_true in Hs.
    destruct t as [k v]. simpl in *. subst k.
    destruct v; try discriminate.
    destruct (regexpCompile s) eqn:Hc; [discriminate |].
    injection Hhead as ->. now exists 0, s.
Qed.

Lemma rewriteFollowers_total (tokens : list tExpressionToken) :
  forall flag : bool,
    (exists tokens', rewriteFollowers flag tokens = Done tokens')
    \/ (exists err, rewriteFollowers flag tokens = Fail err).
Proof.
  induction tokens as [| t tokens IH]; intros flag.
  - left. now exists [].
  - cbn [rewriteFollowers].
    assert (Hhead : (exists t', (if flag then compileFollower t else Done t)
                                = Done t')
                    \/ (exists err, (if flag then compileFollower t
                                     else Done t) = Fail err)).
    { destruct flag; [| left; now exists t].
      unfold compileFollower.
      destruct (bool_decide (Kind t = tSTRING)); [| left; now exists t].
      destruct (Value t); try (left; now eexists).
      destruct (regexpCompile s); [left | right]; now eexists. }
    destruct Hhead as [[t' ->] | [err ->]]; [| right; now exists err].
    cbn [mbind outcome_bind].
    destruct (IH (isRegexComparator t)) as [[rest' ->] | [err ->]].
    + left. now eexists.
    + right. now exists err.
Qed.

(** C6. On a token list that passed the grammar checker (its comparator
    and string tokens carrying strings, as lexed), [optimizeTokens] is the
    single pass of the spec: the string tokens right after a [=~] or [!~]
    comparator become pattern tokens holding the compiled expression, every
    other token stays, and a string that fails to compile makes the
    compilation error the result. *)
Theorem C6_optimizeTokens_compiles_regex_followers
  (tokens : list tExpressionToken) :
  checkExpressionSyntax tokens = Done () ->
  Forall stringValued tokens ->
  optimizeTokens tokens = rewriteFollowers false tokens
  /\ (forall tokens',
        optimizeTokens tokens = Done tokens' ->
        length tokens' = length tokens
        /\ forall i token, tokens !! i = Some token ->
             if followsRegexComparator tokens i
                && bool_decide (token.(Kind) = tSTRING)
             then exists source re,
                 token.(Value) = VString source
                 /\ regexpCompile source = inl re
                 /\ tokens' !! i = Some (mkToken tPATTERN (VPattern re))
             else tokens' !! i = Some token)
  /\ (forall err,
        optimizeTokens tokens = Fail err ->
        exists i source,
          followsRegexComparator tokens i = true
          /\ tokens !! i = Some (mkToken tSTRING (VString source))
          /\ regexpCompile source = inr err)
  /\ ((exists i source err,
         followsRegexComparator tokens i = true
         /\ tokens !! i = Some (mkToken tSTRING (VString source))
         /\ regexpCompile source = inr err) ->
      exists err, optimizeTokens tokens = Fail err).
Proof.
  intros Hok Htyped.
  assert (Heq : optimizeTokens tokens = rewriteFollowers false tokens).
  { unfold optimizeTokens.
    pose proof (optimizeTokens_loop (length tokens) tokens [] eq_refl Htyped
                  (accepted_endsWithoutComparator tokens Hok)) as Hloop.
    simpl in Hloop. rewrite Hloop.
    now destruct (rewriteFollowers false tokens). }
  rewrite Heq. split; [reflexivity | split; [| split]].
  - intros tokens' Hrun.
    destruct (rewriteFollowers_done tokens false tokens' Hrun Htyped)
      as [Hlen Hat].
    split; [exact Hlen |].
    intros i token Hi. specialize (Hat i token Hi).
    destruct i; exact Hat.
  - intros err Hrun.
    destruct (rewriteFollowers_fail tokens false err Hrun)
      as (i & source & Hflag & Hi & Hc).
    exists i, source. repeat split; assumption.
  - intros (i & source & err & Hflag & Hi & Hc).
    destruct (rewriteFollowers_total tokens false) as [[tokens' Hrun] | Hfail];
      [| exact Hfail].
    exfalso.
    destruct (rewriteFollowers_done tokens false tokens' Hrun Htyped)
      as [_ Hat].
    specialize (Hat i _ Hi).
    assert (Hflag' : afterRegexAt false tokens i = true)
      by (destruct i; [discriminate | exact Hflag]).
    rewrite Hflag' in Hat. simpl in Hat.
    destruct Hat as (source' & re & [= <-] & Hc' & _). congruence.
Qed.

(** *** Index bounds *)

Lemma optimizeTokens_body_cases (out rest : list tExpressionToken)
  (token : tExpressionToken) :
  (token.(Kind) = tCOMPARATOR -> rest <> []) ->
  let r := optimizeTokens_body (length out) (out ++ token :: rest)%list in
  r = Done (out ++ token :: rest)%list
  \/ (exists next rest2 re,
        rest = next :: rest2
        /\ r = Done ((out ++ [token])
                     ++ mkToken tPATTERN (VPattern re) :: rest2)%list)
  \/ (exists err, r = Fail err)
  \/ r = Panic TypeAssertion.
Proof.
  intros Hnext r. subst r. unfold optimizeTokens_body. rewrite body_at.
  destruct (bool_decide (Kind token = tCOMPARATOR)) eqn:Hk; [| now left].
  apply bool_decide_eq_true in Hk. cbn [negb].
  destruct (Value token); try (right; right; now right).
  destruct (negb _ && negb _); [now left |].
  destruct rest as [| next rest2]; [now destruct (Hnext Hk) |].
  rewrite body_next. cbn [lookup list_lookup].
  destruct (bool_decide (Kind next = tSTRING)); [| now left].
  destruct (Value next); try (right; right; now right).
  destruct (regexpCompile s0) as [re | err].
  - right; left. exists next, rest2, re. split; [reflexivity |].
    now rewrite insert_next.
  - right; right; left. now exists err.
Qed.

Lemma optimizeTokens_loop_in_range (n : nat) :
  forall rest out : list tExpressionToken,
    length rest = n -> endsWithoutComparator rest ->
    rangeLoop optimizeTokens_body (seq (length out) n) (out ++ rest)%list
    <> Panic IndexOutOfRange.
Proof.
  induction n as [| n IH]; intros rest out Hlen Hend.
  - simpl. discriminate.
  - destruct rest as [| token rest]; [discriminate |].
    injection Hlen as Hlen. cbn [seq rangeLoop].
    assert (Hne : token.(Kind) = tCOMPARATOR -> rest <> []).
    { intros Hk ->. now apply (Hend token). }
    assert (Hstep : forall rest',
               length rest' = n -> endsWithoutComparator rest' ->
               rangeLoop optimizeTokens_body (seq (S (length out)) n)
                 ((out ++ [token]) ++ rest')%list
               <> Panic IndexOutOfRange).
    { intros rest' Hl He.
      replace (S (length out)) with (length (out ++ [token])%list)
        by (rewrite length_app; simpl; lia).
      now apply IH. }
    destruct (optimizeTokens_body_cases out rest token Hne)
      as [-> | [(next & rest2 & re & -> & ->) | [[err ->] | ->]]];
      cbn [mbind outcome_bind]; try discriminate.
    + replace (out ++ token :: rest)%list
        with ((out ++ [token]) ++ rest)%list by now rewrite <- app_assoc.
      apply Hstep; [assumption |].
      intros t Hlast. apply (Hend t).
      destruct rest; [discriminate | exact Hlast].
    + apply Hstep; [exact Hlen |].
      intros t Hlast. destruct rest2 as [| r rest2].
      * injection Hlast as <-. discriminate.
      * apply (Hend t). exact Hlast.
Qed.

(** C10. On a token list that passed the grammar checker, the element
    read by [optimizeTokens] after it steps past a regex comparator is
    inside the slice: the pass does not panic with an index out of range. *)
Theorem C10_optimizeTokens_index_in_range
  (tokens : list tExpressionToken) :
  checkExpressionSyntax tokens = Done () ->
  optimizeTokens tokens <> Panic IndexOutOfRange.
Proof.
  intros Hok. unfold optimizeTokens.
  apply (optimizeTokens_loop_in_range (length tokens) tokens [] eq_refl).
  now apply accepted_endsWithoutComparator.
Qed.

End OptimizerFacts.

(** ** The evaluator *)

Section EvaluatorFacts.

Context {carriers : Carriers} {runtime : Runtime}.

(** The logging evaluator computes what [evaluateStage] computes. *)
Lemma evaluateStageLog_outcome (fuel : nat) :
  forall (checksTypes : bool) (h : heap) (stage : ptr)
         (parameters : tParameters),
    snd (evaluateStageLog fuel checksTypes h stage parameters)
    = evaluateStage fuel checksTypes h stage parameters.
Proof.
  induction fuel as [| fuel IH]; intros checksTypes h stage parameters.
  - reflexivity.
  - cbn [evaluateStageLog evaluateStage].
    destruct (load h stage) as [st | | |]; try reflexivity.
    cbn [mbind outcome_bind].
    assert (Hleft :
      snd (match leftStage st with
           | Some leftPtr =>
               evaluateStageLog fuel checksTypes h leftPtr parameters
           | None => ([], Done VNil)
           end)
      = match leftStage st with
        | Some leftPtr => evaluateStage fuel checksTypes h leftPtr parameters
        | None => Done VNil
        end).
    { destruct (leftStage st); [apply IH | reflexivity]. }
    destruct (match leftStage st with
              | Some leftPtr =>
                  evaluateStageLog fuel checksTypes h leftPtr parameters
              | None => ([], Done VNil)
              end) as [logLeft leftOutcome].
    simpl in Hleft. rewrite <- Hleft.
    destruct leftOutcome as [left0 | | |]; try reflexivity.
    cbn [mbind outcome_bind].
    destruct (shortCircuitRule st left0) as [v | right0]; [reflexivity |].
    assert (Hright :
      snd (match rightStage st with
           | Some rightPtr =>
               if negb (isShortCircuitHolder right0)
               then evaluateStageLog fuel checksTypes h rightPtr parameters
               else ([], Done right0)
           | None => ([], Done right0)
           end)
      = match rightStage st with
        | Some rightPtr =>
            if negb (isShortCircuitHolder right0)
            then evaluateStage fuel checksTypes h rightPtr parameters
            else Done right0
        | None => Done right0
        end).
    { destruct (rightStage st); [| reflexivity].
      destruct (negb (isShortCircuitHolder right0)); [apply IH | reflexivity]. }
    destruct (match rightStage st with
              | Some rightPtr =>
                  if negb (isShortCircuitHolder right0)
                  then evaluateStageLog fuel checksTypes h rightPtr parameters
                  else ([], Done right0)
              | None => ([], Done right0)
              end) as [logRight rightOutcome].
    simpl in Hright. rewrite <- Hright. reflexivity.
Qed.

(** The log of a stage starts with the stage and the log of its left
    child. *)
Lemma evaluateStageLog_left_first (fuel : nat) (checksTypes : bool)
  (h : heap) (stage : ptr) (st : evaluationStage) (parameters : tParameters)
  (logLeft : list ptr) (leftOutcome : outcome value) :
  h !! stage = Some st ->
  match st.(leftStage) with
  | Some leftPtr => evaluateStageLog fuel checksTypes h leftPtr parameters
  | None => ([], Done VNil)
  end = (logLeft, leftOutcome) ->
  exists logRest,
    fst (evaluateStageLog (S fuel) checksTypes h stage parameters)
    = (stage :: logLeft ++ logRest)%list.
Proof.
  intros Hst Hleft. cbn [evaluateStageLog]. unfold load. rewrite Hst, Hleft.
  destruct leftOutcome as [left0 | | |];
    try (exists []; now rewrite app_nil_r).
  destruct (shortCircuitRule st left0) as [v | right0];
    [exists []; now rewrite app_nil_r |].
  destruct (match rightStage st with
            | Some rightPtr =>
                if negb (isShortCircuitHolder right0)
                then evaluateStageLog fuel checksTypes h rightPtr parameters
                else ([], Done right0)
            | None => ([], Done right0)
            end) as [logRight rightOutcome].
  now exists logRight.
Qed.

(** What the evaluator does once a short-circuit rule has decided. *)
Lemma evaluateStageLog_rule (fuel : nat) (checksTypes : bool)
  (h : heap) (stage : ptr) (st : evaluationStage) (parameters : tParameters)
  (logLeft : list ptr) (left0 : value) :
  h !! stage = Some st ->
  match st.(leftStage) with
  | Some leftPtr => evaluateStageLog fuel checksTypes h leftPtr parameters
  | None => ([], Done VNil)
  end = (logLeft, Done left0) ->
  (forall v, shortCircuitRule st left0 = ReturnNow v ->
             evaluateStageLog (S fuel) checksTypes h stage parameters
             = (stage :: logLeft, Done v))
  /\ (shortCircuitRule st left0 = GoOn shortCircuitHolder ->
      evaluateStageLog (S fuel) checksTypes h stage parameters
      = (stage :: logLeft,
         checkAndApply checksTypes st left0 shortCircuitHolder parameters)).
Proof.
  intros Hst Hleft. split.
  - intros v Hrule. cbn [evaluateStageLog]. unfold load.
    now rewrite Hst, Hleft, Hrule.
  - intros Hrule. cbn [evaluateStageLog]. unfold load.
    rewrite Hst, Hleft, Hrule. cbn.
    destruct (rightStage st); now rewrite app_nil_r.
Qed.

(** C3. [evaluateStage] evaluates the left child first and applies the
    short-circuit rules before it touches the right child.  With the left
    value known: an AND stage with left false returns false, an OR stage
    with left true returns true, a COALESCE stage with a non-nil left
    returns left, and the stages entered are the stage itself and those of
    the left child only; for TERNARY_TRUE with left false and TERNARY_FALSE
    with a non-nil left the right operand is the short-circuit marker and
    the right child is not entered either.  A failing left child ends the
    evaluation. *)
Theorem C3_short_circuit_before_right_child (fuel : nat)
  (checksTypes : bool) (h : heap) (stage : ptr) (st : evaluationStage)
  (parameters : tParameters) (logLeft : list ptr)
  (leftOutcome : outcome value) :
  h !! stage = Some st ->
  match st.(leftStage) with
  | Some leftPtr => evaluateStageLog fuel checksTypes h leftPtr parameters
  | None => ([], Done VNil)
  end = (logLeft, leftOutcome) ->
  let run := evaluateStageLog (S fuel) checksTypes h stage parameters in
  snd run = evaluateStage (S fuel) checksTypes h stage parameters
  /\ (exists logRest, fst run = (stage :: logLeft ++ logRest)%list)
  /\ (forall left0, leftOutcome = Done left0 ->
      (st.(symbol) = tAND -> left0 = VBool false ->
       run = (stage :: logLeft, Done (VBool false)))
      /\ (st.(symbol) = tOR -> left0 = VBool true ->
          run = (stage :: logLeft, Done (VBool true)))
      /\ (st.(symbol) = tCOALESCE -> left0 <> VNil ->
          run = (stage :: logLeft, Done left0))
      /\ (st.(symbol) = tTERNARY_TRUE -> left0 = VBool false ->
          run = (stage :: logLeft,
                 checkAndApply checksTypes st left0 shortCircuitHolder
                   parameters))
      /\ (st.(symbol) = tTERNARY_FALSE -> left0 <> VNil ->
          run = (stage :: logLeft,
                 checkAndApply checksTypes st left0 shortCircuitHolder
                   parameters)))
  /\ ((forall left0, leftOutcome <> Done left0) ->
      run = (stage :: logLeft, leftOutcome)).
Proof.
  intros Hst Hleft run.
  split; [apply evaluateStageLog_outcome | split].
  { eapply evaluateStageLog_left_first; eassumption. }
  split.
  - intros left0 ->.
    destruct (evaluateStageLog_rule fuel checksTypes h stage st parameters
                logLeft left0 Hst Hleft) as [Hnow Hholder].
    assert (Hnil : left0 <> VNil -> negb (isNil left0) = true).
    { intros Hne. destruct left0; try reflexivity. congruence. }
    repeat split.
    + intros Hsym ->. apply Hnow.
      unfold shortCircuitRule, isShortCircuitable. now rewrite Hsym.
    + intros Hsym ->. apply Hnow.
      unfold shortCircuitRule, isShortCircuitable. now rewrite Hsym.
    + intros Hsym Hne. apply Hnow.
      unfold shortCircuitRule, isShortCircuitable.
      now rewrite Hsym, (Hnil Hne).
    + intros Hsym ->. apply Hholder.
      unfold shortCircuitRule, isShortCircuitable. now rewrite Hsym.
    + intros Hsym Hne. apply Hholder.
      unfold shortCircuitRule, isShortCircuitable.
      now rewrite Hsym, (Hnil Hne).
  - intros Hfail. subst run. cbn [evaluateStageLog]. unfold load.
    rewrite Hst, Hleft.
    destruct leftOutcome as [left0 | | |]; try reflexivity.
    now destruct (Hfail left0).
Qed.

End EvaluatorFacts.

(** ** The lexer on identifiers *)

Section LexerFacts.

Context {carriers : Carriers} {runtime : Runtime}.

(** C8. The lexeme [tIN] is read as the comparator [in]: the lexer
    compares the lexeme with "in" and with "tIN", so [in] is not the only
    identifier that becomes the comparator. *)
Theorem C8_tIN_is_read_as_the_comparator (state : lexerState) :
  readToken (newLexerStream "tIN") state ∅
  = Done (mkToken tCOMPARATOR (VString "in"), true,
          mkLexerStream (list_ascii_of_string "tIN") 3).
Proof. reflexivity. Qed.

(** C7. The dotted lexeme [a._b] is read as an accessor: the check for
    unexported segments compares the first character with its upper-case
    form, which a character without case passes. *)
Theorem C7_underscore_segment_is_accepted (state : lexerState) :
  readToken (newLexerStream "a._b") state ∅
  = Done (mkToken tACCESSOR (VPath ["a"; "_b"]), true,
          mkLexerStream (list_ascii_of_string "a._b") 4).
Proof. reflexivity. Qed.

End LexerFacts.

(** ** The entry point *)

Section EvalFacts.

Context {carriers : Carriers} {runtime : Runtime}.

(** C5, as the code has it.  [Eval] returns false when compilation fails,
    when the evaluation fails, and when the evaluation yields nil; in
    every other case it returns the evaluated result unchanged. *)
Theorem C5_Eval_false_on_error_or_nil (expression : string) :
  (forall err,
      TNewEvaluableExpression expression = Fail err ->
      Eval expression = Done (VBool false))
  /\ (forall e,
        TNewEvaluableExpression expression = Done e ->
        (forall err, TEvaluate e None = Fail err ->
                     Eval expression = Done (VBool false))
        /\ (TEvaluate e None = Done VNil ->
            Eval expression = Done (VBool false))
        /\ (forall v, TEvaluate e None = Done v -> v <> VNil ->
                      Eval expression = Done v)).
Proof.
  unfold Eval. split.
  - now intros err ->.
  - intros e ->. repeat split.
    + now intros err ->.
    + now intros ->.
    + intros v -> Hv. destruct v; try reflexivity. congruence.
Qed.

(** The empty parentheses compile, and evaluate to nil, on every
    runtime. *)
Lemma empty_parentheses_evaluate_to_nil :
  exists e,
    TNewEvaluableExpression "()" = Done e
    /\ TEvaluate e None = Done VNil
    /\ Eval "()" = Done (VBool false).
Proof. eexists. repeat split; vm_compute; reflexivity. Qed.

End EvalFacts.

(** ** The planner *)

Section PlannerFacts.

Context {carriers : Carriers} {runtime : Runtime}.

Lemma lookupSymbol_In (table : symbolTable) (lexeme : string)
  (s : tOperatorSymbol) :
  lookupSymbol table lexeme = Some s -> In s (map snd table).
Proof.
  induction table as [| [key symbol] table IH]; simpl; [discriminate |].
  destruct (String.eqb key lexeme); [intros [= ->]; now left |].
  intros Hl. right. now apply IH.
Qed.

Lemma noopsHaveNoLeft_alloc (h : heap) (st : evaluationStage) :
  noopsHaveNoLeft h ->
  (st.(symbol) = tNOOP -> st.(leftStage) = None) ->
  noopsHaveNoLeft (snd (alloc st h)).
Proof.
  intros Hh Hst p st' Hp. unfold alloc in Hp. cbn [snd] in Hp.
  destruct (decide (p < length h)) as [Hlt | Hge].
  - rewrite lookup_app_l in Hp by assumption. now apply (Hh p).
  - rewrite lookup_app_r in Hp by lia.
    destruct (p - length h) as [| k]; [| destruct k; discriminate].
    now injection Hp as <-.
Qed.

Lemma keepsNoops_callPrecedent (p : option precedent) :
  (forall f, p = Some f -> keepsNoops f) -> keepsNoops (callPrecedent p).
Proof.
  intros Hp. destruct p as [f |]; [now apply Hp |].
  intros stream h r stream' h' Hh [= <- <- <-]. exact Hh.
Qed.

Lemma keepsNoops_planPrecedenceLevel (typeErrorFormat : string)
  (table : symbolTable) (validKinds : list tTokenKind)
  (rightPrecedent leftPrecedent : option precedent) :
  ~ In tNOOP (map snd table) ->
  (forall f, leftPrecedent = Some f -> keepsNoops f) ->
  (forall f, rightPrecedent = Some f -> keepsNoops f) ->
  keepsNoops (planPrecedenceLevel typeErrorFormat (Some table) validKinds
                rightPrecedent leftPrecedent).
Proof.
  intros Htable Hleft Hright stream h r stream' h' Hh Hrun.
  unfold planPrecedenceLevel in Hrun.
  destruct (callPrecedent leftPrecedent stream h)
    as [[[leftStage stream1] h1] | | |] eqn:Hl; try discriminate.
  cbn [mbind outcome_bind] in Hrun.
  assert (Hh1 : noopsHaveNoLeft h1).
  { exact (keepsNoops_callPrecedent leftPrecedent Hleft _ _ _ _ _ Hh Hl). }
  destruct (hasNext stream1); [| now injection Hrun as <- <- <-].
  destruct (next stream1) as [[token stream2] | | |]; try discriminate.
  cbn [mbind outcome_bind] in Hrun.
  destruct (_ && _); [now injection Hrun as <- <- <- |].
  destruct (match Value token with
            | VString lexeme => lookupSymbol table lexeme
            | _ => None
            end) as [sym |] eqn:Hsym;
    [| now injection Hrun as <- <- <-].
  destruct (callPrecedent rightPrecedent stream2 h1)
    as [[[rightStage stream3] h3] | | |] eqn:Hr; try discriminate.
  cbn [mbind outcome_bind] in Hrun.
  assert (Hh3 : noopsHaveNoLeft h3).
  { exact (keepsNoops_callPrecedent rightPrecedent Hright _ _ _ _ _ Hh1 Hr). }
  injection Hrun as <- <- <-.
  apply (noopsHaveNoLeft_alloc h3); [assumption |].
  cbn [symbol]. intros ->. exfalso. apply Htable.
  destruct (Value token); try discriminate.
  eapply lookupSymbol_In. eassumption.
Qed.

Lemma keepsNoops_planFunction (planAccessor : precedent) :
  keepsNoops planAccessor -> keepsNoops (planFunction planAccessor).
Proof.
  intros Hacc stream h r stream' h' Hh Hrun. unfold planFunction in Hrun.
  destruct (next stream) as [[token stream1] | | |]; try discriminate.
  cbn [mbind outcome_bind] in Hrun.
  destruct (negb _); [now apply (Hacc _ _ _ _ _ Hh Hrun) |].
  destruct (planAccessor stream1 h) as [[[rightStage stream2] h2] | | |]
    eqn:Hr; try discriminate.
  cbn [mbind outcome_bind] in Hrun.
  destruct (Value token); try discriminate.
  injection Hrun as <- <- <-.
  apply (noopsHaveNoLeft_alloc h2); [| discriminate].
  now apply (Hacc _ _ _ _ _ Hh Hr).
Qed.

Lemma keepsNoops_planAccessor (planValue planTokens : precedent) :
  keepsNoops planValue -> keepsNoops planTokens ->
  keepsNoops (planAccessor planValue planTokens).
Proof.
  intros Hval Htok stream h r stream' h' Hh Hrun.
  unfold planAccessor in Hrun.
  destruct (negb (hasNext stream)); [now injection Hrun as <- <- <- |].
  destruct (next stream) as [[token stream1] | | |]; try discriminate.
  cbn [mbind outcome_bind] in Hrun.
  destruct (negb _); [now apply (Hval _ _ _ _ _ Hh Hrun) |].
  match type of Hrun with
  | (?m ≫= _) = _ => destruct m as [[[rightStage stream2] h2] | | |] eqn:Hr
  end; try discriminate.
  cbn [mbind outcome_bind] in Hrun.
  assert (Hh2 : noopsHaveNoLeft h2).
  { destruct (hasNext stream1); [| now injection Hr as <- <- <-].
    destruct (next stream1) as [[otherToken stream3] | | |];
      try discriminate.
    cbn [mbind outcome_bind] in Hr.
    destruct (bool_decide _); [now apply (Htok _ _ _ _ _ Hh Hr) |].
    now injection Hr as <- <- <-. }
  destruct (Value token); try discriminate.
  injection Hrun as <- <- <-.
  apply (noopsHaveNoLeft_alloc h2); [assumption | discriminate].
Qed.

Lemma keepsNoops_planValue (planTokens planPrefix : precedent) :
  keepsNoops planTokens -> keepsNoops planPrefix ->
  keepsNoops (planValue planTokens planPrefix).
Proof.
  intros Htok Hpre stream h r stream' h' Hh Hrun.
  unfold planValue in Hrun.
  destruct (negb (hasNext stream)); [now injection Hrun as <- <- <- |].
  destruct (next stream) as [[token stream1] | | |]; try discriminate.
  cbn [mbind outcome_bind] in Hrun.
  destruct (Kind token); try discriminate;
    try (injection Hrun as <- <- <-;
         apply (noopsHaveNoLeft_alloc h); [assumption | discriminate]);
    try (destruct (Value token); try discriminate;
         injection Hrun as <- <- <-;
         apply (noopsHaveNoLeft_alloc h); [assumption | discriminate]).
  - now apply (Hpre _ _ _ _ _ Hh Hrun).
  - destruct (planTokens stream1 h) as [[[ret stream2] h2] | | |] eqn:Hr;
      try discriminate.
    cbn [mbind outcome_bind] in Hrun.
    destruct (next stream2) as [[closing stream3] | | |]; try discriminate.
    cbn [mbind outcome_bind] in Hrun.
    injection Hrun as <- <- <-.
    apply (noopsHaveNoLeft_alloc h2); [| reflexivity].
    now apply (Htok _ _ _ _ _ Hh Hr).
  - now injection Hrun as <- <- <-.
Qed.

Lemma keepsNoops_planTokens (planSeparator : precedent) :
  keepsNoops planSeparator -> keepsNoops (planTokens planSeparator).
Proof.
  intros Hsep stream h r stream' h' Hh Hrun. unfold planTokens in Hrun.
  destruct (negb (hasNext stream)); [now injection Hrun as <- <- <- |].
  now apply (Hsep _ _ _ _ _ Hh Hrun).
Qed.

(** Every planning function keeps the invariant, at every depth. *)
Lemma keepsNoops_precedentOf (fuel : nat) :
  forall which : planner, keepsNoops (precedentOf fuel which).
Proof.
  induction fuel as [| fuel IH]; intros which.
  - intros stream h r stream' h' _ [=].
  - assert (Hsome : forall (p : planner) (f : precedent),
               Some (precedentOf fuel p) = Some f -> keepsNoops f).
    { intros p f [= <-]. apply IH. }
    assert (Hnone : forall f : precedent, None = Some f -> keepsNoops f)
      by (intros f [=]).
    intros stream h r stream' h'. revert stream h r stream' h'.
    change (keepsNoops (precedentOf (S fuel) which)).
    destruct which; cbn [precedentOf];
      try (apply keepsNoops_planPrecedenceLevel;
           [simpl; intuition discriminate | eauto | eauto]).
    + apply keepsNoops_planFunction, IH.
    + apply keepsNoops_planAccessor; apply IH.
    + apply keepsNoops_planValue; apply IH.
    + apply keepsNoops_planTokens, IH.
Qed.

(** C9, as the code has it.  In the stages built by the planner, before
    they are reordered, no NOOP stage has a left child; a NOOP stage is
    built for a clause token, with the stage planned for the tokens of
    the clause as its right child. *)
Theorem C9_planned_noop_has_only_a_right_child
  (fuel : nat) (tokens : list tExpressionToken) (root : option ptr)
  (stream : tokenStream) (h : heap) :
  precedentOf fuel PlanTokens (newTokenStream tokens) [] = Done (root, stream, h) ->
  (forall (p : ptr) (st : evaluationStage),
      h !! p = Some st -> st.(symbol) = tNOOP -> st.(leftStage) = None)
  /\ (forall (planTokens planPrefix : precedent) (s0 s1 s2 s3 : tokenStream)
             (h0 h1 : heap) (clause closing : tExpressionToken)
             (ret : option ptr),
        hasNext s0 = true -> next s0 = Done (clause, s1) ->
        clause.(Kind) = tCLAUSE ->
        planTokens s1 h0 = Done (ret, s2, h1) ->
        next s2 = Done (closing, s3) ->
        planValue planTokens planPrefix s0 h0
        = Done (Some (length h1), s3,
                (h1 ++ [mkStage tNOOP None ret (Some noopStageRight) None
                          None None EmptyString])%list)).
Proof.
  intros Hrun. split.
  - apply (keepsNoops_precedentOf fuel PlanTokens _ _ _ _ _) in Hrun;
      [exact Hrun |].
    intros p st [=].
  - intros planTokens planPrefix s0 s1 s2 s3 h0 h1 clause closing ret
      Hnext Hclause Hkind Hplan Hclose.
    unfold planValue. rewrite Hnext, Hclause. cbn [negb mbind outcome_bind].
    rewrite Hkind, Hplan. cbn [mbind outcome_bind]. rewrite Hclose.
    reflexivity.
Qed.

End PlannerFacts.

(** ** Chains of one operator *)

Section ChainFacts.

Context {carriers : Carriers} {runtime : Runtime}.

Ltac split_literal H :=
  destruct H as [[? ->] | [[? ->] | [[? ->] | [? ->]]]].

(** C1. For literal operands a, b, c and op one of -, /, %, **, <<, >>,
    the tokens of [a op b op c] compile and evaluate to what the tokens of
    [(a op b) op c] compile and evaluate to; on numbers that is
    (a op b) op c, the leftmost operator being applied first. *)
Theorem C1_chain_evaluates_left_to_right
  (a b c : tExpressionToken) (op : string)
  (parameters : option (gmap string value)) :
  literalToken a -> literalToken b -> literalToken c ->
  In op ["-"; "/"; "%"; "**"; "<<"; ">>"] ->
  let m := mkToken tMODIFIER (VString op) in
  evaluateTokens [a; m; b; m; c] parameters
  = evaluateTokens
      [mkToken tCLAUSE (VRune "("); a; m; b;
       mkToken tCLAUSE_CLOSE (VRune ")"); m; c] parameters
  /\ (forall (x y z : float64) (symbol : tOperatorSymbol)
             (f : float64 -> float64 -> float64),
        a = mkToken tNUMERIC (VFloat x) ->
        b = mkToken tNUMERIC (VFloat y) ->
        c = mkToken tNUMERIC (VFloat z) ->
        lookupSymbol modifierSymbols op = Some symbol ->
        floatOperation symbol = Some f ->
        evaluateTokens [a; m; b; m; c] parameters
        = Done (VFloat (f (f x y) z))).
Proof.
  intros Ha Hb Hc Hop m. subst m. split.
  - split_literal Ha; split_literal Hb; split_literal Hc;
      simpl in Hop;
      repeat (destruct Hop as [<- | Hop];
              [destruct parameters; vm_compute; reflexivity |]);
      destruct Hop.
  - intros x y z symbol f -> -> -> Hsym Hf.
    simpl in Hop.
    repeat (destruct Hop as [<- | Hop];
            [injection Hsym as <-; injection Hf as <-;
             destruct parameters; vm_compute; reflexivity |]);
    destruct Hop.
Qed.

End ChainFacts.

(** ** Constant folding *)

Lemma stageTree_children_ind (P : stageTree -> Prop) :
  (forall p l r,
      (forall t, l = Some t -> P t) -> (forall t, r = Some t -> P t) ->
      P (StageTree p l r)) ->
  forall t, P t.
Proof.
  intros Hnode t.
  assert (Hall : forall n t, depthOf t <= n -> P t).
  { induction n as [| n IH]; intros [p l r] Hd; simpl in Hd; [lia |].
    apply Hnode; intros c ->; apply IH; lia. }
  now apply (Hall (depthOf t)).
Qed.

Lemma elem_of_addressesOf_node (q p : nat) (l r : option stageTree) :
  q ∈ addressesOf (StageTree p l r)
  <-> q = p
      \/ (exists t, l = Some t /\ q ∈ addressesOf t)
      \/ (exists t, r = Some t /\ q ∈ addressesOf t).
Proof.
  cbn [addressesOf]. rewrite elem_of_cons, elem_of_app.
  destruct l as [tl |], r as [tr |]; split;
    intros [? | [? | ?]]; eauto;
    repeat match goal with
           | H : exists _, _ /\ _ |- _ => destruct H as (? & [= <-] & ?)
           | H : exists _, None = Some _ /\ _ |- _ => destruct H as (? & [=] & _)
           | H : _ ∈ [] |- _ => now apply not_elem_of_nil in H
           end; eauto.
Qed.

Lemma NoDup_addressesOf_node (p : nat) (l r : option stageTree) :
  NoDup (addressesOf (StageTree p l r)) ->
  (forall t, l = Some t -> (p ∉ addressesOf t) /\ NoDup (addressesOf t))
  /\ (forall t, r = Some t -> (p ∉ addressesOf t) /\ NoDup (addressesOf t))
  /\ (forall tl tr q, l = Some tl -> r = Some tr ->
                      q ∈ addressesOf tl -> q ∉ addressesOf tr).
Proof.
  cbn [addressesOf]. rewrite NoDup_cons, NoDup_app, not_elem_of_app.
  intros ((Hpl & Hpr) & Hl & Hdisj & Hr).
  split; [| split].
  - intros c ->. now split.
  - intros c ->. now split.
  - intros tl tr q -> ->. apply Hdisj.
Qed.

Lemma depthOf_le_addresses (t : stageTree) :
  depthOf t <= length (addressesOf t).
Proof.
  induction t as [p l r IHl IHr] using stageTree_children_ind.
  cbn [depthOf addressesOf length]. rewrite length_app.
  destruct l as [tl |], r as [tr |]; cbn [length];
    try specialize (IHl _ eq_refl); try specialize (IHr _ eq_refl); lia.
Qed.

Section FolderFacts.

Context {carriers : Carriers} {runtime : Runtime}.

(** *** Evaluating a tree held by the store *)

Lemma evaluateStage_unfold (fuel : nat) (checksTypes : bool) (h : heap)
  (p : nat) (parameters : tParameters) :
  evaluateStage (S fuel) checksTypes h p parameters
  = (st ← load h p;
     treeStep checksTypes parameters st
       (option_map (fun q => evaluateStage fuel checksTypes h q parameters)
          st.(leftStage))
       (option_map (fun q => evaluateStage fuel checksTypes h q parameters)
          st.(rightStage))).
Proof.
  cbn [evaluateStage]. destruct (load h p) as [st | | |]; try reflexivity.
  cbn [mbind outcome_bind]. unfold treeStep.
  destruct (leftStage st), (rightStage st); reflexivity.
Qed.

Lemma treeStep_withChildren (checksTypes : bool) (parameters : tParameters)
  (st : evaluationStage) (l r : option nat)
  (leftRun rightRun : option (outcome value)) :
  treeStep checksTypes parameters (withChildren st l r) leftRun rightRun
  = treeStep checksTypes parameters st leftRun rightRun.
Proof. reflexivity. Qed.

Lemma represents_lt (h : heap) (t : stageTree) :
  represents h t -> forall q, q ∈ addressesOf t -> q < length h.
Proof.
  induction t as [p l r IHl IHr] using stageTree_children_ind.
  intros ((st & Hp & _ & _) & Hl & Hr) q Hq.
  apply elem_of_addressesOf_node in Hq.
  destruct Hq as [-> | [(t & -> & Hq) | (t & -> & Hq)]].
  - now apply lookup_lt_Some in Hp.
  - now apply (IHl t eq_refl).
  - now apply (IHr t eq_refl).
Qed.

(** Two stores that agree on the addresses of a tree hold the same
    tree, with the same value. *)
Lemma represents_frame (h h' : heap) (t : stageTree) :
  represents h t ->
  (forall q, q ∈ addressesOf t -> h' !! q = h !! q) ->
  represents h' t.
Proof.
  induction t as [p l r IHl IHr] using stageTree_children_ind.
  intros ((st & Hp & Hsl & Hsr) & Hl & Hr) Hagree.
  cbn [represents]. split; [| split].
  - exists st. rewrite Hagree; [auto |].
    apply elem_of_addressesOf_node. now left.
  - destruct l as [tl |]; [| exact I].
    apply (IHl tl eq_refl Hl). intros q Hq. apply Hagree.
    apply elem_of_addressesOf_node. right; left. eauto.
  - destruct r as [tr |]; [| exact I].
    apply (IHr tr eq_refl Hr). intros q Hq. apply Hagree.
    apply elem_of_addressesOf_node. right; right. eauto.
Qed.

Lemma evaluateStage_frame (checksTypes : bool) (parameters : tParameters)
  (h h' : heap) (t : stageTree) :
  represents h t ->
  (forall q, q ∈ addressesOf t -> h' !! q = h !! q) ->
  forall fuel,
    evaluateStage fuel checksTypes h' (rootOf t) parameters
    = evaluateStage fuel checksTypes h (rootOf t) parameters.
Proof.
  induction t as [p l r IHl IHr] using stageTree_children_ind.
  intros ((st & Hp & Hsl & Hsr) & Hl & Hr) Hagree [| fuel]; [reflexivity |].
  rewrite !evaluateStage_unfold. cbn [rootOf]. unfold load.
  rewrite Hagree, Hp by (apply elem_of_addressesOf_node; now left).
  cbn [mbind outcome_bind]. rewrite Hsl, Hsr.
  f_equal.
  - destruct l as [tl |]; [| reflexivity]. cbn [option_map]. f_equal.
    apply (IHl tl eq_refl Hl). intros q Hq. apply Hagree.
    apply elem_of_addressesOf_node. right; left. eauto.
  - destruct r as [tr |]; [| reflexivity]. cbn [option_map]. f_equal.
    apply (IHr tr eq_refl Hr). intros q Hq. apply Hagree.
    apply elem_of_addressesOf_node. right; right. eauto.
Qed.

(** Fuel beyond the depth of the tree does not change the outcome. *)
Lemma evaluateStage_stable (checksTypes : bool) (parameters : tParameters)
  (h : heap) (t : stageTree) :
  represents h t ->
  forall fuel, depthOf t < fuel ->
    evaluateStage fuel checksTypes h (rootOf t) parameters
    = valueOf checksTypes parameters h t.
Proof.
  unfold valueOf.
  induction t as [p l r IHl IHr] using stageTree_children_ind.
  intros ((st & Hp & Hsl & Hsr) & Hl & Hr) [| fuel] Hfuel; [lia |].
  rewrite !evaluateStage_unfold. cbn [rootOf]. unfold load. rewrite Hp.
  cbn [mbind outcome_bind]. rewrite Hsl, Hsr.
  cbn [depthOf] in Hfuel |- *.
  f_equal.
  - destruct l as [tl |]; [| reflexivity]. cbn [option_map]. f_equal.
    rewrite (IHl tl eq_refl Hl fuel) by lia.
    symmetry. apply (IHl tl eq_refl Hl). lia.
  - destruct r as [tr |]; [| reflexivity]. cbn [option_map]. f_equal.
    rewrite (IHr tr eq_refl Hr fuel) by lia.
    symmetry. apply (IHr tr eq_refl Hr). lia.
Qed.

Lemma valueOf_frame (checksTypes : bool) (parameters : tParameters)
  (h h' : heap) (t : stageTree) :
  represents h t ->
  (forall q, q ∈ addressesOf t -> h' !! q = h !! q) ->
  valueOf checksTypes parameters h' t = valueOf checksTypes parameters h t.
Proof. intros Hr Hagree. now apply evaluateStage_frame. Qed.

(** The value of a tree, from the values of its subtrees. *)
Lemma valueOf_node (checksTypes : bool) (parameters : tParameters)
  (h : heap) (p : nat) (l r : option stageTree) (st : evaluationStage) :
  represents h (StageTree p l r) -> h !! p = Some st ->
  valueOf checksTypes parameters h (StageTree p l r)
  = treeStep checksTypes parameters st
      (option_map (valueOf checksTypes parameters h) l)
      (option_map (valueOf checksTypes parameters h) r).
Proof.
  intros ((st' & Hp & Hsl & Hsr) & Hl & Hr) Hst.
  rewrite Hst in Hp. injection Hp as <-.
  unfold valueOf at 1. rewrite evaluateStage_unfold. cbn [rootOf].
  unfold load. rewrite Hst. cbn [mbind outcome_bind]. rewrite Hsl, Hsr.
  cbn [depthOf]. f_equal.
  - destruct l as [tl |]; [| reflexivity]. cbn [option_map]. f_equal.
    apply evaluateStage_stable; [assumption | lia].
  - destruct r as [tr |]; [| reflexivity]. cbn [option_map]. f_equal.
    apply evaluateStage_stable; [assumption | lia].
Qed.

(** *** One folding step *)

Lemma typeCheckValue_cases (check : option stageTypeCheck) (v : value)
  (symbol : tOperatorSymbol) (format : string) :
  typeCheckValue check v symbol format = Done ()
  \/ exists err, typeCheckValue check v symbol format = Fail err.
Proof.
  unfold typeCheckValue. destruct check as [c |]; [| now left].
  destruct (c v); [now left | right; now eexists].
Qed.

(** The folder replaces a stage that meets the conditions. *)
Lemma elideStage_folds (h : heap) (root : nat) (st : evaluationStage)
  (v : value) :
  h !! root = Some st -> foldsTo h st v ->
  elideStage root h = Done (length h, (h ++ [literalStage v])%list).
Proof.
  intros Hst (lp & rp & ls & rs & lv & rv & Hl & Hr & Hls & Hrs & Hlsym
              & Hrsym & Hsep & Hin & Hlv & Hrv & Hcl & Hcr & Hcc & Hop).
  unfold elideStage, load. rewrite Hst. cbn [mbind outcome_bind].
  rewrite Hr, Hrs. cbn [mbind outcome_bind]. rewrite Hrsym.
  rewrite Hl, Hls. cbn [mbind outcome_bind]. rewrite Hlsym.
  cbn [bool_decide negb].
  rewrite bool_decide_eq_true_2 by reflexivity. cbn [negb].
  assert (Hfold :
    orKeep (callOperator (operator ls) VNil VNil None) (root, h)
      (fun leftValue =>
       orKeep (callOperator (operator rs) VNil VNil None) (root, h)
         (fun rightValue =>
          orKeep (typeCheckValue (leftTypeCheck st) leftValue (symbol st)
                    (typeErrorFormat st)) (root, h)
            (fun _ =>
             orKeep (typeCheckValue (rightTypeCheck st) rightValue
                       (symbol st) (typeErrorFormat st)) (root, h)
               (fun _ =>
                if match typeCheck st with
                   | Some check => negb (check leftValue rightValue)
                   | None => false
                   end
                then Done (root, h)
                else
                  orKeep (callOperator (operator st) leftValue rightValue
                            None) (root, h)
                    (fun result =>
                     Done (alloc (mkStage tLITERAL None None
                                    (Some (makeLiteralStage result)) None
                                    None None EmptyString) h))))))
    = Done (length h, (h ++ [literalStage v])%list)).
  { rewrite Hlv. cbn [orKeep]. rewrite Hrv. cbn [orKeep].
    rewrite Hcl. cbn [orKeep]. rewrite Hcr. cbn [orKeep].
    destruct (typeCheck st) as [check |].
    - rewrite (Hcc check eq_refl). cbn [negb]. now rewrite Hop.
    - now rewrite Hop. }
  destruct (symbol st); try exact Hfold; congruence.
Qed.

(** Whatever the folder returns, the stage is kept or the conditions
    hold and the stage is replaced by the literal. *)
Lemma elideStage_done (h h' : heap) (root root' : nat)
  (st : evaluationStage) :
  h !! root = Some st -> elideStage root h = Done (root', h') ->
  (root' = root /\ h' = h)
  \/ exists v, foldsTo h st v /\ root' = length h
               /\ h' = (h ++ [literalStage v])%list.
Proof.
  intros Hst. unfold elideStage, load. rewrite Hst.
  cbn [mbind outcome_bind].
  destruct (rightStage st) as [rp |] eqn:Hr;
    [| intros [= <- <-]; now left].
  destruct (h !! rp) as [rs |] eqn:Hrs; [| discriminate].
  cbn [mbind outcome_bind].
  destruct (bool_decide (symbol rs = tLITERAL)) eqn:Hrsym;
    [| intros [= <- <-]; now left].
  apply bool_decide_eq_true in Hrsym. cbn [negb].
  destruct (leftStage st) as [lp |] eqn:Hl;
    [| intros [= <- <-]; now left].
  destruct (h !! lp) as [ls |] eqn:Hls; [| discriminate].
  cbn [mbind outcome_bind].
  destruct (bool_decide (symbol ls = tLITERAL)) eqn:Hlsym;
    [| intros [= <- <-]; now left].
  apply bool_decide_eq_true in Hlsym. cbn [negb].
  assert (Hfold :
    orKeep (callOperator (operator ls) VNil VNil None) (root, h)
      (fun leftValue =>
       orKeep (callOperator (operator rs) VNil VNil None) (root, h)
         (fun rightValue =>
          orKeep (typeCheckValue (leftTypeCheck st) leftValue (symbol st)
                    (typeErrorFormat st)) (root, h)
            (fun _ =>
             orKeep (typeCheckValue (rightTypeCheck st) rightValue
                       (symbol st) (typeErrorFormat st)) (root, h)
               (fun _ =>
                if match typeCheck st with
                   | Some check => negb (check leftValue rightValue)
                   | None => false
                   end
                then Done (root, h)
                else
                  orKeep (callOperator (operator st) leftValue rightValue
                            None) (root, h)
                    (fun result =>
                     Done (alloc (mkStage tLITERAL None None
                                    (Some (makeLiteralStage result)) None
                                    None None EmptyString) h))))))
    = Done (root', h') ->
    symbol st <> tSEPARATE -> symbol st <> tIN ->
    (root' = root /\ h' = h)
    \/ exists v, foldsTo h st v /\ root' = length h
                 /\ h' = (h ++ [literalStage v])%list).
  { intros Hrun Hsep Hin.
    destruct (callOperator (operator ls) VNil VNil None)
      as [lv | | |] eqn:Hlv; cbn [orKeep] in Hrun; try discriminate;
      [| injection Hrun as <- <-; now left].
    destruct (callOperator (operator rs) VNil VNil None)
      as [rv | | |] eqn:Hrv; cbn [orKeep] in Hrun; try discriminate;
      [| injection Hrun as <- <-; now left].
    destruct (typeCheckValue (leftTypeCheck st) lv (symbol st)
                (typeErrorFormat st)) as [[] | | |] eqn:Hcl;
      cbn [orKeep] in Hrun; try discriminate;
      [| injection Hrun as <- <-; now left].
    destruct (typeCheckValue (rightTypeCheck st) rv (symbol st)
                (typeErrorFormat st)) as [[] | | |] eqn:Hcr;
      cbn [orKeep] in Hrun; try discriminate;
      [| injection Hrun as <- <-; now left].
    destruct (match typeCheck st with
              | Some check => negb (check lv rv)
              | None => false
              end) eqn:Hcc; [injection Hrun as <- <-; now left |].
    destruct (callOperator (operator st) lv rv None) as [v | | |] eqn:Hop;
      cbn [orKeep] in Hrun; try discriminate;
      [| injection Hrun as <- <-; now left].
    injection Hrun as <- <-. right. exists v.
    split; [| split; reflexivity].
    exists lp, rp, ls, rs, lv, rv. repeat split; try assumption.
    intros check Hcheck. rewrite Hcheck in Hcc.
    now destruct (check lv rv). }
  destruct (symbol st) eqn:Hsym;
    try (intros Hrun; apply Hfold; [exact Hrun | discriminate ..]);
    intros [= <- <-]; now left.
Qed.

(** The folder never turns an error into its result. *)
Lemma elideStage_never_fails (h : heap) (root : nat) (err : string) :
  elideStage root h <> Fail err.
Proof.
  unfold elideStage, load.
  destruct (h !! root) as [st |]; [| discriminate].
  cbn [mbind outcome_bind].
  destruct (rightStage st) as [rp |]; [| discriminate].
  destruct (h !! rp) as [rs |]; [| discriminate].
  cbn [mbind outcome_bind].
  destruct (negb _); [discriminate |].
  destruct (leftStage st) as [lp |]; [| discriminate].
  destruct (h !! lp) as [ls |]; [| discriminate].
  cbn [mbind outcome_bind].
  destruct (negb _); [discriminate |].
  assert (Hfold : forall m : outcome value,
             orKeep m (root, h)
               (fun leftValue =>
                orKeep (callOperator (operator rs) VNil VNil None) (root, h)
                  (fun rightValue =>
                   orKeep (typeCheckValue (leftTypeCheck st) leftValue
                             (symbol st) (typeErrorFormat st)) (root, h)
                     (fun _ =>
                      orKeep (typeCheckValue (rightTypeCheck st) rightValue
                                (symbol st) (typeErrorFormat st)) (root, h)
                        (fun _ =>
                         if match typeCheck st with
                            | Some check =>
                                negb (check leftValue rightValue)
                            | None => false
                            end
                         then Done (root, h)
                         else
                           orKeep (callOperator (operator st) leftValue
                                     rightValue None) (root, h)
                             (fun result =>
                              Done (alloc (mkStage tLITERAL None None
                                             (Some (makeLiteralStage result))
                                             None None None EmptyString)
                                      h))))))
             <> Fail err).
  { intros [lv | | |]; cbn [orKeep]; try discriminate.
    destruct (callOperator (operator rs) VNil VNil None) as [rv | | |];
      cbn [orKeep]; try discriminate.
    destruct (typeCheckValue (leftTypeCheck st) lv _ _) as [[] | | |];
      cbn [orKeep]; try discriminate.
    destruct (typeCheckValue (rightTypeCheck st) rv _ _) as [[] | | |];
      cbn [orKeep]; try discriminate.
    destruct (match typeCheck st with
              | Some check => negb (check lv rv)
              | None => false
              end); [discriminate |].
    destruct (callOperator (operator st) lv rv None); cbn [orKeep];
      discriminate. }
  destruct (symbol st); try apply Hfold; discriminate.
Qed.

(** *** The value of a folded stage *)

Lemma checkAndApply_pass (checksTypes : bool) (st : evaluationStage)
  (lv rv : value) (parameters : tParameters) :
  typeCheckValue st.(leftTypeCheck) lv st.(symbol) st.(typeErrorFormat)
  = Done () ->
  typeCheckValue st.(rightTypeCheck) rv st.(symbol) st.(typeErrorFormat)
  = Done () ->
  (forall check, st.(typeCheck) = Some check -> check lv rv = true) ->
  checkAndApply checksTypes st lv rv parameters
  = callOperator st.(operator) lv rv (Some parameters).
Proof.
  intros Hl Hr Hc. unfold checkAndApply. destruct checksTypes; [| reflexivity].
  destruct (typeCheck st) as [check |].
  - now rewrite (Hc check eq_refl).
  - now rewrite Hl, Hr.
Qed.

Lemma treeStep_regular (checksTypes : bool) (parameters : tParameters)
  (st : evaluationStage) (lv rv : value) :
  shortCircuitRule st lv = GoOn VNil ->
  treeStep checksTypes parameters st (Some (Done lv)) (Some (Done rv))
  = checkAndApply checksTypes st lv rv parameters.
Proof. intros Hrule. unfold treeStep. cbn. now rewrite Hrule. Qed.

(** Evaluating a stage whose children have the values [lv] and [rv], and
    on which the type checks and the operator succeed with [v], gives
    [v]: the short-circuit rules agree with the operators. *)
Lemma treeStep_folded (checksTypes : bool) (parameters : tParameters)
  (st : evaluationStage) (lv rv v : value) :
  plannedStage st ->
  typeCheckValue st.(leftTypeCheck) lv st.(symbol) st.(typeErrorFormat)
  = Done () ->
  typeCheckValue st.(rightTypeCheck) rv st.(symbol) st.(typeErrorFormat)
  = Done () ->
  (forall check, st.(typeCheck) = Some check -> check lv rv = true) ->
  callOperator st.(operator) lv rv None = Done v ->
  treeStep checksTypes parameters st (Some (Done lv)) (Some (Done rv))
  = Done v.
Proof.
  intros Hplanned Hcl Hcr Hcc Hop.
  assert (Hregular :
    shortCircuitRule st lv = GoOn VNil ->
    callOperator st.(operator) lv rv (Some parameters)
    = callOperator st.(operator) lv rv None ->
    treeStep checksTypes parameters st (Some (Done lv)) (Some (Done rv))
    = Done v).
  { intros Hrule Hparams. rewrite treeStep_regular by assumption.
    rewrite checkAndApply_pass by assumption. now rewrite Hparams. }
  destruct Hplanned as [[x ->] | [(Hsym & Hoper & Hl & Hr & Hc)
                                 | (Hsome & Hoper & Hl & Hr & Hc)]].
  - now apply Hregular.
  - apply Hregular.
    + unfold shortCircuitRule, isShortCircuitable. now rewrite Hsym.
    + now rewrite Hoper.
  - destruct st as [sym l r op cl cr cc fmt].
    cbn [symbol operator leftTypeCheck rightTypeCheck typeCheck
           typeErrorFormat] in *.
    subst op cl cr cc.
    destruct sym; try (destruct Hsome as [? [=]]);
      try (apply Hregular; reflexivity);
      destruct lv; try discriminate Hcl;
      try (apply Hregular; reflexivity);
      cbn in Hop |- *;
      try (destruct b; try (apply Hregular; reflexivity);
           cbn in Hop |- *);
      try exact Hop;
      destruct checksTypes; exact Hop.
Qed.

(** A literal stage evaluates to its value. *)
Lemma valueOf_literal (checksTypes : bool) (parameters : tParameters)
  (h : heap) (t : stageTree) (x : value) :
  represents h t -> h !! rootOf t = Some (literalStage x) ->
  valueOf checksTypes parameters h t = Done x.
Proof.
  destruct t as [p l r]. intros Hrep Hst.
  rewrite (valueOf_node _ _ _ _ _ _ _ Hrep Hst).
  destruct Hrep as ((st & Hp & Hsl & Hsr) & _ & _).
  cbn [rootOf] in Hst. rewrite Hst in Hp. injection Hp as <-.
  destruct l; [discriminate Hsl |]. destruct r; [discriminate Hsr |].
  now destruct checksTypes.
Qed.

(** A planned stage of symbol LITERAL is a literal stage. *)
Lemma plannedStage_literal (st : evaluationStage) :
  plannedStage st -> st.(symbol) = tLITERAL ->
  exists x, st = literalStage x.
Proof.
  intros [Hlit | [(Hsym & _) | (Hsome & _)]] Hs; [exact Hlit | congruence |].
  rewrite Hs in Hsome. now destruct Hsome.
Qed.

(** *** The operators of planned stages *)

(** On operands that pass its type checks, the operator of a planned
    stage returns a value or an error. *)
Lemma plannedStage_operator_total (st : evaluationStage) (lv rv : value) :
  plannedStage st ->
  typeCheckValue st.(leftTypeCheck) lv st.(symbol) st.(typeErrorFormat)
  = Done () ->
  typeCheckValue st.(rightTypeCheck) rv st.(symbol) st.(typeErrorFormat)
  = Done () ->
  (forall check, st.(typeCheck) = Some check -> check lv rv = true) ->
  (exists v, callOperator st.(operator) lv rv None = Done v)
  \/ (exists err, callOperator st.(operator) lv rv None = Fail err).
Proof.
  intros [[x ->] | [(Hsym & Hoper & Hl & Hr & Hc)
                   | (Hsome & Hoper & Hl & Hr & Hc)]] Hcl Hcr Hcc.
  - left. now exists x.
  - left. rewrite Hoper. now exists rv.
  - destruct st as [sym l r op cl cr cc fmt].
    cbn [symbol operator leftTypeCheck rightTypeCheck typeCheck
           typeErrorFormat] in *.
    subst op cl cr cc.
    destruct sym; try (destruct Hsome as [? [=]]);
      cbn [findTypeChecks checkCombined] in Hcc;
      try specialize (Hcc _ eq_refl);
      destruct lv; try discriminate Hcl; try discriminate Hcc;
      destruct rv; try discriminate Hcr; try discriminate Hcc;
      cbn;
      try (left; eexists; reflexivity);
      try (destruct b; left; eexists; reflexivity);
      try (destruct (regexpCompile _);
           [left | right]; eexists; reflexivity).
Qed.

(** *** Folding a tree *)

Lemma withChildren_id (st : evaluationStage) :
  withChildren st st.(leftStage) st.(rightStage) = st.
Proof. now destruct st. Qed.

Lemma plannedStage_withChildren (st : evaluationStage) (l r : option nat) :
  plannedStage st ->
  (st.(leftStage) = None -> l = None) ->
  (st.(rightStage) = None -> r = None) ->
  plannedStage (withChildren st l r).
Proof.
  intros [[x ->] | [Hnoop | Hsym]] Hl Hr.
  - left. exists x. now rewrite (Hl eq_refl), (Hr eq_refl).
  - right; left. exact Hnoop.
  - right; right. exact Hsym.
Qed.

Lemma plannedTree_frame (h h' : heap) (t : stageTree) :
  plannedTree h t ->
  (forall q, q ∈ addressesOf t -> h' !! q = h !! q) ->
  plannedTree h' t.
Proof.
  intros Hpl Hagree q st Hq Hst. apply (Hpl q st Hq).
  now rewrite <- Hagree.
Qed.

(** Folding one child of the stage at [p] and storing the new pointer:
    [set] is the store of the pointer, [put] the stage it leaves at
    [p]. *)
Lemma elide_child (fuel p : nat) (o : option stageTree) (h : heap)
  (st : evaluationStage) (set : nat -> option nat -> heap -> outcome heap)
  (put : option nat -> evaluationStage) :
  (forall h1 c, h1 !! p = Some st ->
                set p c h1 = Done (<[p := put c]> h1)) ->
  put (option_map rootOf o) = st ->
  (forall t, o = Some t -> foldsSoundly t) ->
  h !! p = Some st -> p ∉ addressesUnder o ->
  (forall t, o = Some t ->
             depthOf t < fuel /\ represents h t /\ NoDup (addressesOf t)
             /\ plannedTree h t) ->
  exists o' h1,
    match option_map rootOf o with
    | Some c => '(folded, h) ← elideLiterals fuel c h; set p (Some folded) h
    | None => Done h
    end = Done h1
    /\ h1 !! p = Some (put (option_map rootOf o'))
    /\ (o' = None <-> o = None)
    /\ (forall t', o' = Some t' ->
                   represents h1 t' /\ NoDup (addressesOf t')
                   /\ plannedTree h1 t' /\ (p ∉ addressesOf t'))
    /\ depthUnder o' <= depthUnder o
    /\ (forall q, q ∈ addressesUnder o' ->
                  q ∈ addressesUnder o \/ length h <= q)
    /\ length h <= length h1
    /\ (forall q, q < length h -> q ∉ addressesUnder o -> q <> p ->
                  h1 !! q = h !! q)
    /\ (forall checksTypes parameters,
          option_map (valueOf checksTypes parameters h1) o'
          = option_map (valueOf checksTypes parameters h) o).
Proof.
  intros Hset Hput IH Hp Hnotin Hfacts.
  destruct o as [t |].
  - destruct (Hfacts t eq_refl) as (Hfuel & Hrep & Hnd & Hpl).
    destruct (IH t eq_refl h fuel Hfuel Hrep Hnd Hpl)
      as (t' & h0 & Hrun & Hrep' & Hnd' & Hpl' & Hdepth & Hfresh & Hlen
          & Hframe & Hvalue).
    cbn [addressesUnder depthUnder option_map] in *.
    assert (Hplt : p < length h) by now apply lookup_lt_Some in Hp.
    assert (Hp0 : h0 !! p = Some st) by (rewrite Hframe; assumption).
    assert (Hnotin' : p ∉ addressesOf t').
    { intros Hin. destruct (Hfresh p Hin); [contradiction | lia]. }
    assert (Hagree : forall q, q ∈ addressesOf t' ->
                <[p := put (Some (rootOf t'))]> h0 !! q = h0 !! q).
    { intros q Hq. apply list_lookup_insert_ne. congruence. }
    exists (Some t'), (<[p := put (Some (rootOf t'))]> h0).
    rewrite Hrun. cbn [mbind outcome_bind]. rewrite (Hset h0 _ Hp0).
    split; [reflexivity |].
    split; [apply list_lookup_insert_eq; lia |].
    split; [split; discriminate |].
    split.
    { intros ? [= <-]. repeat split.
      - now apply (represents_frame h0).
      - assumption.
      - now apply (plannedTree_frame h0).
      - assumption. }
    split; [assumption |].
    split; [assumption |].
    split; [rewrite length_insert; assumption |].
    split.
    { intros q Hq Hnq Hne. rewrite list_lookup_insert_ne by congruence.
      now apply Hframe. }
    intros checksTypes parameters. cbn [option_map]. f_equal.
    rewrite (valueOf_frame _ _ h0) by assumption. apply Hvalue.
  - exists None, h. cbn [option_map addressesUnder depthUnder] in *.
    split; [reflexivity |].
    split; [now rewrite Hput |].
    split; [tauto |].
    split; [discriminate |].
    split; [lia |].
    split; [intros q Hq; now apply not_elem_of_nil in Hq |].
    split; [lia |].
    split; [reflexivity |].
    reflexivity.
Qed.

(** On a planned stage whose children are planned, the folder returns. *)
Lemma elideStage_total (h : heap) (root : nat) (st : evaluationStage) :
  h !! root = Some st -> plannedStage st ->
  (forall c, st.(leftStage) = Some c \/ st.(rightStage) = Some c ->
             exists cs, h !! c = Some cs /\ plannedStage cs) ->
  exists res, elideStage root h = Done res.
Proof.
  intros Hst Hpl Hchildren.
  destruct (elideStage root h) as [res | err | pn |] eqn:Hrun;
    [now exists res | now destruct (elideStage_never_fails h root err) | |];
    exfalso; revert Hrun; unfold elideStage, load; rewrite Hst;
    cbn [mbind outcome_bind];
    (destruct (rightStage st) as [rp |] eqn:Hr; [| discriminate]);
    (destruct (Hchildren rp (or_intror eq_refl)) as (rs & Hrs & Hrpl));
    rewrite Hrs; cbn [mbind outcome_bind];
    (destruct (bool_decide (symbol rs = tLITERAL)) eqn:Hrsym;
     [| discriminate]);
    apply bool_decide_eq_true in Hrsym; cbn [negb];
    (destruct (leftStage st) as [lp |] eqn:Hl; [| discriminate]);
    (destruct (Hchildren lp (or_introl eq_refl)) as (ls & Hls & Hlpl));
    rewrite Hls; cbn [mbind outcome_bind];
    (destruct (bool_decide (symbol ls = tLITERAL)) eqn:Hlsym;
     [| discriminate]);
    apply bool_decide_eq_true in Hlsym; cbn [negb];
    destruct (plannedStage_literal ls Hlpl Hlsym) as [lv ->];
    destruct (plannedStage_literal rs Hrpl Hrsym) as [rv ->];
    cbn [literalStage operator callOperator makeLiteralStage orKeep];
    (destruct (typeCheckValue_cases (leftTypeCheck st) lv (symbol st)
                 (typeErrorFormat st)) as [Hcl | [e Hcl]];
     rewrite Hcl; cbn [orKeep];
     [| destruct (symbol st); discriminate]);
    (destruct (typeCheckValue_cases (rightTypeCheck st) rv (symbol st)
                 (typeErrorFormat st)) as [Hcr | [e Hcr]];
     rewrite Hcr; cbn [orKeep];
     [| destruct (symbol st); discriminate]);
    (destruct (match typeCheck st with
               | Some check => negb (check lv rv)
               | None => false
               end) eqn:Hcc; [destruct (symbol st); discriminate |]);
    (assert (Hcc' : forall check, typeCheck st = Some check ->
                                  check lv rv = true)
      by (intros check Hcheck; rewrite Hcheck in Hcc;
          now destruct (check lv rv)));
    (destruct (plannedStage_operator_total st lv rv Hpl Hcl Hcr Hcc')
      as [[v Hop] | [e Hop]]);
    rewrite Hop; cbn [orKeep]; destruct (symbol st); discriminate.
Qed.

(** Folding a planned tree held by the store gives a planned tree with
    the same value. *)
Lemma elideLiterals_sound (t : stageTree) : foldsSoundly t.
Proof.
  induction t as [p l r IHl IHr] using stageTree_children_ind.
  intros h [| fuel] Hfuel Hrep Hnd Hpl; [lia |].
  pose proof Hrep as ((st & Hp & Hsl & Hsr) & Hl & Hr).
  destruct (NoDup_addressesOf_node p l r Hnd) as (Hndl & Hndr & Hdisj).
  assert (Hstp : plannedStage st).
  { apply (Hpl p st); [apply elem_of_addressesOf_node; now left | exact Hp]. }
  cbn [depthOf] in Hfuel.
  assert (Hplt : p < length h) by now apply lookup_lt_Some in Hp.
  assert (Hltl : forall tl q, l = Some tl -> q ∈ addressesOf tl ->
                              q < length h).
  { intros tl q ->. now apply represents_lt. }
  assert (Hltr : forall tr q, r = Some tr -> q ∈ addressesOf tr ->
                              q < length h).
  { intros tr q ->. now apply represents_lt. }
  (* the left child *)
  destruct (elide_child fuel p l h st setLeftStage
              (fun c => withChildren st c (rightStage st)))
    as (l' & h1 & Hrun1 & Hp1 & Hnone1 & Hl' & Hdl & Hfresh1 & Hlen1
        & Hframe1 & Hval1).
  { intros h0 c Hh0. unfold setLeftStage, load. now rewrite Hh0. }
  { rewrite <- Hsl. apply withChildren_id. }
  { exact IHl. }
  { exact Hp. }
  { destruct l as [tl |]; [apply (Hndl tl eq_refl) | apply not_elem_of_nil]. }
  { intros tl ->. cbn [depthUnder] in *. repeat split.
    - lia.
    - exact Hl.
    - apply (Hndl tl eq_refl).
    - intros q st' Hq. apply Hpl. apply elem_of_addressesOf_node.
      right; left. eauto. }
  set (st1 := withChildren st (option_map rootOf l') (rightStage st)) in *.
  assert (Hin_l : forall q, q ∈ addressesUnder l' -> q < length h1
                            /\ q <> p /\ (q ∉ addressesUnder r)).
  { intros q Hq. destruct l' as [tl' |];
      [| now apply not_elem_of_nil in Hq].
    destruct (Hl' tl' eq_refl) as (Hrep1 & _ & _ & Hnp).
    repeat split.
    - now apply (represents_lt h1 tl').
    - intros ->. contradiction.
    - intros Hqr. destruct r as [tr |];
        [| now apply not_elem_of_nil in Hqr].
      destruct (Hfresh1 q Hq) as [Hql | Hge].
      + destruct l as [tl |]; [| now apply not_elem_of_nil in Hql].
        now apply (Hdisj tl tr q eq_refl eq_refl).
      + specialize (Hltr tr q eq_refl Hqr). lia. }
  assert (Hagree1 : forall tr q, r = Some tr -> q ∈ addressesOf tr ->
                                 h1 !! q = h !! q).
  { intros tr q -> Hq. apply Hframe1.
    - now apply (Hltr tr).
    - intros Hql. destruct l as [tl |];
        [| now apply not_elem_of_nil in Hql].
      now apply (Hdisj tl tr q eq_refl eq_refl).
    - intros ->. now apply (Hndr tr eq_refl). }
  (* the right child *)
  destruct (elide_child fuel p r h1 st1 setRightStage
              (fun c => withChildren st1 (leftStage st1) c))
    as (r' & h2 & Hrun2 & Hp2 & Hnone2 & Hr' & Hdr & Hfresh2 & Hlen2
        & Hframe2 & Hval2).
  { intros h0 c Hh0. unfold setRightStage, load. now rewrite Hh0. }
  { rewrite <- Hsr. apply (withChildren_id st1). }
  { exact IHr. }
  { exact Hp1. }
  { destruct r as [tr |]; [apply (Hndr tr eq_refl) | apply not_elem_of_nil]. }
  { intros tr ->. cbn [depthUnder] in *. repeat split.
    - lia.
    - apply (represents_frame h); [exact Hr |].
      intros q Hq. now apply (Hagree1 tr).
    - apply (Hndr tr eq_refl).
    - apply (plannedTree_frame h).
      + intros q st' Hq. apply Hpl. apply elem_of_addressesOf_node.
        right; right. eauto.
      + intros q Hq. now apply (Hagree1 tr). }
  set (st2 := withChildren st (option_map rootOf l') (option_map rootOf r')).
  change (withChildren st1 (leftStage st1) (option_map rootOf r'))
    with st2 in Hp2.
  assert (Hagree2 : forall q, q ∈ addressesUnder l' -> h2 !! q = h1 !! q).
  { intros q Hq. destruct (Hin_l q Hq) as (Hlt & Hne & Hnr).
    now apply Hframe2. }
  (* the tree once both children are folded *)
  assert (Hrep2 : represents h2 (StageTree p l' r')).
  { cbn [represents]. split; [| split].
    - exists st2. now split.
    - destruct l' as [tl' |]; [| exact I].
      apply (represents_frame h1); [apply (Hl' tl' eq_refl) |].
      intros q Hq. now apply Hagree2.
    - destruct r' as [tr' |]; [| exact I]. apply (Hr' tr' eq_refl). }
  assert (Hnd2 : NoDup (addressesOf (StageTree p l' r'))).
  { cbn [addressesOf]. apply NoDup_cons. split.
    - rewrite not_elem_of_app. split.
      + intros Hq. now destruct (Hin_l p Hq) as (_ & Hne & _).
      + destruct r' as [tr' |]; [apply (Hr' tr' eq_refl) |
                                 apply not_elem_of_nil].
    - apply NoDup_app. split; [| split].
      + destruct l' as [tl' |]; [apply (Hl' tl' eq_refl) | apply NoDup_nil_2].
      + intros q Hq Hqr. destruct (Hin_l q Hq) as (Hlt & Hne & Hnr).
        destruct (Hfresh2 q Hqr) as [Hin | Hge]; [contradiction | lia].
      + destruct r' as [tr' |]; [apply (Hr' tr' eq_refl) | apply NoDup_nil_2]. }
  assert (Hst2 : plannedStage st2).
  { apply plannedStage_withChildren; [exact Hstp | |].
    - intros Hnone. rewrite Hsl in Hnone.
      destruct l; [discriminate |]. now rewrite (proj2 Hnone1 eq_refl).
    - intros Hnone. rewrite Hsr in Hnone.
      destruct r; [discriminate |]. now rewrite (proj2 Hnone2 eq_refl). }
  assert (Hpl2 : plannedTree h2 (StageTree p l' r')).
  { intros q st' Hq Hst'. apply elem_of_addressesOf_node in Hq.
    destruct Hq as [-> | [(tl' & -> & Hq) | (tr' & -> & Hq)]].
    - rewrite Hp2 in Hst'. now injection Hst' as <-.
    - destruct (Hl' tl' eq_refl) as (_ & _ & Hplanned & _).
      apply (Hplanned q st' Hq). now rewrite <- Hagree2.
    - destruct (Hr' tr' eq_refl) as (_ & _ & Hplanned & _).
      now apply (Hplanned q st' Hq). }
  assert (Hdepth2 : depthOf (StageTree p l' r') <= depthOf (StageTree p l r)).
  { cbn [depthOf]. fold (depthUnder l') (depthUnder r') (depthUnder l)
      (depthUnder r). lia. }
  assert (Hfresh : forall q, q ∈ addressesOf (StageTree p l' r') ->
                             q ∈ addressesOf (StageTree p l r)
                             \/ length h <= q).
  { intros q Hq. apply elem_of_addressesOf_node in Hq.
    destruct Hq as [-> | [(tl' & -> & Hq) | (tr' & -> & Hq)]].
    - left. apply elem_of_addressesOf_node. now left.
    - destruct (Hfresh1 q Hq) as [Hin | Hge]; [| now right].
      left. destruct l as [tl |]; [| now apply not_elem_of_nil in Hin].
      apply elem_of_addressesOf_node. right; left. eauto.
    - destruct (Hfresh2 q Hq) as [Hin | Hge]; [| right; lia].
      left. destruct r as [tr |]; [| now apply not_elem_of_nil in Hin].
      apply elem_of_addressesOf_node. right; right. eauto. }
  assert (Hframe : forall q, q < length h ->
                             q ∉ addressesOf (StageTree p l r) ->
                             h2 !! q = h !! q).
  { intros q Hq Hnq.
    assert (Hne : q <> p).
    { intros ->. apply Hnq. apply elem_of_addressesOf_node. now left. }
    assert (Hnl : q ∉ addressesUnder l).
    { intros Hin. apply Hnq. destruct l as [tl |];
        [| now apply not_elem_of_nil in Hin].
      apply elem_of_addressesOf_node. right; left. eauto. }
    assert (Hnr : q ∉ addressesUnder r).
    { intros Hin. apply Hnq. destruct r as [tr |];
        [| now apply not_elem_of_nil in Hin].
      apply elem_of_addressesOf_node. right; right. eauto. }
    rewrite Hframe2 by (try assumption; lia). now apply Hframe1. }
  assert (Hvalue : forall checksTypes parameters,
             valueOf checksTypes parameters h2 (StageTree p l' r')
             = valueOf checksTypes parameters h (StageTree p l r)).
  { intros checksTypes parameters.
    rewrite (valueOf_node _ _ h2 p l' r' st2 Hrep2 Hp2).
    rewrite (valueOf_node _ _ h p l r st Hrep Hp).
    unfold st2. rewrite treeStep_withChildren. f_equal.
    - rewrite <- Hval1. destruct l' as [tl' |]; [| reflexivity].
      cbn [option_map]. f_equal.
      apply (valueOf_frame _ _ h1); [apply (Hl' tl' eq_refl) |].
      intros q Hq. now apply Hagree2.
    - rewrite Hval2. destruct r as [tr |]; [| reflexivity].
      cbn [option_map]. f_equal.
      apply (valueOf_frame _ _ h); [exact Hr |].
      intros q Hq. now apply (Hagree1 tr). }
  (* the computation so far *)
  assert (Hrun : elideLiterals (S fuel) p h = elideStage p h2).
  { assert (Hload : forall h0 st0, h0 !! p = Some st0 -> load h0 p = Done st0)
      by (intros h0 st0 Hh0; unfold load; now rewrite Hh0).
    cbn [elideLiterals]. rewrite (Hload h st Hp).
    cbn [mbind outcome_bind]. rewrite Hsl, Hrun1.
    cbn [mbind outcome_bind]. rewrite (Hload h1 st1 Hp1).
    cbn [mbind outcome_bind].
    change (rightStage st1) with (rightStage st). rewrite Hsr, Hrun2.
    reflexivity. }
  cbn [rootOf]. rewrite Hrun.
  (* the fold at the root *)
  destruct (elideStage_total h2 p st2 Hp2 Hst2) as [[root' h'] Hfold].
  { intros c Hc.
    assert (Hcin : c ∈ addressesOf (StageTree p l' r')
                   /\ exists tc, represents h2 tc /\ rootOf tc = c).
    { destruct Hrep2 as (_ & Hrl & Hrr).
      destruct Hc as [Hc | Hc]; cbn [st2 withChildren leftStage rightStage]
        in Hc.
      - destruct l' as [tl' |]; [| discriminate]. injection Hc as <-.
        split; [| now exists tl'].
        apply elem_of_addressesOf_node. right; left. exists tl'.
        split; [reflexivity |]. destruct tl'. now left.
      - destruct r' as [tr' |]; [| discriminate]. injection Hc as <-.
        split; [| now exists tr'].
        apply elem_of_addressesOf_node. right; right. exists tr'.
        split; [reflexivity |]. destruct tr'. now left. }
    destruct Hcin as (Hcin & [tc l0 r0] & ((cs & Hcs & _) & _) & <-).
    exists cs. split; [exact Hcs |]. now apply (Hpl2 _ cs Hcin). }
  rewrite Hfold.
  destruct (elideStage_done h2 h' p root' st2 Hp2 Hfold)
    as [[-> ->] | (v & Hfolds & -> & ->)].
  - exists (StageTree p l' r'), h2. split; [reflexivity |].
    refine (conj Hrep2 (conj Hnd2 (conj Hpl2 (conj Hdepth2 (conj Hfresh
              (conj _ (conj Hframe Hvalue))))))).
    lia.
  - exists (StageTree (length h2) None None), (h2 ++ [literalStage v])%list.
    split; [reflexivity |].
    assert (Hnew : (h2 ++ [literalStage v])%list !! length h2
                   = Some (literalStage v)).
    { now rewrite list_lookup_middle. }
    assert (Hrepn : represents (h2 ++ [literalStage v])%list
                      (StageTree (length h2) None None)).
    { cbn [represents]. split; [| split; exact I].
      exists (literalStage v). now split. }
    split; [exact Hrepn |].
    split; [cbn [addressesOf]; apply NoDup_singleton |].
    split.
    { intros q st' Hq Hst'. cbn [addressesOf app] in Hq.
      apply list_elem_of_singleton in Hq. subst q.
      rewrite Hnew in Hst'. injection Hst' as <-. left. now exists v. }
    split; [cbn [depthOf]; lia |].
    split.
    { intros q Hq. cbn [addressesOf app] in Hq.
      apply list_elem_of_singleton in Hq. subst q. right. lia. }
    split; [rewrite length_app; cbn [length]; lia |].
    split.
    { intros q Hq Hnq. rewrite lookup_app_l by lia. now apply Hframe. }
    intros checksTypes parameters.
    rewrite (valueOf_literal _ _ _ _ v Hrepn Hnew).
    rewrite <- Hvalue.
    rewrite (valueOf_node _ _ h2 p l' r' st2 Hrep2 Hp2).
    destruct Hfolds as (lp & rp & ls & rs & lv & rv & Hfl & Hfr & Hls & Hrs
                        & Hlsym & Hrsym & _ & _ & Hlv & Hrv & Hcl & Hcr
                        & Hcc & Hop).
    cbn [st2 withChildren leftStage rightStage] in Hfl, Hfr.
    destruct l' as [tl' |]; [| discriminate Hfl].
    destruct r' as [tr' |]; [| discriminate Hfr].
    injection Hfl as <-. injection Hfr as <-.
    destruct Hrep2 as (_ & Hrl & Hrr).
    assert (Hlin : rootOf tl' ∈ addressesOf (StageTree p (Some tl')
                                               (Some tr'))).
    { apply elem_of_addressesOf_node. right; left. exists tl'.
      split; [reflexivity |]. destruct tl'. now left. }
    assert (Hrin : rootOf tr' ∈ addressesOf (StageTree p (Some tl')
                                               (Some tr'))).
    { apply elem_of_addressesOf_node. right; right. exists tr'.
      split; [reflexivity |]. destruct tr'. now left. }
    destruct (plannedStage_literal ls (Hpl2 _ ls Hlin Hls) Hlsym) as [x ->].
    destruct (plannedStage_literal rs (Hpl2 _ rs Hrin Hrs) Hrsym) as [y ->].
    injection Hlv as ->. injection Hrv as ->.
    cbn [option_map].
    rewrite (valueOf_literal _ _ h2 tl' lv Hrl Hls).
    rewrite (valueOf_literal _ _ h2 tr' rv Hrr Hrs).
    symmetry. now apply treeStep_folded.
Qed.

(** *** Evaluation of a planned tree returns *)

Lemma plannedStage_operator_returns (st : evaluationStage) (lv rv : value)
  (parameters : option tParameters) :
  plannedStage st ->
  callOperator st.(operator) lv rv parameters <> OutOfFuel.
Proof.
  intros [[x ->] | [(Hsym & Hoper & _) | (Hsome & Hoper & _)]].
  - discriminate.
  - rewrite Hoper. discriminate.
  - rewrite Hoper.
    destruct (symbol st); try (destruct Hsome as [? [=]]);
      cbn; destruct lv; try discriminate; destruct rv; try discriminate;
      try (destruct b; discriminate);
      try (destruct (regexpCompile _); discriminate);
      unfold notRegexStage, regexStage; cbn [mbind outcome_bind];
      destruct (regexpCompile _); discriminate.
Qed.

Lemma checkAndApply_returns (checksTypes : bool) (st : evaluationStage)
  (lv rv : value) (parameters : tParameters) :
  plannedStage st ->
  checkAndApply checksTypes st lv rv parameters <> OutOfFuel.
Proof.
  intros Hplanned. unfold checkAndApply.
  pose proof (plannedStage_operator_returns st lv rv (Some parameters)
                Hplanned) as Hop.
  destruct checksTypes; [| exact Hop].
  destruct (typeCheck st) as [check |].
  - destruct (check lv rv); [exact Hop | discriminate].
  - destruct (typeCheckValue_cases (leftTypeCheck st) lv (symbol st)
                (typeErrorFormat st)) as [-> | [e ->]]; [| discriminate].
    destruct (typeCheckValue_cases (rightTypeCheck st) rv (symbol st)
                (typeErrorFormat st)) as [-> | [e ->]]; [| discriminate].
    exact Hop.
Qed.

Lemma treeStep_returns (checksTypes : bool) (parameters : tParameters)
  (st : evaluationStage) (leftRun rightRun : option (outcome value)) :
  plannedStage st ->
  leftRun <> Some OutOfFuel -> rightRun <> Some OutOfFuel ->
  treeStep checksTypes parameters st leftRun rightRun <> OutOfFuel.
Proof.
  intros Hplanned Hl Hr. unfold treeStep.
  assert (Hrest : forall lv,
    match shortCircuitRule st lv with
    | ReturnNow v => Done v
    | GoOn right0 =>
        right ← match rightRun with
                | Some run =>
                    if negb (isShortCircuitHolder right0) then run
                    else Done right0
                | None => Done right0
                end;
        checkAndApply checksTypes st lv right parameters
    end <> OutOfFuel).
  { intros lv.
    destruct (shortCircuitRule st lv) as [v | right0]; [discriminate |].
    destruct rightRun as [[rv | e | pn |] |];
      try (destruct (negb (isShortCircuitHolder right0)));
      cbn [mbind outcome_bind];
      try discriminate; try (now destruct Hr);
      now apply checkAndApply_returns. }
  destruct leftRun as [[lv | e | pn |] |]; cbn;
    try discriminate; try (now destruct Hl); apply Hrest.
Qed.

Lemma valueOf_returns (checksTypes : bool) (parameters : tParameters)
  (h : heap) (t : stageTree) :
  represents h t -> plannedTree h t ->
  valueOf checksTypes parameters h t <> OutOfFuel.
Proof.
  induction t as [p l r IHl IHr] using stageTree_children_ind.
  intros Hrep Hpl.
  pose proof Hrep as ((st & Hp & Hsl & Hsr) & Hl & Hr).
  rewrite (valueOf_node _ _ h p l r st Hrep Hp).
  apply treeStep_returns.
  - apply (Hpl p st); [apply elem_of_addressesOf_node; now left | exact Hp].
  - destruct l as [tl |]; [| discriminate]. cbn [option_map].
    intros [= Hout]. revert Hout. apply (IHl tl eq_refl); [exact Hl |].
    intros q st' Hq. apply Hpl. apply elem_of_addressesOf_node.
    right; left. eauto.
  - destruct r as [tr |]; [| discriminate]. cbn [option_map].
    intros [= Hout]. revert Hout. apply (IHr tr eq_refl); [exact Hr |].
    intros q st' Hq. apply Hpl. apply elem_of_addressesOf_node.
    right; right. eauto.
Qed.

(** A tree without a repeated address is no deeper than its store is
    long. *)
Lemma depthOf_le_store (h : heap) (t : stageTree) :
  represents h t -> NoDup (addressesOf t) -> depthOf t <= length h.
Proof.
  intros Hrep Hnd.
  etransitivity; [apply depthOf_le_addresses |].
  transitivity (length (seq 0 (length h))); [| now rewrite length_seq].
  apply submseteq_length, NoDup_submseteq; [exact Hnd |].
  intros q Hq. apply elem_of_seq. split; [lia |].
  cbn. now apply (represents_lt h t).
Qed.

Lemma literalStage_inj (v v' : value) :
  literalStage v = literalStage v' -> v = v'.
Proof.
  intros Heq.
  assert (Hcall : callOperator (operator (literalStage v)) VNil VNil None
                  = callOperator (operator (literalStage v')) VNil VNil None)
    by now rewrite Heq.
  now injection Hcall.
Qed.

(** Folding a store that holds a planned tree returns, within the fuel of
    [planStages], and evaluating the folded tree gives the same outcome,
    which is a result of the evaluation and not an exhausted bound. *)
Lemma folded_tree_is_transparent (h : heap) (t : stageTree) :
  represents h t -> NoDup (addressesOf t) -> plannedTree h t ->
  exists root' h',
    elideLiterals (walkFuel h) (rootOf t) h = Done (root', h')
    /\ forall checksTypes parameters,
        evaluateStage (walkFuel h') checksTypes h' root' parameters
        = evaluateStage (walkFuel h) checksTypes h (rootOf t) parameters
        /\ evaluateStage (walkFuel h) checksTypes h (rootOf t) parameters
           <> OutOfFuel.
Proof.
  intros Hrep Hnd Hpl.
  pose proof (depthOf_le_store h t Hrep Hnd) as Hdepth.
  destruct (elideLiterals_sound t h (walkFuel h)) as
    (t' & h' & Hrun & Hrep' & Hnd' & Hpl' & Hdepth' & _ & Hlen & _ & Hval);
    try assumption; [unfold walkFuel; lia |].
  exists (rootOf t'), h'. split; [exact Hrun |].
  intros checksTypes parameters.
  rewrite (evaluateStage_stable checksTypes parameters h' t' Hrep')
    by (unfold walkFuel; lia).
  rewrite (evaluateStage_stable checksTypes parameters h t Hrep)
    by (unfold walkFuel; lia).
  split; [apply Hval | now apply valueOf_returns].
Qed.

(** When [elideStage] replaces a stage by a literal, when it leaves it, and
    that it reports no error. *)
Lemma elideStage_characterized (h : heap) (root : nat)
  (st : evaluationStage) :
  h !! root = Some st ->
  (forall v, foldsTo h st v
             <-> elideStage root h
                 = Done (length h, (h ++ [literalStage v])%list))
  /\ ((forall v, ~ foldsTo h st v) ->
      forall res, elideStage root h = Done res -> res = (root, h))
  /\ (forall err, elideStage root h <> Fail err).
Proof.
  intros Hst. split; [| split].
  - intros v. split; [now apply elideStage_folds |].
    intros Hrun.
    destruct (elideStage_done h _ root _ st Hst Hrun)
      as [[_ Happ] | (v' & Hfolds & _ & Happ)].
    + apply (f_equal length) in Happ. rewrite length_app in Happ.
      cbn [length] in Happ. lia.
    + apply app_inv_head in Happ.
      pose proof (f_equal (fun k => default (literalStage v) (head k))
                    Happ) as Hone.
      change (literalStage v = literalStage v') in Hone.
      now rewrite (literalStage_inj v v' Hone).
  - intros Hnone [root' h'] Hrun.
    destruct (elideStage_done h h' root root' st Hst Hrun)
      as [[-> ->] | (v & Hfolds & _)]; [reflexivity |].
    now destruct (Hnone v).
  - intros err. apply elideStage_never_fails.
Qed.

End FolderFacts.

(** ** Lists *)

Lemma map_agree {A B : Type} (f f' : A -> B) (l : list A) :
  (forall x, x ∈ l -> f' x = f x) -> map f' l = map f l.
Proof.
  intros Hagree. apply map_ext_in. intros x Hx. apply Hagree.
  now apply list_elem_of_In.
Qed.

Lemma map_swap_ordered {A B : Type} (f f' : A -> B) (l1 l2 l3 : list A)
  (a b : A) :
  NoDup (l1 ++ a :: l2 ++ b :: l3)%list ->
  f' a = f b -> f' b = f a ->
  (forall x, x ∈ (l1 ++ a :: l2 ++ b :: l3)%list -> x <> a -> x <> b ->
             f' x = f x) ->
  map f' (l1 ++ a :: l2 ++ b :: l3)%list ≡ₚ map f (l1 ++ a :: l2 ++ b :: l3)%list.
Proof.
  intros Hnd Ha Hb Hrest.
  apply NoDup_app in Hnd as (Hnd1 & Hdisj1 & Hnd).
  apply NoDup_cons in Hnd as (Hna & Hnd).
  apply NoDup_app in Hnd as (Hnd2 & Hdisj2 & Hnd).
  apply NoDup_cons in Hnd as (Hnb & Hnd3).
  rewrite !map_app. cbn [map]. rewrite !map_app. cbn [map].
  rewrite Ha, Hb.
  rewrite (map_agree f f' l1), (map_agree f f' l2), (map_agree f f' l3).
  - apply Permutation_app_head.
    rewrite <- !Permutation_middle. apply perm_swap.
  - intros x Hx. apply Hrest; [set_solver | |].
    + intros ->. apply Hna. set_solver.
    + intros ->. contradiction.
  - intros x Hx. apply Hrest; [set_solver | |].
    + intros ->. apply Hna. set_solver.
    + intros ->. apply (Hdisj2 b Hx). set_solver.
  - intros x Hx. apply Hrest; [set_solver | |].
    + intros ->. apply (Hdisj1 a Hx). set_solver.
    + intros ->. apply (Hdisj1 b Hx). set_solver.
Qed.

(** Exchanging the values of a function at two places of a list without
    repetition permutes its image. *)
Lemma map_swap_Permutation {A B : Type} `{EqDecision A} (f f' : A -> B)
  (l : list A) (a b : A) :
  NoDup l -> a ∈ l -> b ∈ l ->
  f' a = f b -> f' b = f a ->
  (forall x, x ∈ l -> x <> a -> x <> b -> f' x = f x) ->
  map f' l ≡ₚ map f l.
Proof.
  intros Hnd Ha Hb Hfa Hfb Hrest.
  destruct (decide (a = b)) as [<- | Hab].
  { rewrite (map_agree f f' l); [reflexivity |].
    intros x Hx. destruct (decide (x = a)) as [-> | Hxa]; auto. }
  apply list_elem_of_split in Ha as (l1 & l2 & ->).
  apply elem_of_app in Hb as [Hb | Hb].
  - apply list_elem_of_split in Hb as (l3 & l4 & ->).
    rewrite <- app_assoc in *. cbn [app] in *.
    apply (map_swap_ordered f f' l3 l4 l2 b a); auto.
  - apply elem_of_cons in Hb as [-> | Hb]; [contradiction |].
    apply list_elem_of_split in Hb as (l3 & l4 & ->).
    apply (map_swap_ordered f f' l1 l3 l4 a b); auto.
Qed.

(** ** The planner builds planned trees *)

Section PlannedTrees.

Context {carriers : Carriers} {runtime : Runtime}.

Lemma next_tokens (stream stream' : tokenStream) (token : tExpressionToken) :
  next stream = Done (token, stream') ->
  stream'.(tokens) = stream.(tokens) /\ token ∈ stream.(tokens).
Proof.
  unfold next. destruct (index stream <? 0)%Z; [discriminate |].
  destruct (tokens stream !! Z.to_nat (index stream)) as [found |] eqn:Hfound;
    [| discriminate].
  intros [= <- <-]. split; [reflexivity |].
  now apply list_elem_of_lookup_2 in Hfound.
Qed.

Lemma next_constant (stream stream' : tokenStream) (token : tExpressionToken) :
  constantTokens stream.(tokens) -> next stream = Done (token, stream') ->
  constantKind token.(Kind) /\ constantTokens stream'.(tokens).
Proof.
  intros Hconstant Hnext. destruct (next_tokens _ _ _ Hnext) as [Heq Hin].
  split; [| now rewrite Heq].
  unfold constantTokens in Hconstant. rewrite Forall_forall in Hconstant.
  now apply Hconstant.
Qed.

Lemma holdsPlanned_none (h : heap) (from : nat) : holdsPlanned h from None.
Proof. intros t [=]. Qed.

Lemma holdsPlanned_app (h ext : heap) (from : nat) (o : option stageTree) :
  holdsPlanned h from o -> holdsPlanned (h ++ ext)%list from o.
Proof.
  intros Hheld t Ht. destruct (Hheld t Ht) as (Hrep & Hnd & Hfrom & Hpl).
  assert (Hagree : forall q, q ∈ addressesOf t -> (h ++ ext)%list !! q = h !! q).
  { intros q Hq. apply lookup_app_l. now apply (represents_lt h t). }
  repeat split; try assumption.
  - now apply (represents_frame h).
  - now apply (plannedTree_frame h).
Qed.

Lemma holdsPlanned_from (h : heap) (from from' : nat) (o : option stageTree) :
  from' <= from -> holdsPlanned h from o -> holdsPlanned h from' o.
Proof.
  intros Hle Hheld t Ht. destruct (Hheld t Ht) as (Hrep & Hnd & Hfrom & Hpl).
  repeat split; try assumption. intros q Hq. specialize (Hfrom q Hq). lia.
Qed.

(** A stage allocated over two planned trees, the left one held below
    [middle] and the right one from [middle] on, is the root of a planned
    tree. *)
Lemma holdsPlanned_alloc (h : heap) (from middle : nat)
  (l r : option stageTree) (st : evaluationStage) :
  holdsPlanned h from l -> holdsPlanned h middle r ->
  (forall t q, l = Some t -> q ∈ addressesOf t -> q < middle) ->
  from <= middle -> middle <= length h ->
  st.(leftStage) = option_map rootOf l ->
  st.(rightStage) = option_map rootOf r ->
  plannedStage st ->
  holdsPlanned (h ++ [st])%list from (Some (StageTree (length h) l r)).
Proof.
  intros Hl Hr Hbelow Hfm Hmh Hsl Hsr Hst t [= <-].
  pose proof (holdsPlanned_app h [st] from l Hl) as Hl'.
  pose proof (holdsPlanned_app h [st] middle r Hr) as Hr'.
  assert (Hnew : (h ++ [st])%list !! length h = Some st)
    by now rewrite list_lookup_middle.
  assert (Hltl : forall t q, l = Some t -> q ∈ addressesOf t -> q < length h).
  { intros t q Ht Hq. specialize (Hbelow t q Ht Hq). lia. }
  assert (Hltr : forall t q, r = Some t -> q ∈ addressesOf t -> q < length h).
  { intros t q Ht. destruct (Hr t Ht) as (Hrep & _). now apply represents_lt. }
  split; [| split; [| split]].
  - cbn [represents]. split; [| split].
    + exists st. now repeat split.
    + destruct l as [tl |]; [| exact I]. apply (Hl' tl eq_refl).
    + destruct r as [tr |]; [| exact I]. apply (Hr' tr eq_refl).
  - cbn [addressesOf]. apply NoDup_cons. split.
    + rewrite not_elem_of_app. split.
      * destruct l as [tl |]; [| apply not_elem_of_nil].
        intros Hq. specialize (Hltl tl _ eq_refl Hq). lia.
      * destruct r as [tr |]; [| apply not_elem_of_nil].
        intros Hq. specialize (Hltr tr _ eq_refl Hq). lia.
    + apply NoDup_app. split; [| split].
      * destruct l as [tl |]; [apply (Hl tl eq_refl) | apply NoDup_nil_2].
      * intros q Hql Hqr.
        destruct l as [tl |]; [| now apply not_elem_of_nil in Hql].
        destruct r as [tr |]; [| now apply not_elem_of_nil in Hqr].
        specialize (Hbelow tl q eq_refl Hql).
        destruct (Hr tr eq_refl) as (_ & _ & Hfrom & _).
        specialize (Hfrom q Hqr). lia.
      * destruct r as [tr |]; [apply (Hr tr eq_refl) | apply NoDup_nil_2].
  - intros q Hq. apply elem_of_addressesOf_node in Hq.
    destruct Hq as [-> | [(tl & -> & Hq) | (tr & -> & Hq)]].
    + lia.
    + destruct (Hl tl eq_refl) as (_ & _ & Hfrom & _). now apply Hfrom.
    + destruct (Hr tr eq_refl) as (_ & _ & Hfrom & _).
      specialize (Hfrom q Hq). lia.
  - intros q st' Hq Hst'. apply elem_of_addressesOf_node in Hq.
    destruct Hq as [-> | [(tl & -> & Hq) | (tr & -> & Hq)]].
    + rewrite Hnew in Hst'. now injection Hst' as <-.
    + destruct (Hl' tl eq_refl) as (_ & _ & _ & Hpl). now apply (Hpl q).
    + destruct (Hr' tr eq_refl) as (_ & _ & _ & Hpl). now apply (Hpl q).
Qed.

Lemma holdsPlanned_lt (h : heap) (from : nat) (o : option stageTree) :
  holdsPlanned h from o ->
  forall t q, o = Some t -> q ∈ addressesOf t -> q < length h.
Proof.
  intros Hheld t q Ht. destruct (Hheld t Ht) as (Hrep & _).
  now apply represents_lt.
Qed.

Lemma buildsTree_callPrecedent (p : option precedent) :
  (forall f, p = Some f -> buildsTree f) -> buildsTree (callPrecedent p).
Proof.
  intros Hp. destruct p as [f |]; [now apply Hp |].
  intros stream h r stream' h' _ [= <- <- <-].
  split; [reflexivity |]. split; [exists []; now rewrite app_nil_r |].
  exists None. split; [reflexivity | apply holdsPlanned_none].
Qed.

Lemma buildsTree_planPrecedenceLevel (typeErrorFormat : string)
  (table : symbolTable) (validKinds : list tTokenKind)
  (rightPrecedent leftPrecedent : option precedent) :
  (forall s, In s (map snd table) -> is_Some (stageSymbolMap s)) ->
  (forall f, leftPrecedent = Some f -> buildsTree f) ->
  (forall f, rightPrecedent = Some f -> buildsTree f) ->
  buildsTree (planPrecedenceLevel typeErrorFormat (Some table) validKinds
                rightPrecedent leftPrecedent).
Proof.
  intros Htable Hleft Hright stream h r stream' h' Hconstant Hrun.
  unfold planPrecedenceLevel in Hrun.
  destruct (callPrecedent leftPrecedent stream h)
    as [[[leftStage stream1] h1] | | |] eqn:Hl; try discriminate.
  cbn [mbind outcome_bind] in Hrun.
  destruct (buildsTree_callPrecedent leftPrecedent Hleft _ _ _ _ _
              Hconstant Hl) as (Htok1 & (ext1 & ->) & ol & -> & Hheld1).
  assert (Hkept : forall stream2,
             tokens stream2 = tokens stream1 ->
             tokens stream2 = tokens stream
             /\ (exists ext, (h ++ ext1)%list = (h ++ ext)%list)
             /\ exists o, option_map rootOf ol = option_map rootOf o
                          /\ holdsPlanned (h ++ ext1)%list (length h) o).
  { intros stream2 Heq. split; [congruence |]. split; [now exists ext1 |].
    now exists ol. }
  destruct (hasNext stream1);
    [| injection Hrun as <- <- <-; now apply Hkept].
  destruct (next stream1) as [[token stream2] | | |] eqn:Hnext;
    try discriminate.
  cbn [mbind outcome_bind] in Hrun.
  destruct (next_tokens _ _ _ Hnext) as [Htok2 _].
  destruct (_ && _); [injection Hrun as <- <- <-; now apply Hkept |].
  destruct (match Value token with
            | VString lexeme => lookupSymbol table lexeme
            | _ => None
            end) as [sym |] eqn:Hsym;
    [| injection Hrun as <- <- <-; now apply Hkept].
  destruct (callPrecedent rightPrecedent stream2 (h ++ ext1)%list)
    as [[[rightStage stream3] h3] | | |] eqn:Hr; try discriminate.
  cbn [mbind outcome_bind] in Hrun.
  assert (Hconstant2 : constantTokens (tokens stream2)) by congruence.
  destruct (buildsTree_callPrecedent rightPrecedent Hright _ _ _ _ _
              Hconstant2 Hr) as (Htok3 & (ext3 & ->) & or & -> & Hheld3).
  injection Hrun as <- <- <-.
  split; [congruence |]. split.
  { exists (ext1 ++ ext3 ++ [mkStage sym (option_map rootOf ol)
                               (option_map rootOf or) (stageSymbolMap sym)
                               (checkLeft (findTypeChecks sym))
                               (checkRight (findTypeChecks sym))
                               (checkCombined (findTypeChecks sym))
                               typeErrorFormat])%list.
    now rewrite <- !app_assoc. }
  exists (Some (StageTree (length ((h ++ ext1) ++ ext3)%list) ol or)).
  split; [reflexivity |].
  apply (holdsPlanned_alloc _ (length h) (length (h ++ ext1)%list)).
  - now apply holdsPlanned_app.
  - exact Hheld3.
  - now apply (holdsPlanned_lt _ _ _ Hheld1).
  - rewrite length_app. lia.
  - rewrite (length_app (h ++ ext1)%list). lia.
  - reflexivity.
  - reflexivity.
  - right; right. cbn [symbol operator leftTypeCheck rightTypeCheck typeCheck].
    split; [| now repeat split].
    apply Htable. destruct (Value token); try discriminate.
    eapply lookupSymbol_In. eassumption.
Qed.

Lemma buildsTree_planFunction (planAccessor : precedent) :
  buildsTree planAccessor -> buildsTree (planFunction planAccessor).
Proof.
  intros Hacc stream h r stream' h' Hconstant Hrun.
  unfold planFunction in Hrun.
  destruct (next stream) as [[token stream1] | | |] eqn:Hnext;
    try discriminate.
  cbn [mbind outcome_bind] in Hrun.
  destruct (next_constant _ _ _ Hconstant Hnext) as [(_ & Hkind & _) Hc1].
  destruct (next_tokens _ _ _ Hnext) as [Htok1 _].
  rewrite bool_decide_eq_false_2 in Hrun by exact Hkind.
  cbn [negb] in Hrun.
  destruct (Hacc (rewind stream1) h r stream' h' Hc1 Hrun)
    as (Htok & Hext & Ho).
  split; [cbn [rewind tokens] in Htok; congruence |]. now split.
Qed.

Lemma buildsTree_planAccessor (planValue planTokens : precedent) :
  buildsTree planValue -> buildsTree (planAccessor planValue planTokens).
Proof.
  intros Hval stream h r stream' h' Hconstant Hrun.
  unfold planAccessor in Hrun.
  destruct (negb (hasNext stream)).
  { injection Hrun as <- <- <-. split; [reflexivity |].
    split; [exists []; now rewrite app_nil_r |].
    exists None. split; [reflexivity | apply holdsPlanned_none]. }
  destruct (next stream) as [[token stream1] | | |] eqn:Hnext;
    try discriminate.
  cbn [mbind outcome_bind] in Hrun.
  destruct (next_constant _ _ _ Hconstant Hnext) as [(_ & _ & Hkind) Hc1].
  destruct (next_tokens _ _ _ Hnext) as [Htok1 _].
  rewrite bool_decide_eq_false_2 in Hrun by exact Hkind.
  cbn [negb] in Hrun.
  destruct (Hval (rewind stream1) h r stream' h' Hc1 Hrun)
    as (Htok & Hext & Ho).
  split; [cbn [rewind tokens] in Htok; congruence |]. now split.
Qed.

Lemma buildsTree_planValue (planTokens planPrefix : precedent) :
  buildsTree planTokens -> buildsTree planPrefix ->
  buildsTree (planValue planTokens planPrefix).
Proof.
  intros Htok Hpre stream h r stream' h' Hconstant Hrun.
  unfold planValue in Hrun.
  destruct (negb (hasNext stream)).
  { injection Hrun as <- <- <-. split; [reflexivity |].
    split; [exists []; now rewrite app_nil_r |].
    exists None. split; [reflexivity | apply holdsPlanned_none]. }
  destruct (next stream) as [[token stream1] | | |] eqn:Hnext;
    try discriminate.
  cbn [mbind outcome_bind] in Hrun.
  destruct (next_constant _ _ _ Hconstant Hnext) as [(Hvar & _ & _) Hc1].
  destruct (next_tokens _ _ _ Hnext) as [Htok1 _].
  assert (Hleaf : forall v,
             Done (Some (length h), stream1, (h ++ [literalStage v])%list)
             = Done (r, stream', h') ->
             tokens stream' = tokens stream
             /\ (exists ext, h' = (h ++ ext)%list)
             /\ exists o, r = option_map rootOf o
                          /\ holdsPlanned h' (length h) o).
  { intros v [= <- <- <-]. split; [exact Htok1 |].
    split; [now exists [literalStage v] |].
    exists (Some (StageTree (length h) None None)). split; [reflexivity |].
    apply (holdsPlanned_alloc h (length h) (length h) None None);
      try apply holdsPlanned_none; try reflexivity; try lia.
    - intros t q [=].
    - left. now exists v. }
  destruct (Kind token) eqn:Hkind; try discriminate;
    try (now destruct Hvar);
    try (now apply (Hleaf (Value token))).
  - (* a prefix operator *)
    destruct (Hpre (rewind stream1) h r stream' h' Hc1 Hrun)
      as (Htok' & Hext & Ho).
    split; [cbn [rewind tokens] in Htok'; congruence |]. now split.
  - (* a time literal *)
    destruct (Value token); try discriminate.
    now apply (Hleaf (VFloat (timeUnix t))).
  - (* a clause *)
    destruct (planTokens stream1 h) as [[[ret stream2] h2] | | |] eqn:Hr;
      try discriminate.
    cbn [mbind outcome_bind] in Hrun.
    destruct (Htok _ _ _ _ _ Hc1 Hr) as (Htok2 & (ext2 & ->) & o & -> & Hheld).
    destruct (next stream2) as [[closing stream3] | | |] eqn:Hclose;
      try discriminate.
    cbn [mbind outcome_bind] in Hrun.
    destruct (next_tokens _ _ _ Hclose) as [Htok3 _].
    injection Hrun as <- <- <-.
    split; [congruence |]. split.
    { exists (ext2 ++ [mkStage tNOOP None (option_map rootOf o)
                         (Some noopStageRight) None None None EmptyString])%list.
      now rewrite <- app_assoc. }
    exists (Some (StageTree (length (h ++ ext2)%list) None o)).
    split; [reflexivity |].
    apply (holdsPlanned_alloc _ (length h) (length h) None o);
      try apply holdsPlanned_none; try reflexivity; try assumption; try lia.
    + intros t q [=].
    + rewrite length_app. lia.
    + right; left. now repeat split.
  - (* the end of a clause *)
    injection Hrun as <- <- <-. split; [exact Htok1 |].
    split; [exists []; now rewrite app_nil_r |].
    exists None. split; [reflexivity | apply holdsPlanned_none].
Qed.

Lemma buildsTree_planTokens (planSeparator : precedent) :
  buildsTree planSeparator -> buildsTree (planTokens planSeparator).
Proof.
  intros Hsep stream h r stream' h' Hconstant Hrun. unfold planTokens in Hrun.
  destruct (negb (hasNext stream)); [| now apply (Hsep _ _ _ _ _ Hconstant)].
  injection Hrun as <- <- <-. split; [reflexivity |].
  split; [exists []; now rewrite app_nil_r |].
  exists None. split; [reflexivity | apply holdsPlanned_none].
Qed.

(** Every planning function builds planned trees, at every depth. *)
Lemma buildsTree_precedentOf (fuel : nat) :
  forall which : planner, buildsTree (precedentOf fuel which).
Proof.
  induction fuel as [| fuel IH]; intros which.
  - intros stream h r stream' h' _ [=].
  - assert (Hsome : forall (p : planner) (f : precedent),
               Some (precedentOf fuel p) = Some f -> buildsTree f).
    { intros p f [= <-]. apply IH. }
    assert (Hnone : forall f : precedent, None = Some f -> buildsTree f)
      by (intros f [=]).
    intros stream h r stream' h'. revert stream h r stream' h'.
    change (buildsTree (precedentOf (S fuel) which)).
    destruct which; cbn [precedentOf];
      try (apply buildsTree_planPrecedenceLevel;
           [simpl; intros s Hs;
            repeat (destruct Hs as [<- | Hs]; [now eexists |]);
            now destruct Hs
           | eauto | eauto]).
    + apply buildsTree_planFunction, IH.
    + apply buildsTree_planAccessor; apply IH.
    + apply buildsTree_planValue; apply IH.
    + apply buildsTree_planTokens, IH.
Qed.

(** The planner's store, for constant tokens, holds a planned tree at the
    root it returns. *)
Lemma planner_builds_planned_tree (fuel : nat)
  (input : list tExpressionToken) (root : nat) (stream : tokenStream)
  (h : heap) :
  constantTokens input ->
  precedentOf fuel PlanTokens (newTokenStream input) []
  = Done (Some root, stream, h) ->
  exists t, rootOf t = root /\ represents h t /\ NoDup (addressesOf t)
            /\ plannedTree h t.
Proof.
  intros Hconstant Hrun.
  destruct (buildsTree_precedentOf fuel PlanTokens (newTokenStream input) []
              _ _ _ Hconstant Hrun) as (_ & _ & o & Hroot & Hheld).
  destruct o as [t |]; [| discriminate Hroot].
  injection Hroot as ->. exists t.
  destruct (Hheld t eq_refl) as (Hrep & Hnd & _ & Hpl). now repeat split.
Qed.

End PlannedTrees.

(** ** The effect of the stores on the child pointers *)

Section PointerFacts.

Context {carriers : Carriers} {runtime : Runtime}.

Lemma load_Done (h : heap) (p : nat) (st : evaluationStage) :
  load h p = Done st <-> h !! p = Some st.
Proof.
  unfold load. destruct (h !! p); split; intros [=]; now subst.
Qed.

Lemma stageAt_Done (stages : list nat) (i : Z) (p : nat) :
  stageAt stages i = Done p ->
  (0 <= i)%Z /\ stages !! Z.to_nat i = Some p.
Proof.
  unfold stageAt. destruct (i <? 0)%Z eqn:Hneg; [discriminate |].
  destruct (stages !! Z.to_nat i) eqn:Hlook; [| discriminate].
  intros [= <-]. split; [lia | reflexivity].
Qed.

Lemma at_unchanged (h h' : heap) (q : nat) :
  h' !! q = h !! q ->
  leftAt h' q = leftAt h q /\ rightAt h' q = rightAt h q
  /\ infoAt h' q = infoAt h q /\ precedenceAt h' q = precedenceAt h q.
Proof.
  intros Heq. unfold leftAt, rightAt, infoAt, precedenceAt. now rewrite Heq.
Qed.

Lemma setLeftStage_effect (p : nat) (c : option nat) (h h' : heap) :
  setLeftStage p c h = Done h' ->
  length h' = length h
  /\ (forall q, q <> p -> h' !! q = h !! q)
  /\ leftAt h' p = c
  /\ (forall q, rightAt h' q = rightAt h q)
  /\ (forall q, infoAt h' q = infoAt h q).
Proof.
  unfold setLeftStage. destruct (load h p) as [st | | |] eqn:Hload;
    try discriminate.
  apply load_Done in Hload. intros [= <-].
  assert (Hlt : p < length h) by now apply lookup_lt_Some in Hload.
  split; [apply length_insert |].
  split; [intros q Hq; now apply list_lookup_insert_ne |].
  assert (Hat : forall q, q <> p ->
                 <[p := mkStage (symbol st) c (rightStage st) (operator st)
                          (leftTypeCheck st) (rightTypeCheck st)
                          (typeCheck st) (typeErrorFormat st)]> h !! q
                 = h !! q)
    by (intros q Hq; now apply list_lookup_insert_ne).
  split; [| split].
  - unfold leftAt. now rewrite list_lookup_insert_eq.
  - intros q. destruct (decide (q = p)) as [-> | Hq];
      [| now apply at_unchanged, Hat].
    unfold rightAt. rewrite list_lookup_insert_eq by assumption.
    now rewrite Hload.
  - intros q. destruct (decide (q = p)) as [-> | Hq];
      [| now apply at_unchanged, Hat].
    unfold infoAt. rewrite list_lookup_insert_eq by assumption.
    now rewrite Hload.
Qed.

Lemma setRightStage_effect (p : nat) (c : option nat) (h h' : heap) :
  setRightStage p c h = Done h' ->
  length h' = length h
  /\ (forall q, q <> p -> h' !! q = h !! q)
  /\ rightAt h' p = c
  /\ (forall q, leftAt h' q = leftAt h q)
  /\ (forall q, infoAt h' q = infoAt h q).
Proof.
  unfold setRightStage. destruct (load h p) as [st | | |] eqn:Hload;
    try discriminate.
  apply load_Done in Hload. intros [= <-].
  assert (Hlt : p < length h) by now apply lookup_lt_Some in Hload.
  split; [apply length_insert |].
  split; [intros q Hq; now apply list_lookup_insert_ne |].
  assert (Hat : forall q, q <> p ->
                 <[p := mkStage (symbol st) (leftStage st) c (operator st)
                          (leftTypeCheck st) (rightTypeCheck st)
                          (typeCheck st) (typeErrorFormat st)]> h !! q
                 = h !! q)
    by (intros q Hq; now apply list_lookup_insert_ne).
  split; [| split].
  - unfold rightAt. now rewrite list_lookup_insert_eq.
  - intros q. destruct (decide (q = p)) as [-> | Hq];
      [| now apply at_unchanged, Hat].
    unfold leftAt. rewrite list_lookup_insert_eq by assumption.
    now rewrite Hload.
  - intros q. destruct (decide (q = p)) as [-> | Hq];
      [| now apply at_unchanged, Hat].
    unfold infoAt. rewrite list_lookup_insert_eq by assumption.
    now rewrite Hload.
Qed.

Lemma setToNonStage_effect (p : nat) (other : evaluationStage)
  (h h' : heap) :
  setToNonStage p other h = Done h' ->
  length h' = length h
  /\ (forall q, q <> p -> h' !! q = h !! q)
  /\ infoAt h' p = Some (infoOf other)
  /\ (forall q, leftAt h' q = leftAt h q)
  /\ (forall q, rightAt h' q = rightAt h q).
Proof.
  unfold setToNonStage. destruct (load h p) as [st | | |] eqn:Hload;
    try discriminate.
  apply load_Done in Hload. intros [= <-].
  assert (Hlt : p < length h) by now apply lookup_lt_Some in Hload.
  split; [apply length_insert |].
  split; [intros q Hq; now apply list_lookup_insert_ne |].
  assert (Hat : forall q, q <> p ->
                 <[p := mkStage (symbol other) (leftStage st) (rightStage st)
                          (operator other) (leftTypeCheck other)
                          (rightTypeCheck other) (typeCheck other)
                          (typeErrorFormat other)]> h !! q
                 = h !! q)
    by (intros q Hq; now apply list_lookup_insert_ne).
  split; [| split].
  - unfold infoAt. now rewrite list_lookup_insert_eq.
  - intros q. destruct (decide (q = p)) as [-> | Hq];
      [| now apply at_unchanged, Hat].
    unfold leftAt. rewrite list_lookup_insert_eq by assumption.
    now rewrite Hload.
  - intros q. destruct (decide (q = p)) as [-> | Hq];
      [| now apply at_unchanged, Hat].
    unfold rightAt. rewrite list_lookup_insert_eq by assumption.
    now rewrite Hload.
Qed.

(** *** The loops of [mirrorStageSubtree] *)

Lemma rangeLoop_seq_invariant {S : Type} (I : nat -> S -> Prop)
  (body : nat -> S -> outcome S) (len : nat) :
  forall (start : nat) (s s' : S),
    I start s ->
    (forall i t t', start <= i < start + len -> I i t ->
                    body i t = Done t' -> I (Datatypes.S i) t') ->
    rangeLoop body (seq start len) s = Done s' ->
    I (start + len) s'.
Proof.
  induction len as [| len IH]; intros start s s' Hs Hstep Hrun.
  - cbn in Hrun. injection Hrun as <-. now rewrite Nat.add_0_r.
  - cbn [seq rangeLoop] in Hrun.
    destruct (body start s) as [t | | |] eqn:Hbody; try discriminate.
    cbn [mbind outcome_bind] in Hrun.
    replace (start + Datatypes.S len) with (Datatypes.S start + len) by lia.
    apply (IH (Datatypes.S start) t s').
    + apply (Hstep start s t); [lia | assumption | assumption].
    + intros i u u' Hi. apply Hstep. lia.
    + exact Hrun.
Qed.

Lemma rangeLoop_invariant {S : Type} (I : S -> Prop)
  (body : nat -> S -> outcome S) (len : nat) (s s' : S) :
  I s ->
  (forall i t t', i < len -> I t -> body i t = Done t' -> I t') ->
  rangeLoop body (seq 0 len) s = Done s' ->
  I s'.
Proof.
  intros Hs Hstep Hrun.
  apply (rangeLoop_seq_invariant (fun _ => I) body len 0 s s'); auto.
  intros i t t' Hi. apply Hstep. lia.
Qed.

(** The first loop exchanges the two child pointers of every stage of the
    run. *)
Lemma mirror_exchange_loop (run : list nat) (h h1 : heap) :
  NoDup run ->
  rangeLoop
    (fun i h =>
       frontStage ← stageAt run (Z.of_nat i);
       front ← load h frontStage;
       let carryStage := front.(rightStage) in
       h ← setRightStage frontStage front.(leftStage) h;
       setLeftStage frontStage carryStage h)
    (seq 0 (length run)) h = Done h1 ->
  length h1 = length h
  /\ (forall q, q ∉ run -> h1 !! q = h !! q)
  /\ (forall q, infoAt h1 q = infoAt h q)
  /\ (forall p, p ∈ run ->
                leftAt h1 p = rightAt h p /\ rightAt h1 p = leftAt h p).
Proof.
  intros Hnd Hrun.
  pose (I := fun (k : nat) (h1 : heap) =>
    length h1 = length h
    /\ (forall q, q ∉ run -> h1 !! q = h !! q)
    /\ (forall q, infoAt h1 q = infoAt h q)
    /\ (forall j p, run !! j = Some p ->
          (j < k -> leftAt h1 p = rightAt h p /\ rightAt h1 p = leftAt h p)
          /\ (k <= j -> leftAt h1 p = leftAt h p
                        /\ rightAt h1 p = rightAt h p))).
  assert (Hend : I (0 + length run) h1).
  { revert Hrun. apply (rangeLoop_seq_invariant I).
    - repeat split; auto; lia.
    - clear h1. intros i t t' Hi (Hlen & Hframe & Hinfo & Hrun) Hbody.
      destruct (stageAt run (Z.of_nat i)) as [p | | |] eqn:Hat;
        try discriminate.
      apply stageAt_Done in Hat as [_ Hp]. rewrite Nat2Z.id in Hp.
      cbn [mbind outcome_bind] in Hbody.
      destruct (load t p) as [front | | |] eqn:Hload; try discriminate.
      apply load_Done in Hload. cbn [mbind outcome_bind] in Hbody.
      destruct (setRightStage p (leftStage front) t) as [ta | | |] eqn:Hsr;
        try discriminate.
      cbn [mbind outcome_bind] in Hbody.
      apply setRightStage_effect in Hsr
        as (Hlena & Hframea & Hra & Hla & Hia).
      apply setLeftStage_effect in Hbody
        as (Hlenb & Hframeb & Hlb & Hrb & Hib).
      assert (Hfl : leftAt t p = leftStage front)
        by (unfold leftAt; now rewrite Hload).
      assert (Hfr : rightAt t p = rightStage front)
        by (unfold rightAt; now rewrite Hload).
      destruct (Hrun i p Hp) as [_ Hsame]. destruct Hsame as [Hsl Hsr];
        [lia |].
      split; [congruence |]. split; [| split].
      + intros q Hq. rewrite Hframeb, Hframea; auto;
          intros ->; apply Hq; now apply list_elem_of_lookup_2 in Hp.
      + intros q. now rewrite Hib, Hia.
      + intros j pj Hj.
        destruct (decide (j = i)) as [-> | Hji].
        * rewrite Hp in Hj. injection Hj as <-. split; [intros _ | lia].
          split; [rewrite Hlb; congruence |].
          rewrite Hrb, Hra. congruence.
        * assert (Hne : pj <> p).
          { intros ->. apply Hji. now apply (NoDup_lookup run j i p). }
          destruct (Hrun j pj Hj) as [Hbefore Hafter].
          assert (Hl : leftAt t' pj = leftAt t pj).
          { rewrite <- Hla.
            apply at_unchanged. now apply Hframeb. }
          assert (Hr : rightAt t' pj = rightAt t pj).
          { rewrite Hrb. apply at_unchanged. now apply Hframea. }
          rewrite Hl, Hr. split; intros Hcmp;
            [apply Hbefore | apply Hafter]; lia. }
  destruct Hend as (Hlen & Hframe & Hinfo & Hswapped).
  split; [exact Hlen |]. split; [exact Hframe |]. split; [exact Hinfo |].
  intros p Hp. apply list_elem_of_lookup in Hp as [j Hj].
  apply (Hswapped j p Hj). apply lookup_lt_Some in Hj. lia.
Qed.

(** The third loop exchanges right pointers among the stages of the run
    after the first one. *)
Lemma mirror_rights_loop (run : list nat) (first : nat) (count : nat)
  (h h1 : heap) :
  NoDup (first :: run) ->
  (Z.of_nat count <= Z.of_nat (length run))%Z ->
  rangeLoop
    (fun i h =>
       let i := Z.of_nat i in
       frontStage ← stageAt (first :: run) (i + 1);
       inverseStage ←
         stageAt (first :: run)
           (Z.of_nat (length (first :: run)) - i - 1);
       front ← load h frontStage;
       let carryStage := front.(rightStage) in
       inverse ← load h inverseStage;
       h ← setRightStage frontStage inverse.(rightStage) h;
       setRightStage inverseStage carryStage h)
    (seq 0 count) h = Done h1 ->
  length h1 = length h
  /\ (forall q, q ∉ run -> h1 !! q = h !! q)
  /\ (forall q, infoAt h1 q = infoAt h q)
  /\ (forall q, leftAt h1 q = leftAt h q)
  /\ map (rightAt h1) run ≡ₚ map (rightAt h) run.
Proof.
  intros Hnd Hcount.
  apply NoDup_cons in Hnd as [Hfirst Hnd].
  apply (rangeLoop_invariant
           (fun h1 => length h1 = length h
                      /\ (forall q, q ∉ run -> h1 !! q = h !! q)
                      /\ (forall q, infoAt h1 q = infoAt h q)
                      /\ (forall q, leftAt h1 q = leftAt h q)
                      /\ map (rightAt h1) run ≡ₚ map (rightAt h) run)).
  - now repeat split.
  - intros i t t' Hi (Hlen & Hframe & Hinfo & Hleft & Hperm) Hbody.
    cbn zeta in Hbody.
    destruct (stageAt (first :: run) (Z.of_nat i + 1)) as [a | | |] eqn:Ha;
      try discriminate.
    cbn [mbind outcome_bind] in Hbody.
    apply stageAt_Done in Ha as [_ Ha].
    destruct (stageAt (first :: run) _) as [b | | |] eqn:Hb;
      try discriminate.
    cbn [mbind outcome_bind] in Hbody.
    apply stageAt_Done in Hb as [_ Hb].
    replace (Z.to_nat (Z.of_nat i + 1)) with (S i) in Ha by lia.
    cbn [length] in Hb.
    replace (Z.to_nat (Z.of_nat (S (length run)) - Z.of_nat i - 1))
      with (S (length run - i - 1)) in Hb by lia.
    cbn [lookup list_lookup] in Ha, Hb.
    apply list_elem_of_lookup_2 in Ha, Hb.
    destruct (load t a) as [front | | |] eqn:Hfront; try discriminate.
    cbn [mbind outcome_bind] in Hbody.
    destruct (load t b) as [inverse | | |] eqn:Hinverse; try discriminate.
    cbn [mbind outcome_bind] in Hbody.
    apply load_Done in Hfront, Hinverse.
    destruct (setRightStage a (rightStage inverse) t) as [ta | | |] eqn:Hsa;
      try discriminate.
    cbn [mbind outcome_bind] in Hbody.
    apply setRightStage_effect in Hsa as (Hlena & Hframea & Hra & Hla & Hia).
    apply setRightStage_effect in Hbody
      as (Hlenb & Hframeb & Hrb & Hlb & Hib).
    assert (Hfa : rightAt t a = rightStage front)
      by (unfold rightAt; now rewrite Hfront).
    assert (Hfb : rightAt t b = rightStage inverse)
      by (unfold rightAt; now rewrite Hinverse).
    split; [congruence |]. split; [| split; [| split]].
    + intros q Hq. rewrite Hframeb, Hframea; auto; intros ->; contradiction.
    + intros q. now rewrite Hib, Hia.
    + intros q. now rewrite Hlb, Hla.
    + rewrite <- Hperm.
      apply (map_swap_Permutation (rightAt t) (rightAt t') run a b);
        auto.
      * destruct (decide (a = b)) as [-> | Hab]; [congruence |].
        destruct (at_unchanged ta t' a (eq_sym (eq_sym (Hframeb a Hab))))
          as (_ & -> & _). congruence.
      * congruence.
      * intros x _ Hxa Hxb.
        destruct (at_unchanged ta t' x (Hframeb x Hxb)) as (_ & -> & _).
        now destruct (at_unchanged t ta x (Hframea x Hxa)) as (_ & -> & _).
Qed.

(** The last loop exchanges symbols, operators and type checks among
    the stages of the run. *)
Lemma mirror_swap_loop (run : list nat) (count : nat) (h h1 : heap) :
  NoDup run ->
  rangeLoop
    (fun i h =>
       let i := Z.of_nat i in
       frontStage ← stageAt run i;
       inverseStage ← stageAt run (Z.of_nat (length run) - i - 1);
       swapWith frontStage inverseStage h)
    (seq 0 count) h = Done h1 ->
  length h1 = length h
  /\ (forall q, q ∉ run -> h1 !! q = h !! q)
  /\ (forall q, leftAt h1 q = leftAt h q)
  /\ (forall q, rightAt h1 q = rightAt h q)
  /\ map (infoAt h1) run ≡ₚ map (infoAt h) run.
Proof.
  intros Hnd.
  apply (rangeLoop_invariant
           (fun h1 => length h1 = length h
                      /\ (forall q, q ∉ run -> h1 !! q = h !! q)
                      /\ (forall q, leftAt h1 q = leftAt h q)
                      /\ (forall q, rightAt h1 q = rightAt h q)
                      /\ map (infoAt h1) run ≡ₚ map (infoAt h) run)).
  - now repeat split.
  - intros i t t' Hi (Hlen & Hframe & Hleft & Hright & Hperm) Hbody.
    cbn zeta in Hbody.
    destruct (stageAt run (Z.of_nat i)) as [a | | |] eqn:Ha;
      try discriminate.
    cbn [mbind outcome_bind] in Hbody.
    apply stageAt_Done in Ha as [_ Ha].
    destruct (stageAt run _) as [b | | |] eqn:Hb; try discriminate.
    cbn [mbind outcome_bind] in Hbody.
    apply stageAt_Done in Hb as [_ Hb].
    apply list_elem_of_lookup_2 in Ha, Hb.
    unfold swapWith in Hbody.
    destruct (load t b) as [temp | | |] eqn:Htemp; try discriminate.
    cbn [mbind outcome_bind] in Hbody.
    destruct (load t a) as [this | | |] eqn:Hthis; try discriminate.
    cbn [mbind outcome_bind] in Hbody.
    apply load_Done in Htemp, Hthis.
    destruct (setToNonStage b this t) as [ta | | |] eqn:Hsb;
      try discriminate.
    cbn [mbind outcome_bind] in Hbody.
    apply setToNonStage_effect in Hsb
      as (Hlena & Hframea & Hia & Hla & Hra).
    apply setToNonStage_effect in Hbody
      as (Hlenb & Hframeb & Hib & Hlb & Hrb).
    assert (Hfa : infoAt t a = Some (infoOf this))
      by (unfold infoAt; now rewrite Hthis).
    assert (Hfb : infoAt t b = Some (infoOf temp))
      by (unfold infoAt; now rewrite Htemp).
    split; [congruence |]. split; [| split; [| split]].
    + intros q Hq. rewrite Hframeb, Hframea; auto; intros ->; contradiction.
    + intros q. now rewrite Hlb, Hla.
    + intros q. now rewrite Hrb, Hra.
    + rewrite <- Hperm.
      apply (map_swap_Permutation (infoAt t) (infoAt t') run a b);
        auto.
      * congruence.
      * destruct (decide (b = a)) as [-> | Hba]; [congruence |].
        destruct (at_unchanged ta t' b (Hframeb b Hba)) as (_ & _ & -> & _).
        congruence.
      * intros x _ Hxa Hxb.
        destruct (at_unchanged ta t' x (Hframeb x Hxa)) as (_ & _ & -> & _).
        now destruct (at_unchanged t ta x (Hframea x Hxb))
          as (_ & _ & -> & _).
Qed.

(** [mirrorStageSubtree] on a run of two stages or more. *)
Lemma mirrorStageSubtree_mirrored (run : list nat) (h h' : heap) :
  NoDup run -> 2 <= length run ->
  mirrorStageSubtree run h = Done h' ->
  mirrored run h h'.
Proof.
  intros Hnd Hlong Hrun.
  destruct run as [| first rest]; [cbn in Hlong; lia |].
  cbn [length] in Hlong.
  pose proof Hnd as Hnd'. apply NoDup_cons in Hnd' as [Hfirst Hndrest].
  unfold mirrorStageSubtree in Hrun. cbn zeta in Hrun.
  (* the first loop *)
  match type of Hrun with
  | (?m ≫= _) = _ => destruct m as [h1 | | |] eqn:Hone; try discriminate
  end.
  cbn [mbind outcome_bind] in Hrun.
  apply (mirror_exchange_loop (first :: rest) h h1 Hnd) in Hone
    as (Hlen1 & Hframe1 & Hinfo1 & Hswap1).
  (* the exchange between the two ends *)
  change (stageAt (first :: rest) 0) with (@Done nat first) in Hrun.
  cbn [mbind outcome_bind] in Hrun.
  destruct (stageAt (first :: rest) _) as [final | | |] eqn:Hfinal;
    try discriminate.
  cbn [mbind outcome_bind] in Hrun.
  apply stageAt_Done in Hfinal as [_ Hfinal].
  replace (Z.to_nat (Z.of_nat (length (first :: rest)) - 1))
    with (length rest) in Hfinal by (cbn [length]; lia).
  destruct (load h1 final) as [front | | |] eqn:Hfront; try discriminate.
  cbn [mbind outcome_bind] in Hrun.
  destruct (load h1 first) as [root | | |] eqn:Hroot; try discriminate.
  cbn [mbind outcome_bind] in Hrun.
  apply load_Done in Hfront, Hroot.
  destruct (setLeftStage final (rightStage root) h1) as [ha | | |] eqn:Hsl;
    try discriminate.
  cbn [mbind outcome_bind] in Hrun.
  destruct (setRightStage first (leftStage front) ha) as [hb | | |] eqn:Hsr;
    try discriminate.
  cbn [mbind outcome_bind] in Hrun.
  apply setLeftStage_effect in Hsl as (Hlena & Hframea & Hla & Hra & Hia).
  apply setRightStage_effect in Hsr as (Hlenb & Hframeb & Hrb & Hlb & Hib).
  (* the third loop *)
  match type of Hrun with
  | (?m ≫= _) = _ => destruct m as [hc | | |] eqn:Hthree; try discriminate
  end.
  cbn [mbind outcome_bind] in Hrun.
  apply (mirror_rights_loop rest first _ hb hc Hnd) in Hthree
    as (Hlenc & Hframec & Hic & Hlc & Hpermc).
  2:{ cbn [length]. rewrite Z.quot_div_nonneg by lia.
      rewrite Z2Nat.id by (apply Z.add_nonneg_nonneg; [| lia];
                           apply Z.div_pos; lia).
      assert (Hhalf : ((Z.of_nat (S (length rest)) - 2) / 2
                       <= Z.of_nat (S (length rest)) - 2)%Z)
        by (apply Z.div_le_upper_bound; lia).
      lia. }
  (* the last loop *)
  apply (mirror_swap_loop (first :: rest) _ hc h' Hnd) in Hrun
    as (Hlend & Hframed & Hld & Hrd & Hpermd).
  assert (Hin_final : final ∈ first :: rest)
    by now apply list_elem_of_lookup_2 in Hfinal.
  assert (Hfl : leftAt h1 final = leftStage front)
    by (unfold leftAt; now rewrite Hfront).
  assert (Hrr : rightAt h1 first = rightStage root)
    by (unfold rightAt; now rewrite Hroot).
  assert (Hin_first : first ∈ first :: rest) by (apply elem_of_cons; now left).
  unfold mirrored. split; [congruence |]. split; [| split; [| split; [| split]]].
  - intros q Hq.
    assert (Hqrest : q ∉ rest) by (intros Hin; apply Hq; now right).
    rewrite Hframed, Hframec by assumption.
    rewrite Hframeb by (intros ->; now apply Hq).
    rewrite Hframea by (intros ->; now apply Hq).
    now apply Hframe1.
  - intros i p Hp Hi. cbn [length] in Hi.
    assert (Hne : p <> final).
    { intros ->.
      pose proof (NoDup_lookup _ _ _ _ Hnd Hp Hfinal). lia. }
    rewrite Hld, Hlc, Hlb.
    destruct (at_unchanged h1 ha p (Hframea p Hne)) as (-> & _).
    apply Hswap1. now apply list_elem_of_lookup_2 in Hp.
  - intros first0 final0 [= <-] Hlast.
    rewrite last_lookup in Hlast. cbn [length pred] in Hlast.
    rewrite Hfinal in Hlast. injection Hlast as <-.
    split.
    + rewrite Hld, Hlc, Hlb, Hla, <- Hrr. now apply Hswap1.
    + rewrite Hrd.
      destruct (at_unchanged hb hc first (Hframec first Hfirst))
        as (_ & -> & _).
      rewrite Hrb, <- Hfl. now apply Hswap1.
  - cbn [tail].
    rewrite (map_agree (rightAt hc) (rightAt h') rest)
      by (intros x _; apply Hrd).
    rewrite Hpermc.
    rewrite (map_agree (leftAt h) (rightAt hb) rest); [reflexivity |].
    intros x Hx.
    assert (Hne : x <> first) by (intros ->; contradiction).
    destruct (at_unchanged ha hb x (Hframeb x Hne)) as (_ & -> & _).
    rewrite Hra. apply Hswap1. now right.
  - rewrite Hpermd.
    rewrite (map_agree (infoAt h) (infoAt hc) (first :: rest));
      [reflexivity |].
    intros x _. now rewrite Hic, Hib, Hia, Hinfo1.
Qed.

End PointerFacts.

(** ** Runs of stages as trees *)

Section ReorderFacts.

Context {carriers : Carriers} {runtime : Runtime}.

Lemma addressesOf_node (p : nat) (l r : option stageTree) :
  addressesOf (StageTree p l r)
  = p :: (addressesUnder l ++ addressesUnder r)%list.
Proof. reflexivity. Qed.

Lemma addressesUnder_chainTree (run : list (nat * option stageTree))
  (rest : option stageTree) :
  addressesUnder (chainTree run rest)
  ≡ₚ (map fst run ++ flat_map addressesUnder (map snd run)
      ++ addressesUnder rest)%list.
Proof.
  induction run as [| [p l] run IH]; [reflexivity |].
  cbn [chainTree addressesUnder map fst snd flat_map].
  rewrite addressesOf_node, IH. cbn [app]. apply perm_skip.
  rewrite !app_assoc. apply Permutation_app_tail.
  rewrite <- !app_assoc. rewrite (app_assoc (addressesUnder l)).
  rewrite (Permutation_app_comm (addressesUnder l)).
  now rewrite <- app_assoc.
Qed.

Lemma addressesUnder_leftChain (ptrs : list nat)
  (subtrees : list (option stageTree)) (bottom : option stageTree) :
  length subtrees = length ptrs ->
  addressesUnder (leftChain (zip ptrs subtrees) bottom)
  ≡ₚ (ptrs ++ flat_map addressesUnder subtrees
      ++ addressesUnder bottom)%list.
Proof.
  revert subtrees.
  induction ptrs as [| p ptrs IH]; intros [| r subtrees] Hlen;
    try discriminate Hlen; [reflexivity |].
  cbn [zip zip_with leftChain addressesUnder flat_map].
  rewrite addressesOf_node, IH by (cbn in Hlen; lia).
  cbn [app]. apply perm_skip.
  rewrite <- !app_assoc. apply Permutation_app_head.
  rewrite (Permutation_app_comm _ (addressesUnder r)).
  rewrite !app_assoc. apply Permutation_app_tail.
  apply Permutation_app_comm.
Qed.

Lemma rootOf_chainTree (run : list (nat * option stageTree))
  (rest : option stageTree) :
  option_map rootOf (chainTree run rest)
  = match run with
    | [] => option_map rootOf rest
    | (p, _) :: _ => Some p
    end.
Proof. now destruct run as [| [p l] run]. Qed.

Lemma rootOf_leftChain (run : list (nat * option stageTree))
  (bottom : option stageTree) :
  option_map rootOf (leftChain run bottom)
  = match run with
    | [] => option_map rootOf bottom
    | (p, _) :: _ => Some p
    end.
Proof. now destruct run as [| [p l] run]. Qed.

(** What a store that holds a chain says about the stages of the run. *)
Lemma chainTree_links (h : heap) (run : list (nat * option stageTree))
  (rest : option stageTree) :
  (forall t, chainTree run rest = Some t -> represents h t) ->
  (forall i p l, run !! i = Some (p, l) ->
      is_Some (h !! p)
      /\ leftAt h p = option_map rootOf l
      /\ rightAt h p = option_map rootOf (chainTree (drop (S i) run) rest)
      /\ (forall t, l = Some t -> represents h t))
  /\ (forall t, rest = Some t -> represents h t).
Proof.
  induction run as [| [p0 l0] run IH]; intros Hheld.
  - split; [intros i p l [=] | exact Hheld].
  - cbn [chainTree] in Hheld.
    destruct (Hheld _ eq_refl) as ((st & Hst & Hsl & Hsr) & Hl & Hr).
    destruct IH as [Hlinks Hrest].
    { intros t Ht. now rewrite Ht in Hr. }
    split; [| exact Hrest].
    intros [| i] p l Hi.
    + injection Hi as <- <-. cbn [drop]. split; [now exists st |].
      unfold leftAt, rightAt. rewrite Hst. cbn. repeat split; auto.
      intros t ->. exact Hl.
    + cbn [drop]. now apply Hlinks.
Qed.

(** A store that links a run down the left spine holds the left chain. *)
Lemma leftChain_held (h : heap) (ptrs : list nat) :
  forall (subtrees : list (option stageTree)) (bottom : option stageTree),
    length subtrees = length ptrs ->
    (forall i p, ptrs !! i = Some p ->
        is_Some (h !! p)
        /\ leftAt h p = match ptrs !! S i with
                        | Some next => Some next
                        | None => option_map rootOf bottom
                        end) ->
    map (rightAt h) ptrs = map (option_map rootOf) subtrees ->
    (forall r t, r ∈ subtrees -> r = Some t -> represents h t) ->
    (forall t, bottom = Some t -> represents h t) ->
    forall t, leftChain (zip ptrs subtrees) bottom = Some t ->
              represents h t.
Proof.
  induction ptrs as [| p ptrs IH]; intros [| r subtrees] bottom Hlen Hlinks
    Hrights Hsub Hbottom t Ht; try discriminate Hlen.
  - now apply Hbottom.
  - cbn [zip zip_with leftChain] in Ht. injection Ht as <-.
    cbn [map] in Hrights. injection Hrights as Hright Hrights.
    destruct (Hlinks 0 p eq_refl) as [[st Hst] Hleft].
    cbn [represents]. split; [| split].
    + exists st. split; [exact Hst |].
      unfold leftAt in Hleft. unfold rightAt in Hright.
      rewrite Hst in Hleft, Hright. cbn in Hleft, Hright.
      split; [| exact Hright].
      rewrite Hleft.
      change (zip_with pair ptrs subtrees) with (zip ptrs subtrees).
      rewrite rootOf_leftChain.
      destruct ptrs as [| next ptrs], subtrees as [| r' subtrees];
        try discriminate Hlen; reflexivity.
    + destruct (leftChain (zip_with pair ptrs subtrees) bottom) as [tl |]
        eqn:Hchain; [| exact I].
      apply (IH subtrees bottom); auto.
      * intros i q Hq. apply (Hlinks (S i) q Hq).
      * intros r' t' Hr'. apply Hsub. now right.
    + destruct r as [tr |]; [| exact I].
      apply (Hsub (Some tr) tr); [now left | reflexivity].
Qed.

(** A planned stage other than a literal stays planned whatever its
    children are. *)
Lemma plannedStage_info (st st' : evaluationStage) :
  plannedStage st -> st.(symbol) <> tLITERAL -> infoOf st' = infoOf st ->
  plannedStage st'.
Proof.
  intros Hplanned Hsymbol Hinfo.
  destruct st as [sym l r op cl cr cc fmt].
  destruct st' as [sym' l' r' op' cl' cr' cc' fmt'].
  injection Hinfo as -> -> -> -> -> ->.
  destruct Hplanned as [[x [= -> _ _ _]] | [Hnoop | Hop]].
  - now destruct Hsymbol.
  - right; left. exact Hnoop.
  - right; right. exact Hop.
Qed.

Lemma chainTree_lefts (h : heap) (run : list (nat * option stageTree))
  (rest : option stageTree) :
  (forall t, chainTree run rest = Some t -> represents h t) ->
  map (leftAt h) (map fst run) = map (option_map rootOf) (map snd run).
Proof.
  induction run as [| [p l] run IH]; intros Hheld; [reflexivity |].
  cbn [chainTree] in Hheld.
  destruct (Hheld _ eq_refl) as ((st & Hst & Hsl & Hsr) & Hl & Hr).
  cbn [map fst snd]. f_equal.
  - unfold leftAt. now rewrite Hst.
  - apply IH. intros t Ht. now rewrite Ht in Hr.
Qed.

(** The tree held by the store after [mirrorStageSubtree] has run on a
    run of two stages or more of a chain. *)
Lemma mirror_tree (h h' : heap) (p0 : nat) (l0 : option stageTree)
  (run : list (nat * option stageTree)) (rest : option stageTree) :
  run <> [] ->
  represents h (StageTree p0 l0 (chainTree run rest)) ->
  NoDup (addressesOf (StageTree p0 l0 (chainTree run rest))) ->
  plannedTree h (StageTree p0 l0 (chainTree run rest)) ->
  (forall p st, p ∈ p0 :: map fst run -> h !! p = Some st ->
                st.(symbol) <> tLITERAL) ->
  mirrored (p0 :: map fst run) h h' ->
  exists inner,
    reorderedInto h (Some (StageTree p0 l0 (chainTree run rest))) h'
      (Some (StageTree p0 inner rest)).
Proof.
  intros Hrun Hrep Hnd Hpl Hsymbols
    (Hlen & Hframe & Hleft & Hends & Hpermr & Hpermi).
  set (full := (p0, l0) :: run).
  set (ptrs := map fst run) in *.
  assert (Hheld : forall t, chainTree full rest = Some t -> represents h t)
    by (intros t [= <-]; exact Hrep).
  destruct (chainTree_links h full rest Hheld) as [Hlinks Hrest].
  pose proof (addressesUnder_chainTree full rest) as Haddr.
  cbn [full chainTree addressesUnder map fst snd flat_map] in Haddr.
  fold ptrs in Haddr.
  assert (Hnd' : NoDup ((p0 :: ptrs)
                        ++ (addressesUnder l0
                            ++ flat_map addressesUnder (map snd run))
                        ++ addressesUnder rest)%list)
    by now rewrite <- Haddr.
  apply NoDup_app in Hnd' as (Hndrun & Hdisj & Hndsub).
  assert (Hlook : forall i p, ptrs !! i = Some p ->
                              exists l, run !! i = Some (p, l)).
  { intros i p Hp. unfold ptrs in Hp.
    change (map fst run) with (fst <$> run) in Hp.
    rewrite list_lookup_fmap in Hp.
    destruct (run !! i) as [[q l] |]; [| discriminate].
    injection Hp as <-. now exists l. }
  (* the subtrees keep their stages *)
  assert (Hsubframe : forall q, q ∈ ((addressesUnder l0
                               ++ flat_map addressesUnder (map snd run))
                               ++ addressesUnder rest)%list ->
                              h' !! q = h !! q).
  { intros q Hq. apply Hframe. intros Hin. now apply (Hdisj q Hin). }
  assert (Hsub : forall r t, r ∈ l0 :: map snd run -> r = Some t ->
                             represents h' t).
  { intros r t Hr ->. apply elem_of_cons in Hr as [Heq | Hr].
    - destruct (Hlinks 0 p0 l0 eq_refl) as (_ & _ & _ & Hl).
      apply (represents_frame h); [now apply Hl |].
      intros q Hq. apply Hsubframe. rewrite !elem_of_app. left; left.
      now rewrite <- Heq.
    - change (map snd run) with (snd <$> run) in Hr.
      apply list_elem_of_fmap in Hr as ([p l] & Heq & Hin).
      cbn in Heq. subst l.
      apply list_elem_of_lookup in Hin as [i Hi].
      destruct (Hlinks (S i) p (Some t) Hi) as (_ & _ & _ & Hl).
      apply (represents_frame h); [now apply Hl |].
      intros q Hq. apply Hsubframe. rewrite !elem_of_app. left; right.
      apply list_elem_of_In, in_flat_map. exists (Some t).
      split; [| now apply list_elem_of_In].
      apply in_map_iff. exists (p, Some t). split; [reflexivity |].
      apply list_elem_of_In. now apply list_elem_of_lookup_2 in Hi. }
  (* the subtrees under the new right pointers *)
  cbn [tail] in Hpermr.
  assert (Hlefts : map (leftAt h) ptrs
                   = map (option_map rootOf) (map snd run)).
  { apply (chainTree_lefts h run rest). intros t Ht.
    cbn [represents] in Hrep. destruct Hrep as (_ & _ & Hr).
    now rewrite Ht in Hr. }
  rewrite Hlefts in Hpermr.
  apply Permutation_map_inv in Hpermr as (subtrees & Hrights & Hperm).
  assert (Hlens : length subtrees = length ptrs).
  { pose proof (f_equal length Hrights) as Hboth.
    rewrite !length_map in Hboth. now symmetry. }
  exists (leftChain (zip ptrs subtrees) l0).
  assert (Hsome : forall p, p ∈ p0 :: ptrs -> is_Some (h' !! p)).
  { intros p Hp. apply lookup_lt_is_Some. rewrite Hlen.
    apply elem_of_cons in Hp as [-> | Hp].
    - destruct (Hlinks 0 p0 l0 eq_refl) as (Hs & _).
      now apply lookup_lt_is_Some.
    - apply list_elem_of_lookup in Hp as [i Hi].
      destruct (Hlook i p Hi) as [l Hl].
      destruct (Hlinks (S i) p l Hl) as (Hs & _).
      now apply lookup_lt_is_Some. }
  assert (Hinner : forall t, leftChain (zip ptrs subtrees) l0 = Some t ->
                             represents h' t).
  { apply leftChain_held; auto.
    - intros i p Hp. split.
      { apply Hsome. right. now apply list_elem_of_lookup_2 in Hp. }
      destruct (Hlook i p Hp) as [l Hl].
      destruct (ptrs !! S i) as [next |] eqn:Hnext.
      + rewrite (Hleft (S i) p Hp).
        2:{ cbn [length]. apply lookup_lt_Some in Hnext. lia. }
        destruct (Hlinks (S i) p l Hl) as (_ & _ & -> & _).
        cbn [full drop]. destruct (Hlook (S i) next Hnext) as [l' Hl'].
        rewrite (drop_S run (next, l') (S i) Hl'). reflexivity.
      + assert (Hlast : last (p0 :: ptrs) = Some p).
        { rewrite last_lookup. cbn [length pred].
          apply lookup_ge_None in Hnext. apply lookup_lt_Some in Hp as Hlt.
          replace (length ptrs) with (S i) by lia. exact Hp. }
        destruct (Hends p0 p eq_refl Hlast) as [-> _].
        now destruct (Hlinks 0 p0 l0 eq_refl) as (_ & -> & _).
    - intros r t Hr. apply Hsub. right. now rewrite Hperm.
    - intros t. apply Hsub. now left. }
  assert (Hnewaddr : addressesOf (StageTree p0
                       (leftChain (zip ptrs subtrees) l0) rest)
                     ≡ₚ addressesOf (StageTree p0 l0 (chainTree run rest))).
  { rewrite Haddr, addressesOf_node.
    rewrite (addressesUnder_leftChain ptrs subtrees l0 Hlens).
    cbn [app]. apply perm_skip. rewrite <- Hperm.
    rewrite <- !app_assoc. apply Permutation_app_head.
    rewrite !app_assoc. apply Permutation_app_tail.
    apply Permutation_app_comm. }
  split; [reflexivity |]. split; [| split; [| split]].
  - intros t' [= <-]. split.
    + cbn [represents]. split; [| split].
      * destruct (Hsome p0) as [st' Hst']; [now left |].
        exists st'. split; [exact Hst' |].
        assert (Hl' : leftAt h' p0 = leftStage st')
          by (unfold leftAt; now rewrite Hst').
        assert (Hr' : rightAt h' p0 = rightStage st')
          by (unfold rightAt; now rewrite Hst').
        rewrite <- Hl', <- Hr'. split.
        -- rewrite (Hleft 0 p0 eq_refl).
           2:{ cbn [length]. unfold ptrs. rewrite length_map.
               destruct run; [contradiction | cbn; lia]. }
           destruct (Hlinks 0 p0 l0 eq_refl) as (_ & _ & -> & _).
           cbn [full drop]. rewrite rootOf_chainTree, rootOf_leftChain.
           unfold ptrs in *. destruct run as [| [p1 l1] run];
             [contradiction |].
           destruct subtrees; [discriminate Hlens | reflexivity].
        -- destruct (last (p0 :: ptrs)) as [final |] eqn:Hlast.
           2:{ rewrite last_lookup in Hlast. cbn [length pred] in Hlast.
               apply lookup_ge_None in Hlast. cbn [length] in Hlast. lia. }
           destruct (Hends p0 final eq_refl eq_refl) as [_ ->].
           rewrite last_lookup in Hlast. cbn [length pred] in Hlast.
           assert (Hfull : exists l, full !! length ptrs = Some (final, l)).
           { unfold full. destruct (length ptrs) as [| k] eqn:Hk.
             - cbn in Hlast. injection Hlast as <-. now exists l0.
             - apply (Hlook k final Hlast). }
           destruct Hfull as [l Hfull].
           destruct (Hlinks _ _ _ Hfull) as (_ & _ & -> & _).
           rewrite drop_ge; [reflexivity |].
           unfold full, ptrs. cbn [length]. rewrite length_map. lia.
      * destruct (leftChain (zip ptrs subtrees) l0) as [ti |] eqn:Hchain;
          [| exact I]. now apply Hinner.
      * destruct rest as [tr |]; [| exact I].
        apply (represents_frame h); [now apply Hrest |].
        intros q Hq. apply Hsubframe. rewrite !elem_of_app. now right.
    + intros q st' Hq Hst'. rewrite Hnewaddr in Hq.
      destruct (decide (q ∈ p0 :: ptrs)) as [Hin | Hout].
      * assert (Hinfo : Some (infoOf st') ∈ map (infoAt h') (p0 :: ptrs)).
        { apply list_elem_of_In, in_map_iff. exists q.
          split; [| now apply list_elem_of_In].
          unfold infoAt. now rewrite Hst'. }
        rewrite Hpermi in Hinfo.
        apply list_elem_of_In, in_map_iff in Hinfo as (p & Hp & Hpin).
        apply list_elem_of_In in Hpin.
        unfold infoAt in Hp. destruct (h !! p) as [st |] eqn:Hst;
          [| discriminate].
        cbn [fmap option_fmap option_map] in Hp. apply (inj Some) in Hp.
        apply (plannedStage_info st st'); [| | now symmetry].
        -- apply (Hpl p st); [| exact Hst].
           rewrite Haddr. rewrite elem_of_app. now left.
        -- now apply (Hsymbols p st).
      * apply (Hpl q st' Hq). now rewrite <- (Hframe q Hout).
  - cbn [addressesUnder]. exact Hnewaddr.
  - intros q Hq. apply Hframe. intros Hin. apply Hq.
    cbn [addressesUnder]. rewrite Haddr, elem_of_app. now left.
  - exact Hlen.
Qed.

(** *** Composing reorderings *)

Lemma holdsPlanned_children (h : heap) (p : nat) (l r : option stageTree) :
  holdsPlanned h 0 (Some (StageTree p l r)) ->
  holdsPlanned h 0 l /\ holdsPlanned h 0 r.
Proof.
  intros Hheld. destruct (Hheld _ eq_refl) as (Hrep & Hnd & _ & Hpl).
  destruct Hrep as (_ & Hl & Hr).
  destruct (NoDup_addressesOf_node p l r Hnd) as (Hndl & Hndr & _).
  split; intros t ->; (split; [assumption |]); (split; [| split]).
  - apply (Hndl t eq_refl).
  - intros q _. lia.
  - intros q st Hq. apply Hpl. apply elem_of_addressesOf_node.
    right; left. eauto.
  - apply (Hndr t eq_refl).
  - intros q _. lia.
  - intros q st Hq. apply Hpl. apply elem_of_addressesOf_node.
    right; right. eauto.
Qed.

Lemma holdsPlanned_chain_rest (h : heap)
  (run : list (nat * option stageTree)) (rest : option stageTree) :
  holdsPlanned h 0 (chainTree run rest) -> holdsPlanned h 0 rest.
Proof.
  induction run as [| [p l] run IH]; intros Hheld; [exact Hheld |].
  apply IH. now apply (holdsPlanned_children h p l).
Qed.

Lemma reorderedInto_refl (h : heap) (o : option stageTree) :
  holdsPlanned h 0 o -> reorderedInto h o h o.
Proof.
  intros Hheld. split; [reflexivity |]. split; [| now repeat split].
  intros t Ht. now destruct (Hheld t Ht) as (Hrep & _ & _ & Hpl).
Qed.

Lemma reorderedInto_trans (h h1 h2 : heap) (o o1 o2 : option stageTree) :
  reorderedInto h o h1 o1 -> reorderedInto h1 o1 h2 o2 ->
  reorderedInto h o h2 o2.
Proof.
  intros (Hroot1 & _ & Hperm1 & Hframe1 & Hlen1)
         (Hroot2 & Hheld2 & Hperm2 & Hframe2 & Hlen2).
  split; [congruence |]. split; [exact Hheld2 |].
  split; [now rewrite Hperm2 |]. split; [| congruence].
  intros q Hq. rewrite Hframe2 by now rewrite Hperm1. now apply Hframe1.
Qed.

Lemma reorderedInto_held (h h' : heap) (o o' : option stageTree) :
  reorderedInto h o h' o' -> NoDup (addressesUnder o) ->
  holdsPlanned h' 0 o'.
Proof.
  intros (_ & Hheld & Hperm & _ & _) Hnd t ->.
  destruct (Hheld t eq_refl) as [Hrep Hpl].
  split; [exact Hrep |]. split; [| split; [intros q _; lia | exact Hpl]].
  cbn [addressesUnder] in Hperm. now rewrite Hperm.
Qed.

Lemma holdsPlanned_NoDup (h : heap) (o : option stageTree) :
  holdsPlanned h 0 o -> NoDup (addressesUnder o).
Proof.
  intros Hheld. destruct o as [t |]; [| apply NoDup_nil_2].
  now destruct (Hheld t eq_refl) as (_ & Hnd & _).
Qed.

(** Reordering under a stage: the children are replaced by trees with the
    same roots and addresses, and nothing else changes. *)
Lemma reorderedInto_node (h h' : heap) (p : nat)
  (l r l' r' : option stageTree) :
  holdsPlanned h 0 (Some (StageTree p l r)) ->
  option_map rootOf l' = option_map rootOf l ->
  option_map rootOf r' = option_map rootOf r ->
  (forall t, l' = Some t -> represents h' t /\ plannedTree h' t) ->
  (forall t, r' = Some t -> represents h' t /\ plannedTree h' t) ->
  addressesUnder l' ≡ₚ addressesUnder l ->
  addressesUnder r' ≡ₚ addressesUnder r ->
  (forall q, q ∉ (addressesUnder l ++ addressesUnder r)%list ->
             h' !! q = h !! q) ->
  length h' = length h ->
  reorderedInto h (Some (StageTree p l r)) h' (Some (StageTree p l' r')).
Proof.
  intros Hheld Hrl Hrr Hl' Hr' Hpl Hpr Hframe Hlen.
  destruct (Hheld _ eq_refl) as (Hrep & Hnd & _ & Hplanned).
  destruct Hrep as ((st & Hst & Hsl & Hsr) & _ & _).
  rewrite addressesOf_node in Hnd. apply NoDup_cons in Hnd as [Hp Hnd].
  assert (Hst' : h' !! p = Some st) by now rewrite Hframe.
  split; [reflexivity |]. split; [| split; [| split]].
  - intros t' [= <-]. split.
    + cbn [represents]. split; [| split].
      * exists st. split; [exact Hst' |]. split; congruence.
      * destruct l' as [tl |]; [| exact I]. apply (Hl' tl eq_refl).
      * destruct r' as [tr |]; [| exact I]. apply (Hr' tr eq_refl).
    + intros q st0 Hq Hst0. apply elem_of_addressesOf_node in Hq.
      destruct Hq as [-> | [(t & -> & Hq) | (t & -> & Hq)]].
      * rewrite Hst' in Hst0. injection Hst0 as <-.
        apply (Hplanned p st); [| exact Hst].
        apply elem_of_addressesOf_node. now left.
      * destruct (Hl' t eq_refl) as [_ Hplt]. now apply (Hplt q).
      * destruct (Hr' t eq_refl) as [_ Hplt]. now apply (Hplt q).
  - cbn [addressesUnder]. rewrite !addressesOf_node. now rewrite Hpl, Hpr.
  - intros q Hq. apply Hframe. intros Hin. apply Hq.
    cbn [addressesUnder]. rewrite addressesOf_node. now right.
  - exact Hlen.
Qed.

Lemma reorderedInto_left (h h' : heap) (p : nat)
  (l r l' : option stageTree) :
  holdsPlanned h 0 (Some (StageTree p l r)) ->
  reorderedInto h l h' l' ->
  reorderedInto h (Some (StageTree p l r)) h' (Some (StageTree p l' r)).
Proof.
  intros Hheld (Hroot & Hheld' & Hperm & Hframe & Hlen).
  destruct (holdsPlanned_children h p l r Hheld) as [_ Hr].
  destruct (Hheld _ eq_refl) as (_ & Hnd & _).
  rewrite addressesOf_node in Hnd. apply NoDup_cons in Hnd as [_ Hnd].
  apply NoDup_app in Hnd as (_ & Hdisj & _).
  apply reorderedInto_node; auto.
  - intros t ->. destruct (Hr t eq_refl) as (Hrep & _ & _ & Hplt).
    assert (Hagree : forall q, q ∈ addressesOf t -> h' !! q = h !! q).
    { intros q Hq. apply Hframe. intros Hin. now apply (Hdisj q Hin). }
    split; [now apply (represents_frame h) | now apply (plannedTree_frame h)].
  - intros q Hq. apply Hframe. intros Hin. apply Hq.
    rewrite elem_of_app. now left.
Qed.

Lemma reorderedInto_right (h h' : heap) (p : nat)
  (l r r' : option stageTree) :
  holdsPlanned h 0 (Some (StageTree p l r)) ->
  reorderedInto h r h' r' ->
  reorderedInto h (Some (StageTree p l r)) h' (Some (StageTree p l r')).
Proof.
  intros Hheld (Hroot & Hheld' & Hperm & Hframe & Hlen).
  destruct (holdsPlanned_children h p l r Hheld) as [Hl _].
  destruct (Hheld _ eq_refl) as (_ & Hnd & _).
  rewrite addressesOf_node in Hnd. apply NoDup_cons in Hnd as [_ Hnd].
  apply NoDup_app in Hnd as (_ & Hdisj & _).
  apply reorderedInto_node; auto.
  - intros t ->. destruct (Hl t eq_refl) as (Hrep & _ & _ & Hplt).
    assert (Hagree : forall q, q ∈ addressesOf t -> h' !! q = h !! q).
    { intros q Hq. apply Hframe. now apply Hdisj. }
    split; [now apply (represents_frame h) | now apply (plannedTree_frame h)].
  - intros q Hq. apply Hframe. intros Hin. apply Hq.
    rewrite elem_of_app. now right.
Qed.

Lemma reorderedInto_chain_rest (h h' : heap)
  (run : list (nat * option stageTree)) (rest rest' : option stageTree) :
  holdsPlanned h 0 (chainTree run rest) ->
  reorderedInto h rest h' rest' ->
  reorderedInto h (chainTree run rest) h' (chainTree run rest').
Proof.
  induction run as [| [p l] run IH]; intros Hheld Hrest; [exact Hrest |].
  cbn [chainTree] in *. apply reorderedInto_right; [exact Hheld |].
  apply IH; [| exact Hrest]. now apply (holdsPlanned_children h p l).
Qed.

Lemma chainTree_app (run : list (nat * option stageTree)) (p : nat)
  (l rest : option stageTree) :
  chainTree (run ++ [(p, l)])%list rest
  = chainTree run (Some (StageTree p l rest)).
Proof.
  induction run as [| [q k] run IH]; [reflexivity |].
  cbn [app chainTree]. now rewrite IH.
Qed.

(** *** [reorderStages] on a planned tree *)

Lemma plannedStage_parent_precedence (st : evaluationStage) :
  plannedStage st -> is_Some st.(rightStage) ->
  findOperatorPrecedenceForSymbol st.(symbol) <> valuePrecedence.
Proof.
  intros [[x ->] | [(Hsym & _) | (Hsome & _)]] Hright.
  - now destruct Hright.
  - now rewrite Hsym.
  - destruct (symbol st); try discriminate; now destruct Hsome.
Qed.

Lemma mirrorIfRun_tree (h h' : heap) (run : list (nat * option stageTree))
  (rest : option stageTree) (prec : operatorPrecedence) :
  holdsPlanned h 0 (chainTree run rest) ->
  (forall p, p ∈ map fst run -> precedenceAt h p = Some prec) ->
  mirrorIfRun (map fst run) h = Done h' ->
  (forall q, q ∉ map fst run -> h' !! q = h !! q)
  /\ exists run',
      reorderedInto h (chainTree run rest) h' (chainTree run' rest).
Proof.
  intros Hheld Hprec Hrun. unfold mirrorIfRun in Hrun.
  destruct (1 <? length (map fst run))%nat eqn:Hlong.
  2:{ injection Hrun as <-. split; [reflexivity |].
      exists run. now apply reorderedInto_refl. }
  apply Nat.ltb_lt in Hlong.
  destruct run as [| [p0 l0] run]; [cbn in Hlong; lia |].
  cbn [map fst length] in Hlong, Hrun, Hprec |- *.
  assert (Hne : run <> []) by (intros ->; cbn in Hlong; lia).
  cbn [chainTree] in Hheld |- *.
  destruct (Hheld _ eq_refl) as (Hrep & Hnd & _ & Hpl).
  pose proof (addressesUnder_chainTree ((p0, l0) :: run) rest) as Haddr.
  cbn [chainTree addressesUnder map fst] in Haddr.
  assert (Hndrun : NoDup (p0 :: map fst run)).
  { rewrite Haddr in Hnd. now apply NoDup_app in Hnd as (Hndrun & _). }
  assert (Hmirrored : mirrored (p0 :: map fst run) h h').
  { apply mirrorStageSubtree_mirrored; auto; cbn [length]; lia. }
  split; [now destruct Hmirrored as (_ & Hframe & _) |].
  destruct (mirror_tree h h' p0 l0 run rest Hne Hrep Hnd Hpl)
    as [inner Hinner]; [| exact Hmirrored |].
  - intros p st Hp Hst Hliteral.
    destruct Hrep as ((st0 & Hst0 & _ & Hsr) & _ & _).
    assert (Hp0 : precedenceAt h p0 = Some prec)
      by (apply Hprec; now left).
    specialize (Hprec p Hp). unfold precedenceAt in Hprec, Hp0.
    rewrite Hst in Hprec. rewrite Hst0 in Hp0.
    cbn in Hprec, Hp0. rewrite Hliteral in Hprec.
    apply (plannedStage_parent_precedence st0).
    + apply (Hpl p0 st0); [| exact Hst0].
      apply elem_of_addressesOf_node. now left.
    + rewrite Hsr, rootOf_chainTree.
      destruct run as [| [p1 l1] run]; [contradiction | now eexists].
    + cbn in Hprec. congruence.
  - now exists [(p0, inner)].
Qed.

Lemma reorderStages_unfold (fuel : nat) (rootPtr : nat) (h : heap) :
  reorderStages (S fuel) (Some rootPtr) h
  = (root ← load h rootPtr;
     reorderStages_loop fuel [] (Some rootPtr)
       (findOperatorPrecedenceForSymbol root.(symbol)) h).
Proof. reflexivity. Qed.

Lemma reorderStages_loop_unfold (fuel : nat) (run : list nat)
  (nextStage : option nat) (precedence : operatorPrecedence) (h : heap) :
  reorderStages_loop (S fuel) run nextStage precedence h
  = match nextStage with
    | None => mirrorIfRun run h
    | Some currentStage =>
        current ← load h currentStage;
        let nextStage := current.(rightStage) in
        h ← match current.(leftStage) with
            | Some leftPtr => reorderStages fuel (Some leftPtr) h
            | None => Done h
            end;
        current ← load h currentStage;
        let currentPrecedence :=
          findOperatorPrecedenceForSymbol current.(symbol) in
        if decide (currentPrecedence = precedence) then
          reorderStages_loop fuel (run ++ [currentStage])%list nextStage
            precedence h
        else
          h ← mirrorIfRun run h;
          reorderStages_loop fuel [currentStage] nextStage
            currentPrecedence h
    end.
Proof. reflexivity. Qed.

(** [reorderStages] and its loop turn a planned tree into a planned tree
    with the same root and the same addresses. *)
Lemma reorder_tree (fuel : nat) :
  (forall run rest prec h h',
      holdsPlanned h 0 (chainTree run rest) ->
      (forall p, p ∈ map fst run -> precedenceAt h p = Some prec) ->
      reorderStages_loop fuel (map fst run) (option_map rootOf rest) prec h
      = Done h' ->
      exists o', reorderedInto h (chainTree run rest) h' o')
  /\ (forall t h h',
        holdsPlanned h 0 (Some t) ->
        reorderStages fuel (Some (rootOf t)) h = Done h' ->
        exists o', reorderedInto h (Some t) h' o').
Proof.
  induction fuel as [| fuel [IHloop IHreorder]];
    [split; intros; discriminate |].
  split.
  - intros run rest prec h h' Hheld Hprec Hrun.
    rewrite reorderStages_loop_unfold in Hrun.
    destruct rest as [[c lc rc] |]; cbn [option_map rootOf] in Hrun.
    2:{ destruct (mirrorIfRun_tree h h' run None prec Hheld Hprec Hrun)
          as [_ [run' Hrun']].
        now exists (chainTree run' None). }
    (* the current stage *)
    pose proof (holdsPlanned_chain_rest h run _ Hheld) as Hc.
    destruct (Hc _ eq_refl) as (Hrepc & Hndc & _ & Hplc).
    pose proof Hrepc as ((st & Hst & Hsl & Hsr) & Hlc & Hrc).
    rewrite (proj2 (load_Done h c st) Hst) in Hrun.
    cbn [mbind outcome_bind] in Hrun. cbn zeta in Hrun.
    rewrite Hsl, Hsr in Hrun.
    pose proof (addressesUnder_chainTree run (Some (StageTree c lc rc)))
      as Haddr.
    cbn [addressesUnder] in Haddr. rewrite addressesOf_node in Haddr.
    pose proof (holdsPlanned_NoDup h _ Hheld) as Hnd.
    assert (Hsep : forall p, p ∈ map fst run ->
                             p ∉ c :: (addressesUnder lc
                                       ++ addressesUnder rc)%list).
    { rewrite Haddr in Hnd. apply NoDup_app in Hnd as (_ & Hdisj & _).
      intros p Hp Hin. apply (Hdisj p Hp). rewrite elem_of_app. now right. }
    assert (Hcl : c ∉ addressesUnder lc).
    { rewrite addressesOf_node in Hndc. apply NoDup_cons in Hndc as [Hn _].
      intros Hin. apply Hn. rewrite elem_of_app. now left. }
    (* the left subtree *)
    match type of Hrun with
    | (?m ≫= _) = _ => destruct m as [h1 | | |] eqn:Hleft; try discriminate
    end.
    cbn [mbind outcome_bind] in Hrun.
    assert (Hl1 : exists lc', reorderedInto h lc h1 lc').
    { destruct lc as [tl |]; cbn [option_map] in Hleft.
      - apply (IHreorder tl h h1); [| exact Hleft].
        apply (holdsPlanned_children h c (Some tl) rc Hc).
      - injection Hleft as <-. exists None.
        apply reorderedInto_refl, holdsPlanned_none. }
    destruct Hl1 as [lc' Hl1].
    assert (R1 : reorderedInto h (chainTree run (Some (StageTree c lc rc)))
                   h1 (chainTree run (Some (StageTree c lc' rc)))).
    { apply reorderedInto_chain_rest; [exact Hheld |].
      now apply reorderedInto_left. }
    pose proof (reorderedInto_held _ _ _ _ R1 Hnd) as Hheld1.
    destruct Hl1 as (_ & _ & _ & Hframe1 & _).
    assert (Hst1 : h1 !! c = Some st) by now rewrite Hframe1.
    rewrite (proj2 (load_Done h1 c st) Hst1) in Hrun.
    cbn [mbind outcome_bind] in Hrun. cbn zeta in Hrun.
    assert (Hprec1 : forall p, p ∈ map fst run ->
                               precedenceAt h1 p = Some prec).
    { intros p Hp. rewrite <- (Hprec p Hp). apply at_unchanged.
      apply Hframe1. intros Hin. apply (Hsep p Hp).
      right. rewrite elem_of_app. now left. }
    assert (Hcrun : c ∉ map fst run).
    { intros Hin. apply (Hsep c Hin). now left. }
    assert (Hprecc : forall h0, h0 !! c = Some st ->
               precedenceAt h0 c
               = Some (findOperatorPrecedenceForSymbol (symbol st))).
    { intros h0 Hh0. unfold precedenceAt. now rewrite Hh0. }
    destruct (decide (findOperatorPrecedenceForSymbol (symbol st) = prec))
      as [Hsame | Hbreak].
    + (* the run goes on *)
      destruct (IHloop (run ++ [(c, lc')])%list rc prec h1 h') as [o' Ho'].
      * now rewrite chainTree_app.
      * intros p Hp. rewrite map_app in Hp. apply elem_of_app in Hp
          as [Hp | Hp]; [now apply Hprec1 |].
        cbn in Hp. apply list_elem_of_singleton in Hp as ->.
        rewrite (Hprecc h1 Hst1). now f_equal.
      * rewrite map_app. exact Hrun.
      * rewrite chainTree_app in Ho'. exists o'.
        exact (reorderedInto_trans _ _ _ _ _ _ R1 Ho').
    + (* the precedence breaks *)
      destruct (mirrorIfRun (map fst run) h1) as [h2 | | |] eqn:Hmirror;
        try discriminate.
      cbn [mbind outcome_bind] in Hrun.
      destruct (mirrorIfRun_tree h1 h2 run (Some (StageTree c lc' rc)) prec
                  Hheld1 Hprec1 Hmirror) as [Hframe2 [run' R2]].
      pose proof (reorderedInto_held _ _ _ _ R2
                    (holdsPlanned_NoDup h1 _ Hheld1)) as Hheld2.
      assert (Hst2 : h2 !! c = Some st) by now rewrite Hframe2.
      destruct (IHloop [(c, lc')] rc
                  (findOperatorPrecedenceForSymbol (symbol st)) h2 h')
        as [oc R3].
      * exact (holdsPlanned_chain_rest h2 run' _ Hheld2).
      * intros p Hp. cbn in Hp. apply list_elem_of_singleton in Hp as ->.
        now apply Hprecc.
      * exact Hrun.
      * exists (chainTree run' oc).
        apply (reorderedInto_trans _ _ _ _ _ _ R1).
        apply (reorderedInto_trans _ _ _ _ _ _ R2).
        now apply reorderedInto_chain_rest.
  - intros [p l r] h h' Hheld Hrun. rewrite reorderStages_unfold in Hrun.
    destruct (Hheld _ eq_refl) as (((st & Hst & _) & _) & _).
    cbn [rootOf] in Hrun. rewrite (proj2 (load_Done h p st) Hst) in Hrun.
    cbn [mbind outcome_bind] in Hrun.
    apply (IHloop [] (Some (StageTree p l r))
             (findOperatorPrecedenceForSymbol (symbol st)) h h');
      [exact Hheld | | exact Hrun].
    intros q Hq. now apply not_elem_of_nil in Hq.
Qed.

(** The store of a compiled expression without variables, functions or
    accessors holds a planned tree at its root, before the fold. *)
Lemma reordered_plan_is_planned_tree (input : list tExpressionToken)
  (fuel fuel' : nat) (root : nat) (stream : tokenStream) (h0 h : heap) :
  constantTokens input ->
  precedentOf fuel PlanTokens (newTokenStream input) []
  = Done (Some root, stream, h0) ->
  reorderStages fuel' (Some root) h0 = Done h ->
  exists t, rootOf t = root /\ represents h t /\ NoDup (addressesOf t)
            /\ plannedTree h t.
Proof.
  intros Hconstant Hplan Hreorder.
  destruct (planner_builds_planned_tree fuel input root stream h0 Hconstant
              Hplan) as (t0 & <- & Hrep0 & Hnd0 & Hpl0).
  assert (Hheld0 : holdsPlanned h0 0 (Some t0)).
  { intros t [= <-]. repeat split; auto. intros q _. lia. }
  destruct (proj2 (reorder_tree fuel') t0 h0 h Hheld0 Hreorder)
    as [o' Hinto].
  pose proof (reorderedInto_held _ _ _ _ Hinto
                (holdsPlanned_NoDup h0 _ Hheld0)) as Hheld.
  destruct Hinto as (Hroot & _).
  destruct o' as [t |]; [| discriminate Hroot].
  injection Hroot as Hroot. exists t.
  destruct (Hheld t eq_refl) as (Hrep & Hnd & _ & Hpl). now repeat split.
Qed.

(** C2: constant folding is transparent.  For the tokens of an
    expression without variables, functions or accessors: once the planner
    and [reorderStages] have returned the stage tree, [elideLiterals]
    returns too, so that [planStages] compiles the expression, and
    evaluating the folded tree gives the same outcome, value or error, as
    evaluating the tree before the fold, whatever the parameters and the
    type-check flag; that outcome is a result of the evaluation, not an
    exhausted bound.  In any store, the folder [elideStage] replaces a
    stage by a LITERAL stage of value [v] exactly when both children exist
    and are LITERAL stages, the symbol is neither SEPARATE nor IN, and the
    type checks and the operator succeed with [v]; in every other case in
    which it returns the stage is left unchanged, and it never reports an
    error. *)
Theorem C2_constant_folding_is_transparent
  (input : list tExpressionToken) (root : nat) (stream : tokenStream)
  (h0 h : heap) :
  constantTokens input ->
  precedentOf (planFuel input) PlanTokens (newTokenStream input) []
  = Done (Some root, stream, h0) ->
  reorderStages (walkFuel h0) (Some root) h0 = Done h ->
  (exists root' h',
      elideLiterals (walkFuel h) root h = Done (root', h')
      /\ planStages input = Done (Some root', h')
      /\ forall checksTypes parameters,
          evaluateStage (walkFuel h') checksTypes h' root' parameters
          = evaluateStage (walkFuel h) checksTypes h root parameters
          /\ evaluateStage (walkFuel h) checksTypes h root parameters
             <> OutOfFuel)
  /\ (forall (store : heap) (p : nat) (st : evaluationStage),
        store !! p = Some st ->
        (forall v, foldsTo store st v
                   <-> elideStage p store
                       = Done (length store,
                               (store ++ [literalStage v])%list))
        /\ ((forall v, ~ foldsTo store st v) ->
            forall res, elideStage p store = Done res -> res = (p, store))
        /\ (forall err, elideStage p store <> Fail err)).
Proof.
  intros Hconstant Hplan Hreorder.
  split; [| intros store p st; apply elideStage_characterized].
  destruct (reordered_plan_is_planned_tree input _ _ root stream h0 h
              Hconstant Hplan Hreorder) as (t & <- & Hrep & Hnd & Hpl).
  destruct (folded_tree_is_transparent h t Hrep Hnd Hpl)
    as (root' & h' & Hfold & Hsame).
  exists root', h'. split; [exact Hfold |]. split; [| exact Hsame].
  unfold planStages. rewrite Hplan. cbn [mbind outcome_bind].
  rewrite Hreorder. cbn [mbind outcome_bind]. now rewrite Hfold.
Qed.

End ReorderFacts.

(** * Examples on the whole-number runtime *)

Section Examples.

#[local] Existing Instance wholeCarriers.
#[local] Existing Instance wholeRuntime.

Example evaluates_sum_and_product : Eval "2 + 3 * 4" = Done (VFloat 14%Z).
Proof. vm_compute. reflexivity. Qed.

Example evaluates_subtractions_in_order :
  Eval "10 - 3 - 2" = Done (VFloat 5%Z).
Proof. vm_compute. reflexivity. Qed.

Example evaluates_powers_in_order : Eval "2 ** 3 ** 2" = Done (VFloat 64%Z).
Proof. vm_compute. reflexivity. Qed.

Example evaluates_membership : Eval "1 in (1, 2, 3)" = Done (VBool true).
Proof. vm_compute. reflexivity. Qed.

Example missing_parameter_gives_false :
  Eval "missing ?? 7" = Done (VBool false).
Proof. vm_compute. reflexivity. Qed.

Example lowercase_segment_is_rejected :
  parseTokens "user.name" ∅
  = Fail "Unable to access unexported field 'name' in token 'user.name'".
Proof. vm_compute. reflexivity. Qed.

Lemma C4_witness :
  adjacentLegal tUNKNOWN (map Kind regexTokens)
  /\ Forall hasValue regexTokens
  /\ eofKind (List.last (map Kind regexTokens) tUNKNOWN).
Proof.
  apply (proj1 (proj1 (C4_checkExpressionSyntax_accepts_and_rejects
                         regexTokens))).
  vm_compute. reflexivity.
Defined.

Example undefined_function_is_reported :
  checkExpressionSyntax
    [mkToken tVARIABLE (VString "f"); mkToken tCLAUSE (VRune "(")]
  = Fail "Undefined function f".
Proof. vm_compute. reflexivity. Qed.

Example illegal_transition_is_reported :
  checkExpressionSyntax
    [mkToken tSTRING (VString "a"); mkToken tSTRING (VString "b")]
  = Fail "Cannot transition token types from tSTRING [a] to tSTRING [b]".
Proof. vm_compute. reflexivity. Qed.

Lemma regexTokens_stringValued : Forall stringValued regexTokens.
Proof. repeat constructor; intros _; eexists; reflexivity. Defined.

Lemma C6_witness :
  checkExpressionSyntax regexTokens = Done ()
  /\ Forall stringValued regexTokens
  /\ optimizeTokens regexTokens
     = Done [mkToken tVARIABLE (VString "x");
             mkToken tCOMPARATOR (VString "=~");
             mkToken tPATTERN (VPattern "a")].
Proof.
  split; [vm_compute; reflexivity | split; [apply regexTokens_stringValued |]].
  rewrite (proj1 (C6_optimizeTokens_compiles_regex_followers regexTokens
                    eq_refl regexTokens_stringValued)).
  reflexivity.
Defined.

Lemma C10_witness :
  checkExpressionSyntax regexTokens = Done ()
  /\ optimizeTokens regexTokens <> Panic IndexOutOfRange.
Proof.
  split; [vm_compute; reflexivity |].
  apply (C10_optimizeTokens_index_in_range regexTokens). vm_compute.
  reflexivity.
Defined.

Lemma C3_witness :
  andStore !! 1
  = Some (mkStage tAND (Some 0) (Some 7) (Some andStage) (Some isBool)
            (Some isBool) None "not a bool")
  /\ evaluateStageLog 1 true andStore 0 tDUMMY_PARAMETERS
     = ([0], Done (VBool false))
  /\ evaluateStageLog 2 true andStore 1 tDUMMY_PARAMETERS
     = ([1; 0], Done (VBool false)).
Proof.
  split; [reflexivity | split; [reflexivity |]].
  exact (proj1 (proj1 (proj2 (proj2
           (C3_short_circuit_before_right_child 1 true andStore 1 _
              tDUMMY_PARAMETERS [0] (Done (VBool false)) eq_refl eq_refl)))
           (VBool false) eq_refl) eq_refl eq_refl).
Defined.

Lemma C1_witness :
  literalToken (mkToken tNUMERIC (VFloat 10%Z))
  /\ literalToken (mkToken tNUMERIC (VFloat 3%Z))
  /\ literalToken (mkToken tNUMERIC (VFloat 2%Z))
  /\ In "-" ["-"; "/"; "%"; "**"; "<<"; ">>"]
  /\ evaluateTokens
       [mkToken tNUMERIC (VFloat 10%Z); mkToken tMODIFIER (VString "-");
        mkToken tNUMERIC (VFloat 3%Z); mkToken tMODIFIER (VString "-");
        mkToken tNUMERIC (VFloat 2%Z)] None
     = Done (VFloat 5%Z).
Proof.
  assert (Hlit : forall z : Z, literalToken (mkToken tNUMERIC (VFloat z)))
    by (intros z; left; now exists z).
  split; [apply Hlit |]. split; [apply Hlit |]. split; [apply Hlit |].
  split; [now left |].
  exact (proj2 (C1_chain_evaluates_left_to_right _ _ _ "-" None (Hlit 10%Z)
                  (Hlit 3%Z) (Hlit 2%Z) (or_introl eq_refl))
           10%Z 3%Z 2%Z tMINUS Z.sub eq_refl eq_refl eq_refl eq_refl eq_refl).
Defined.

(** C5 fails at the source text [()]: the expression compiles and
    evaluates, without error, to nil, and [Eval] returns false. *)
Lemma C5_counterexample :
  ~ (forall e v,
        TNewEvaluableExpression "()" = Done e ->
        TEvaluate e None = Done v ->
        Eval "()" = Done v).
Proof.
  intros Hclaim.
  destruct empty_parentheses_evaluate_to_nil as (e & He & Hv & Heval).
  specialize (Hclaim e VNil He Hv). rewrite Heval in Hclaim.
  discriminate Hclaim.
Qed.

Lemma twoPlusThree_compiles :
  exists e,
    TNewEvaluableExpression "2 + 3" = Done e
    /\ TEvaluate e None = Done (VFloat 5%Z).
Proof. eexists. split; vm_compute; reflexivity. Defined.

Lemma C5_witness : Eval "2 + 3" = Done (VFloat 5%Z).
Proof.
  destruct twoPlusThree_compiles as (e & He & Hv).
  refine (proj2 (proj2 (proj2 (C5_Eval_false_on_error_or_nil "2 + 3") e He))
            (VFloat 5%Z) Hv _).
  intros Hnil. discriminate Hnil.
Defined.

(** C9 fails at the source text [((1))]: after reordering the root is a
    NOOP stage with a left child. *)
Lemma C9_counterexample :
  ~ (forall e root st,
        TNewEvaluableExpression "((1))" = Done e ->
        e.(stages) !! root = Some st ->
        st.(symbol) = tNOOP -> st.(leftStage) = None).
Proof.
  intros Hclaim.
  destruct (TNewEvaluableExpression "((1))") as [e | | |] eqn:He;
    try (vm_compute in He; discriminate).
  assert (Hst : exists st, e.(stages) !! 2 = Some st
                           /\ st.(symbol) = tNOOP
                           /\ st.(leftStage) = Some 1).
  { vm_compute in He. injection He as <-. eexists.
    split; [reflexivity | split; reflexivity]. }
  destruct Hst as (st & Hlook & Hsym & Hleft).
  specialize (Hclaim e 2 st eq_refl Hlook Hsym). congruence.
Qed.

Lemma nestedTokens_planned :
  exists root stream h,
    precedentOf 96 PlanTokens (newTokenStream nestedTokens) []
    = Done (root, stream, h).
Proof. eexists _, _, _. vm_compute. reflexivity. Defined.

Lemma C9_witness :
  exists root stream h,
    precedentOf 96 PlanTokens (newTokenStream nestedTokens) []
    = Done (root, stream, h)
    /\ forall p st, h !! p = Some st -> st.(symbol) = tNOOP ->
                    st.(leftStage) = None.
Proof.
  destruct nestedTokens_planned as (root & stream & h & Hplan).
  exists root, stream, h. split; [exact Hplan |].
  exact (proj1 (C9_planned_noop_has_only_a_right_child 96 nestedTokens root
                  stream h Hplan)).
Defined.

(** The planner builds [productStore] for [(2 + 3) * 4], and reordering
    leaves it as it is. *)
Example productTokens_planned :
  exists stream,
    precedentOf (planFuel productTokens) PlanTokens
      (newTokenStream productTokens) []
    = Done (Some 5, stream, productStore)
    /\ reorderStages (walkFuel productStore) (Some 5) productStore
       = Done productStore.
Proof. eexists. split; vm_compute; reflexivity. Qed.

Lemma productStore_holds_productTree :
  represents productStore productTree
  /\ NoDup (addressesOf productTree)
  /\ plannedTree productStore productTree.
Proof.
  split; [| split].
  - cbn. repeat split; eexists; repeat split; reflexivity.
  - apply (bool_decide_unpack _). vm_compute. exact I.
  - intros q st Hq Hst. cbn in Hq.
    repeat (apply elem_of_cons in Hq; destruct Hq as [-> | Hq]);
      try (now apply not_elem_of_nil in Hq);
      injection Hst as <-;
      try (left; eexists; reflexivity);
      try (right; left; repeat split; reflexivity);
      right; right; (split; [eexists; reflexivity | repeat split; reflexivity]).
Defined.

Lemma productTokens_constant : constantTokens productTokens.
Proof. repeat constructor; discriminate. Qed.

Lemma C2_witness :
  exists root' h',
    elideLiterals (walkFuel productStore) 5 productStore = Done (root', h')
    /\ planStages productTokens = Done (Some root', h')
    /\ forall checksTypes parameters,
        evaluateStage (walkFuel h') checksTypes h' root' parameters
        = evaluateStage (walkFuel productStore) checksTypes productStore 5
            parameters
        /\ evaluateStage (walkFuel productStore) checksTypes productStore 5
             parameters <> OutOfFuel.
Proof.
  destruct productTokens_planned as (stream & Hplan & Hreorder).
  exact (proj1 (C2_constant_folding_is_transparent productTokens 5 stream
                  productStore productStore productTokens_constant Hplan
                  Hreorder)).
Defined.

(** Folding [(2 + 3) * 4] replaces the sum by the literal 5 under the
    parentheses, which keep the product from being folded. *)
Example product_folds_under_parentheses :
  elideLiterals (walkFuel productStore) 5 productStore
  = Done (5, (<[3 := mkStage tNOOP None (Some 6) (Some noopStageRight) None
                       None None EmptyString]> productStore
              ++ [literalStage (VFloat 5%Z)])%list).
Proof. vm_compute. reflexivity. Qed.

End Examples.
